(** * Routing grid and track fill of the BAG layout framework

    A shallow embedding of [bag/layout/routing/grid.py] (coordinate model,
    block pitch) and [bag/layout/routing/fill.py] (TrackSet, power fill
    allocation, symmetric interval packing), followed by the properties
    established about them.

    Conventions.
    - Python integers are [Z]; [//] and [%] are [Z.div] and [Z.modulo]
      (both round towards minus infinity, the remainder takes the sign of
      the divisor), guarded by an explicit [ZeroDivisionError].
    - A raised exception is the [Raise] branch of [result].
    - Numbers that are an integer or an integer plus one half (track
      indices such as [q + 0.5]) are values of [half], the doubled value.
    - Coordinates are in resolution units ([unit_mode=True]) in [Grid]; the
      methods that take or return layout units are in [Grid.Layout], with
      the resolution as a floating point number.
    - Python floats are IEEE 754 binary64 numbers, the [spec_float] of the
      standard library at precision 53; NumPy integers are 64 bits wide and
      wrap around. *)

From Stdlib Require Import ZArith List Lia Bool.
From Stdlib Require SpecFloat.
From Equations Require Import Equations.
From stdpp Require Import gmap list sorting strings.

Local Open Scope Z_scope.

(** ** Python prelude *)

Module Py.

(** The [ValueError] messages raised by the two modules. *)
Inductive value_error : Set :=
| MinFillGtMax        (* 'min fill length = %d > %d = max fill length' *)
| MinFillGeMax        (* 'min fill length = %d >= %d = max fill length' *)
| NoFillSolution      (* 'No fill solution found' *)
| ZeroSpaceBlocks     (* 'Cannot draw 0 spaces blocks with nonzero spacing.' *)
| BlockNotPositive    (* 'Cannot fill with block less <= 0.' *)
| CyclicOddSpace      (* 'Cannot fill cyclic area with odd space on edge.' *)
| NotOnTrack          (* 'coordinate %.4g is not on track.' *)
| LayerOnGrid         (* 'Layer %d already on routing grid.' *)
| LengthMismatch      (* 'spaces length = %d != %d' and the like *)
| FillSpacingTooSmall (* 'Power fill spacing less then min spacing = %d' *)
| RangeStepZero       (* 'range() arg 3 must not be zero' *)
| FloatNaNToInteger.  (* 'cannot convert float NaN to integer' *)

Inductive exn : Set :=
| ValueError (msg : value_error)
| ZeroDivisionError
| IndexError
| KeyError
| TypeError
| OverflowError.

Inductive result (A : Type) : Type :=
| Ok (a : A)
| Raise (e : exn).
Arguments Ok {A} a.
Arguments Raise {A} e.

Definition bind {A B} (k : A -> result B) (r : result A) : result B :=
  match r with
  | Ok a => k a
  | Raise e => Raise e
  end.

(** [a // b] *)
Definition floordiv (a b : Z) : result Z :=
  if b =? 0 then Raise ZeroDivisionError else Ok (a / b).

(** [divmod(a, b)] *)
Definition divmod (a b : Z) : result (Z * Z) :=
  if b =? 0 then Raise ZeroDivisionError else Ok (a / b, a mod b).

(** [list(range(start, stop, step))] for a non-zero [step]. *)
Definition range (start stop step : Z) : list Z :=
  if 0 <? step then
    map (fun i => start + i * step) (seqZ 0 ((stop - start + step - 1) / step))
  else
    map (fun i => start + i * step) (seqZ 0 ((start - stop - step - 1) / - step)).

End Py.
Export Py.

#[global] Instance result_ret : MRet Py.result := @Py.Ok.
#[global] Instance result_bind : MBind Py.result := @Py.bind.

(** ** Python floats *)

Module Float64.
Import SpecFloat.

Definition prec : Z := 53.
Definition emax : Z := 1024.

(** A [float]: a binary64 number. *)
Definition float : Set := spec_float.

(** A Python number, an [int] or a [float]. *)
Inductive number : Set :=
| Int (z : Z)
| Float (x : float).

(** [float(z)], the conversion that arithmetic between an [int] and a
    [float] applies to the [int]: the nearest float, or the
    [OverflowError] 'int too large to convert to float'. *)
Definition of_int (z : Z) : result float :=
  match binary_normalize prec emax z 0 false with
  | S754_infinity _ => Raise OverflowError
  | x => Ok x
  end.

Definition to_float (a : number) : result float :=
  match a with
  | Int z => of_int z
  | Float x => Ok x
  end.

(** [x * y], [x + y] and [x == y] on floats. *)
Definition mul (x y : float) : float := SFmul prec emax x y.
Definition add (x y : float) : float := SFadd prec emax x y.
Definition eqb (x y : float) : bool := SFeqb x y.

(** [x / y] on floats: 'float division by zero' when [y] is zero. *)
Definition truediv (x y : float) : result float :=
  match y with
  | S754_zero _ => Raise ZeroDivisionError
  | _ => Ok (SFdiv prec emax x y)
  end.

(** The literals [0.5] and [2.0]. *)
Definition one_half : float := S754_finite false 4503599627370496 (-53).
Definition two : float := S754_finite false 4503599627370496 (-51).

(** The float nearest to [n / d], which is the value of a decimal literal
    such as [0.1] ([n = 1], [d = 10]). *)
Definition of_ratio (n d : Z) : float :=
  SFdiv prec emax (binary_normalize prec emax n 0 false)
                  (binary_normalize prec emax d 0 false).

(** The integer nearest to [n / d] for [0 < d], ties to the even one. *)
Definition round_half_even (n d : Z) : Z :=
  let q := n / d in
  let r := n mod d in
  if 2 * r <? d then q
  else if d <? 2 * r then q + 1
  else if Z.even q then q else q + 1.

(** [int(round(x))]: [round] goes to the nearest integer, ties to the even
    one; it raises a [ValueError] on a NaN and an [OverflowError] on an
    infinity. *)
Definition round_int (x : float) : result Z :=
  match x with
  | S754_zero _ => Ok 0
  | S754_finite s m e =>
      let n := if 0 <=? e then Z.pos m * 2 ^ e
               else round_half_even (Z.pos m) (2 ^ (- e)) in
      Ok (if s then - n else n)
  | S754_infinity _ => Raise OverflowError
  | S754_nan => Raise (ValueError FloatNaNToInteger)
  end.

(** *** Vocabulary for the properties of floats *)

(** [shl v n] is [v * 2 ^ n]. *)
Definition shl (v : positive) (n : Z) : positive := Z.to_pos (Z.pos v * 2 ^ n).

(** The float of sign [s] and magnitude [v * 2 ^ e], for [v] of at most 53
    bits: the mantissa is shifted to 53 bits. *)
Definition canon (s : bool) (v : positive) (e : Z) : float :=
  let d := Z.pos (digits2_pos v) in
  S754_finite s (shl v (53 - d)) (e + d - 53).

(** The float nearest to [x / 2], for an integer [x]. *)
Definition halves (x : Z) : float := binary_normalize prec emax x (-1) false.

End Float64.

(** ** NumPy arrays of [int64] *)

Module Np.

Definition int64_min : Z := -9223372036854775808.
Definition int64_max : Z := 9223372036854775807.

(** The arithmetic of [int64] arrays wraps around. *)
Definition wrap64 (x : Z) : Z :=
  (x + 9223372036854775808) mod 18446744073709551616 - 9223372036854775808.

(** A Python integer that enters an [int64] array, as an element or as the
    scalar operand of an array operation, has to fit: NumPy raises an
    [OverflowError] otherwise (NumPy 1 instead changes the type of the
    result for a scalar operand, which is not modelled). *)
Definition int64 (x : Z) : result Z :=
  if (int64_min <=? x) && (x <=? int64_max) then Ok x else Raise OverflowError.

(** [np.array(l, dtype=int)] *)
Fixpoint array (l : list Z) : result (list Z) :=
  match l with
  | [] => Ok []
  | x :: l' =>
      x ← int64 x;
      arr ← array l';
      Ok (x :: arr)
  end.

(** [np.arange(n, dtype=int)]; the memory that the array takes is not
    modelled. *)
Definition arange (n : Z) : result (list Z) :=
  n ← int64 n;
  Ok (seqZ 0 n).

(** [a // b] on [int64]: a division by zero gives [0] (with a warning). *)
Definition floordiv (a b : Z) : Z :=
  if b =? 0 then 0 else wrap64 (a / b).

(** The value of an [int64] after its conversion to [float64]: [x] itself
    when it has at most 53 bits, else rounded to 53 bits, ties to even. *)
Definition round53 (x : Z) : Z :=
  let d := Z.log2 (Z.abs x) + 1 in
  if d <=? 53 then x
  else
    let ulp := 2 ^ (d - 53) in
    Z.sgn x * (ulp * Float64.round_half_even (Z.abs x) ulp).

End Np.

(** An interval [(start, stop)], read as the half-open range [[start, stop)]. *)
Definition intv : Set := (Z * Z)%type.

(** ** Symmetric interval packing ([fill.py]) *)

Module Fill.

(** The tuple returned by [_fill_symmetric_info]. *)
Record fill_info : Set := FillInfo {
  fill_area : Z;
  same_sp : bool;
  blk0 : Z;
  blk1 : Z;
  k : Z;
  m : Z;
  mid_blk_len : Z;
  mid_sp_len : Z
}.

Definition _fill_symmetric_info (tot_area num_blk_tot sp : Z)
    (inc_sp fill_on_edge cyclic : bool) : result fill_info :=
  let adj_sp_sgn := if inc_sp then 1 else -1 in
  (* determine the number of space blocks *)
  let num_sp_tot :=
    if cyclic then num_blk_tot
    else if fill_on_edge then num_blk_tot - 1 else num_blk_tot + 1 in
  let fill_area := tot_area - num_sp_tot * sp in
  (* handle special cases *)
  if (num_sp_tot =? 0) && negb (sp =? 0) then Raise (ValueError ZeroSpaceBlocks)
  else
  (* find minimum block length *)
  '(blk_len, num_blk1) ← divmod fill_area num_blk_tot;
  if blk_len <=? 0 then Raise (ValueError BlockNotPositive)
  else
  let num_blk_tot := if cyclic && fill_on_edge then num_blk_tot + 1 else num_blk_tot in
  (* (same_sp, mid_blk_len, mid_sp_len, num_blk1, fill_area) *)
  let '(same_sp, mid_blk_len, mid_sp_len, num_blk1, fill_area) :=
    if num_blk_tot mod 2 =? 0 then
      (* even number of fill blocks: space block in the middle *)
      if num_blk1 mod 2 =? 1 then
        (false, -1, sp + adj_sp_sgn, num_blk1 + - adj_sp_sgn, fill_area + - adj_sp_sgn)
      else (true, -1, sp, num_blk1, fill_area)
    else
      (* odd number of fill blocks: fill block in the middle *)
      if num_blk1 mod 2 =? 1 then (true, blk_len + 1, -1, num_blk1, fill_area)
      else (true, blk_len, -1, num_blk1, fill_area) in
  (* distribute the fill units evenly *)
  let num_large := num_blk1 / 2 in
  let num_small := (num_blk_tot - num_blk1) / 2 in
  let m := num_large + num_small in
  if cyclic && negb fill_on_edge && (sp mod 2 =? 1) then
    Raise (ValueError CyclicOddSpace)
  else if cyclic && fill_on_edge then
    if blk_len mod 2 =? 0 then
      Ok (FillInfo fill_area same_sp (blk_len + 1) blk_len num_small m mid_blk_len mid_sp_len)
    else
      Ok (FillInfo fill_area same_sp blk_len (blk_len + 1) num_large m mid_blk_len mid_sp_len)
  else
    if num_large >=? num_small then
      Ok (FillInfo fill_area same_sp blk_len (blk_len + 1) num_large m mid_blk_len mid_sp_len)
    else
      Ok (FillInfo fill_area same_sp (blk_len + 1) blk_len num_small m mid_blk_len mid_sp_len).

(** The loop [for _ in range(m)] of [_fill_symmetric_helper]: the state is
    [(ans, marker, cur_sum, prev_sum)], [n] is the number of iterations
    left.  [ans] is kept in the order of the Python list. *)
Fixpoint first_half (n : nat) (sp blk0 blk1 k m : Z) (invert fill_on_edge : bool)
    (ans : list intv) (marker cur_sum prev_sum : Z) : list intv * Z :=
  match n with
  | O => (ans, marker)
  | S n' =>
      let cur_len := if cur_sum <? prev_sum then blk1 else blk0 in
      let ans :=
        if invert then
          if fill_on_edge then ans ++ [(marker + cur_len, marker + sp + cur_len)]
          else ans ++ [(marker, marker + sp)]
        else
          if fill_on_edge then ans ++ [(marker, marker + cur_len)]
          else ans ++ [(marker + sp, marker + sp + cur_len)] in
      first_half n' sp blk0 blk1 k m invert fill_on_edge ans
        (marker + (cur_len + sp)) ((cur_sum + k) mod m) cur_sum
  end.

(** The loop [for idx in range(half_len - 1, -1, -1)]: the reflections of
    [ans[half_len-1]], ..., [ans[0]], in this order. *)
Definition second_half (shift : Z) (ans : list intv) (half_len : nat) : list intv :=
  map (fun i : intv => (shift - snd i, shift - fst i)) (rev (firstn half_len ans)).

Definition _fill_symmetric_helper (tot_area num_blk_tot sp offset : Z)
    (inc_sp invert fill_on_edge cyclic : bool) : result (list intv * bool) :=
  fi ← _fill_symmetric_info tot_area num_blk_tot sp inc_sp fill_on_edge cyclic;
  let marker :=
    if cyclic then
      if fill_on_edge then offset - blk1 fi / 2 else offset - sp / 2
    else offset in
  let '(ans, marker) :=
    first_half (Z.to_nat (m fi)) sp (blk0 fi) (blk1 fi) (k fi) (m fi)
      invert fill_on_edge [] marker 0 1 in
  (* add middle fill or space *)
  '(ans, half_len) ←
    (if mid_blk_len fi >=? 0 then
       (* fill in middle *)
       if invert then
         let ans := if negb fill_on_edge then ans ++ [(marker, marker + sp)] else ans in
         Ok (ans, length ans)
       else
         let half_len := length ans in
         if fill_on_edge then Ok (ans ++ [(marker, marker + mid_blk_len fi)], half_len)
         else Ok (ans ++ [(marker + sp, marker + sp + mid_blk_len fi)], half_len)
     else
       (* space in middle *)
       if invert then
         if fill_on_edge then
           match ans with
           | [] => Raise IndexError          (* del ans[-1] *)
           | _ => let ans := removelast ans in
                  let marker := marker - sp in
                  Ok (ans ++ [(marker, marker + mid_sp_len fi)], length ans)
           end
         else Ok (ans ++ [(marker, marker + mid_sp_len fi)], length ans)
       else Ok (ans, length ans));
  (* now add the second half of the list *)
  let shift := tot_area + offset * 2 in
  Ok (ans ++ second_half shift ans half_len, same_sp fi).

(** The search loop of [fill_symmetric_max],
    [for blk_len_max in range(n_max, n_min - 1, -1)], entered at
    [blk_len_max] with [rest] further values to try; it yields the final
    [(blk_len_max, num_blk_min, num_sp_min)]. *)
Fixpoint search_blk_len (rest : nat) (area sp_min : Z) (cyclic : bool)
    (blk_len_max : Z) : result (Z * Z * Z) :=
  q ← (if cyclic then floordiv area (blk_len_max + sp_min)
        else floordiv (area + sp_min) (blk_len_max + sp_min));
  let num_blk_min := q in
  let num_sp_min := if cyclic then num_blk_min else num_blk_min - 1 in
  if (num_blk_min >? 0) && (num_sp_min >? 0) then
    Ok (blk_len_max, num_blk_min, num_sp_min)                 (* break *)
  else
    match rest with
    | O => Ok (blk_len_max, num_blk_min, num_sp_min)
    | S rest' => search_blk_len rest' area sp_min cyclic (blk_len_max - 1)
    end.

Definition fill_symmetric_max (area n_min n_max sp_min offset : Z) (cyclic : bool)
    : result (list intv) :=
  if n_min >=? n_max then Raise (ValueError MinFillGeMax)
  else
  (* special case: we can fill the entire block *)
  if (n_min <=? area) && (area <=? n_max) && negb cyclic then
    Ok [(offset, offset + area)]
  else
  (* step 1 *)
  '(blk_len_max, num_blk_min, num_sp_min) ←
    search_blk_len (Z.to_nat (n_max - n_min)) area sp_min cyclic n_max;
  if (num_blk_min <=? 0) || (num_sp_min <=? 0) then Ok []
  else
  (* step 2 *)
  let min_space_with_max_blk := area - num_blk_min * blk_len_max in
  (* step 3 *)
  if min_space_with_max_blk <=? (num_sp_min + 1) * sp_min then
    let inc_sp := blk_len_max <? n_max in
    r ← _fill_symmetric_helper area num_sp_min blk_len_max offset inc_sp true cyclic cyclic;
    Ok (fst r)
  else
  q ← floordiv (area - (num_sp_min + 1) * sp_min) (num_blk_min + 1);
  let min_blk_len := q in
  if min_blk_len <? n_min then Raise (ValueError NoFillSolution)
  else
  r ← _fill_symmetric_helper area (num_blk_min + 1) sp_min offset true false
         (negb cyclic) cyclic;
  Ok (fst r).

Definition fill_symmetric_const_space (area sp_max n_min n_max offset : Z)
    : result (list intv) :=
  if n_min >? n_max then Raise (ValueError MinFillGtMax)
  else
  q ← floordiv (- (area - sp_max)) (n_max + sp_max);
  let num_fill := - q in
  if num_fill =? 0 then Ok []
  else
  q ← floordiv (area - (num_fill + 1) * sp_max) num_fill;
  let blk_len := q in
  if blk_len >=? n_min then
    r ← _fill_symmetric_helper area num_fill sp_max offset false false false false;
    Ok (fst r)
  else
  '(sp_max, remainder) ← divmod (area - num_fill * n_min) (num_fill + 1);
  if (n_max >? n_min) || (remainder =? 0) then
    r ← _fill_symmetric_helper area num_fill sp_max offset false false false false;
    Ok (fst r)
  else
  '(sol, same_sp) ←
    _fill_symmetric_helper area (num_fill + 1) n_max offset false true true false;
  if same_sp : bool then Ok sol
  else
  r ← _fill_symmetric_helper area (num_fill + 2) n_max offset false true true false;
  Ok (fst r).

(** *** Vocabulary for the properties of the packing *)

(** The reflection [x ↦ shift − x] maps [[a, b)] onto [[shift − b, shift − a)]. *)
Definition reflect_intv (shift : Z) (i : intv) : intv :=
  (shift - snd i, shift - fst i).

(** The list, as a set of intervals, is its own mirror image. *)
Definition reflection_invariant (shift : Z) (l : list intv) : Prop :=
  forall i, In i l <-> In (reflect_intv shift i) l.

(** The lengths of the intervals, and of the gaps between neighbours. *)
Definition lengths (l : list intv) : list Z :=
  map (fun i => snd i - fst i) l.

Fixpoint gaps (l : list intv) : list Z :=
  match l with
  | a :: (b :: _) as l' => (fst b - snd a) :: gaps l'
  | _ => []
  end.

(** The intervals come in increasing order and do not overlap: each one
    ends before the next one starts. *)
Fixpoint ordered (l : list intv) : Prop :=
  match l with
  | a :: (b :: _) as l' => snd a <= fst b /\ ordered l'
  | _ => True
  end.

(** [num_blk_min] as the search loop of [fill_symmetric_max] computes it
    for the block length [blk_len]. *)
Definition num_blk_feasible (area sp_min blk_len : Z) (cyclic : bool) : Z :=
  if cyclic then area / (blk_len + sp_min)
  else (area + sp_min) / (blk_len + sp_min).

(** [num_fill] as [fill_symmetric_const_space] computes it. *)
Definition num_fill_needed (area sp_max n_max : Z) : Z :=
  - (- (area - sp_max) / (n_max + sp_max)).

(** The errors of the packing helper: none of them is the usage error of
    the entry points. *)
Definition helper_error (e : exn) : Prop :=
  e = ValueError ZeroSpaceBlocks \/ e = ValueError BlockNotPositive \/
  e = ValueError CyclicOddSpace \/ e = ZeroDivisionError \/ e = IndexError.

(** The interval moved by [d]. *)
Definition translate (d : Z) (i : intv) : intv := (fst i + d, snd i + d).

End Fill.

(** ** Half-integers and dictionaries *)

(** A number that is an integer or an integer plus one half, kept as its
    doubled value: [q] is [Half (2 * q)] and [q + 0.5] is [Half (2 * q + 1)]. *)
Record half : Set := Half { twice : Z }.

Definition of_int (q : Z) : half := Half (2 * q).
Definition is_int (t : half) : bool := Z.even (twice t).

#[global] Instance half_eq_dec : EqDecision half.
Proof. solve_decision. Defined.

(** [d[key]] *)
Definition getitem {V} (d : gmap Z V) (key : Z) : result V :=
  match d !! key with
  | Some v => Ok v
  | None => Raise KeyError
  end.

(** ** The routing grid ([grid.py]) *)

Module Grid.

Equations? _gcd (a b : Z) : Z by wf (Z.abs_nat b) lt :=
  _gcd a b with Z.eq_dec b 0 := {
    | left _ := a ;
    | right _ := _gcd b (a mod b) }.
Proof.
  destruct (Z_lt_le_dec 0 b).
  - pose proof (Z.mod_pos_bound a b); lia.
  - pose proof (Z.mod_neg_bound a b); lia.
Qed.

Fixpoint _lcm (arr : list Z) (init : Z) : result Z :=
  match arr with
  | [] => Ok init
  | val :: arr' =>
      cur_lcm ← floordiv (init * val) (_gcd init val);
      _lcm arr' cur_lcm
  end.

(** Track direction, ['x'] or ['y']. *)
Inductive direction : Set := X | Y.

#[global] Instance direction_eq_dec : EqDecision direction.
Proof. solve_decision. Defined.

Record RoutingGrid : Type := mkRoutingGrid {
  layers : list Z;
  sp_tracks : gmap Z Z;
  w_tracks : gmap Z Z;
  offset_tracks : gmap Z Z;
  dir_tracks : gmap Z direction;
  max_num_tr_tracks : gmap Z Z;
  block_pitch : gmap Z Z
}.

(** The generator
    [(p for idx, p in enumerate(pitch_list) if dir_tracks[layers[idx]] == cur_dir)]. *)
Fixpoint bot_pitch_iter (dirs : gmap Z direction) (cur_dir : direction)
    (lays pitch_list : list Z) : result (list Z) :=
  match lays, pitch_list with
  | lay :: lays', p :: pitch_list' =>
      d ← getitem dirs lay;
      rest ← bot_pitch_iter dirs cur_dir lays' pitch_list';
      Ok (if decide (d = cur_dir) then p :: rest else rest)
  | _, _ => Ok []
  end.

(** The loop [for lay in self.layers] of [update_block_pitch]; [todo] is
    what is left of [self.layers]. *)
Fixpoint update_block_pitch_loop (g : RoutingGrid) (todo pitch_list : list Z)
    (blk : gmap Z Z) : result (gmap Z Z) :=
  match todo with
  | [] => Ok blk
  | lay :: todo' =>
      sp ← getitem (sp_tracks g) lay;
      w ← getitem (w_tracks g) lay;
      let cur_blk_pitch := sp + w in
      cur_dir ← getitem (dir_tracks g) lay;
      cur_blk_pitch ←
        match pitch_list with
        | [] => Ok cur_blk_pitch
        | _ => arr ← bot_pitch_iter (dir_tracks g) cur_dir (layers g) pitch_list;
               _lcm arr cur_blk_pitch
        end;
      update_block_pitch_loop g todo' (pitch_list ++ [cur_blk_pitch])
        (<[lay := cur_blk_pitch]> blk)
  end.

Definition update_block_pitch (g : RoutingGrid) : result RoutingGrid :=
  blk ← update_block_pitch_loop g (layers g) [] (block_pitch g);
  Ok (mkRoutingGrid (layers g) (sp_tracks g) (w_tracks g) (offset_tracks g)
        (dir_tracks g) (max_num_tr_tracks g) blk).

(** [add_new_layer], once its arguments are rounded.  [tr_space] and
    [tr_width] are floating point layout units in the source; [sp_round]
    and [w_round] stand for [int(round(tr_space / (2 * resolution)))] and
    [int(round(tr_width / (2 * resolution)))].  The method with the
    rounding, which can raise, is [Layout.add_new_layer] below. *)
Definition add_new_layer (g : RoutingGrid) (layer_id sp_round w_round : Z)
    (dir : direction) (max_num_tr : Z) (share_track override : bool)
    : result RoutingGrid :=
  lays ←
    (if decide (is_Some (sp_tracks g !! layer_id)) then
       if override then Ok (layers g) else Raise (ValueError LayerOnGrid)
     else Ok (merge_sort Z.le (layers g ++ [layer_id])));
  let sp_unit := 2 * sp_round in
  let w_unit := 2 * w_round in
  let offset := if share_track then 0 else (sp_unit + w_unit) / 2 in
  Ok (mkRoutingGrid lays
        (<[layer_id := sp_unit]> (sp_tracks g))
        (<[layer_id := w_unit]> (w_tracks g))
        (<[layer_id := offset]> (offset_tracks g))
        (<[layer_id := dir]> (dir_tracks g))
        (<[layer_id := max_num_tr]> (max_num_tr_tracks g))
        (block_pitch g)).

Definition empty_grid : RoutingGrid := mkRoutingGrid [] ∅ ∅ ∅ ∅ ∅ ∅.

(** The loop over [zip(layers, spaces, widths, max_num_tr)] of [__init__]. *)
Fixpoint init_loop (g : RoutingGrid) (lays spaces widths max_num_tr : list Z)
    (cur_dir : direction) : result RoutingGrid :=
  match lays, spaces, widths, max_num_tr with
  | lay :: lays', sp :: spaces', w :: widths', max_num :: max_num_tr' =>
      g ← add_new_layer g lay sp w cur_dir max_num false false;
      init_loop g lays' spaces' widths' max_num_tr'
        (if decide (cur_dir = X) then Y else X)
  | _, _, _, _ => Ok g
  end.

(** [RoutingGrid.__init__], once the spaces and widths are rounded;
    [max_num_tr] is an integer ([inl]) or a list.  [spaces] and [widths]
    hold, for every layer, the integers [int(round(x / (2 * resolution)))]
    that [add_new_layer] makes of its floating point arguments.  The
    constructor with the rounding is [Layout.__init__] below. *)
Definition __init__ (lays spaces widths : list Z) (bot_dir : direction)
    (max_num_tr : Z + list Z) : result RoutingGrid :=
  let num_layer := length lays in
  if negb (length spaces =? num_layer)%nat then Raise (ValueError LengthMismatch)
  else if negb (length widths =? num_layer)%nat then Raise (ValueError LengthMismatch)
  else
  max_num_tr ←
    match max_num_tr with
    | inl n => Ok (replicate num_layer n)
    | inr l => if negb (length l =? num_layer)%nat
               then Raise (ValueError LengthMismatch) else Ok l
    end;
  g ← init_loop empty_grid lays spaces widths max_num_tr bot_dir;
  update_block_pitch g.

Definition get_direction (g : RoutingGrid) (layer_id : Z) : result direction :=
  getitem (dir_tracks g) layer_id.

(** [coord_to_track], with [unit_mode=True]. *)
Definition coord_to_track (g : RoutingGrid) (layer_id coord : Z) : result half :=
  sp ← getitem (sp_tracks g) layer_id;
  w ← getitem (w_tracks g) layer_id;
  let pitch := sp + w in
  off ← getitem (offset_tracks g) layer_id;
  '(q, r) ← divmod (coord - off) pitch;
  if r =? 0 then Ok (of_int q)
  else if r =? pitch / 2 then Ok (Half (2 * q + 1))           (* q + 0.5 *)
  else Raise (ValueError NotOnTrack).

(** [track_to_coord]: the value [coord_unit], the position of the track in
    resolution units; what the source returns, [coord_unit] scaled by the
    resolution, is [Layout.track_to_coord] below. *)
Definition track_to_coord (g : RoutingGrid) (layer_id : Z) (track_idx : half)
    : result half :=
  sp ← getitem (sp_tracks g) layer_id;
  w ← getitem (w_tracks g) layer_id;
  let pitch := sp + w in
  off ← getitem (offset_tracks g) layer_id;
  Ok (Half (pitch * twice track_idx + 2 * off)).

(** A grid that calls of [add_new_layer] and [update_block_pitch] can
    produce, starting from the constructor. *)
Inductive reachable : RoutingGrid -> Prop :=
| reach_init lays spaces widths bot_dir max_num_tr g :
    __init__ lays spaces widths bot_dir max_num_tr = Ok g -> reachable g
| reach_add g layer_id sp_round w_round dir max_num_tr share_track override g' :
    reachable g ->
    add_new_layer g layer_id sp_round w_round dir max_num_tr share_track override = Ok g' ->
    reachable g'
| reach_update g g' :
    reachable g -> update_block_pitch g = Ok g' -> reachable g'.

(** [c] is the coordinate of a track or of a half-track of the layer. *)
Definition on_grid (g : RoutingGrid) (layer_id c : Z) : Prop :=
  exists t : half, track_to_coord g layer_id t = Ok (of_int c).

(** The track pitch [sp_tracks[layer_id] + w_tracks[layer_id]]. *)
Definition track_pitch (g : RoutingGrid) (layer_id : Z) : option Z :=
  sp ← sp_tracks g !! layer_id;
  w ← w_tracks g !! layer_id;
  Some (sp + w).

(** [coord_to_nearest_track], with [unit_mode=True].  With
    [half_track=True] the result is [q // 2] or [q / 2], the number [q / 2]
    in both cases. *)
Definition coord_to_nearest_track (g : RoutingGrid) (layer_id coord : Z)
    (half_track : bool) (mode : Z) : result half :=
  sp ← getitem (sp_tracks g) layer_id;
  w ← getitem (w_tracks g) layer_id;
  let pitch := sp + w in
  let pitch := if half_track then pitch / 2 else pitch in
  off ← getitem (offset_tracks g) layer_id;
  '(q, r) ← divmod (coord - off) pitch;
  let q :=
    if r =? 0 then
      (* exactly on track *)
      if mode =? -2 then q - 1 else if mode =? 2 then q + 1 else q
    else
      (* not on track; [r >= pitch / 2] is a comparison of reals *)
      if (mode >? 0) || ((mode =? 0) && (2 * r >=? pitch)) then q + 1 else q in
  if negb half_track then Ok (of_int q) else Ok (Half q).

(** [get_wire_bounds], with [unit_mode=True]; [int(...)] truncates
    towards zero. *)
Definition get_wire_bounds (g : RoutingGrid) (layer_id : Z) (tr_idx : half)
    (width : Z) : result (Z * Z) :=
  w ← getitem (w_tracks g) layer_id;
  sp ← getitem (sp_tracks g) layer_id;
  let w_wire := width * w + (width - 1) * sp in
  off ← getitem (offset_tracks g) layer_id;
  let center := Z.quot (twice tr_idx * (w + sp)) 2 + off in
  let w_half := w_wire / 2 in
  Ok (center - w_half, center + w_half).

(** [get_track_index_range], with [unit_mode=True] and an integer
    [num_space]; [None] stands for the pair [(None, None)]. *)
Definition get_track_index_range (g : RoutingGrid) (layer_id lower upper : Z)
    (num_space edge_margin : Z) (half_track : bool) : result (option (half * half)) :=
  tr_w ← getitem (w_tracks g) layer_id;
  tr_sp ← getitem (sp_tracks g) layer_id;
  let tr_wh := tr_w / 2 in
  let tr_ph := (tr_w + tr_sp) / 2 in
  (* get start track half index *)
  lower_bnd ← coord_to_nearest_track g layer_id lower true (-1);
  start_track ← coord_to_nearest_track g layer_id (lower + edge_margin) true 2;
  let hstart_track := Z.max (twice start_track) (twice lower_bnd + 2 * num_space) + 1 in
  let hstart_track :=
    if hstart_track * tr_ph - tr_wh <? lower + edge_margin
    then hstart_track + 1 else hstart_track in
  let hstart_track :=
    if negb half_track && (hstart_track mod 2 =? 0)
    then hstart_track + 1 else hstart_track in
  (* get end track half index *)
  upper_bnd ← coord_to_nearest_track g layer_id upper true 1;
  end_track ← coord_to_nearest_track g layer_id (upper - edge_margin) true (-2);
  let hend_track := Z.min (twice end_track) (twice upper_bnd - 2 * num_space) + 1 in
  let hend_track :=
    if hend_track * tr_ph + tr_wh >? upper - edge_margin
    then hend_track - 1 else hend_track in
  let hend_track :=
    if negb half_track && (hend_track mod 2 =? 0)
    then hend_track - 1 else hend_track in
  if hend_track <? hstart_track then Ok None
  else Ok (Some (Half (hstart_track - 1), Half (hend_track - 1))).

(** [get_overlap_tracks], with [unit_mode=True]. *)
Definition get_overlap_tracks (g : RoutingGrid) (layer_id lower upper : Z)
    (half_track : bool) : result (option (half * half)) :=
  tr_w ← getitem (w_tracks g) layer_id;
  tr_sp ← getitem (sp_tracks g) layer_id;
  let tr_wh := tr_w / 2 in
  let tr_ph := (tr_w + tr_sp) / 2 in
  lower_bnd ← coord_to_nearest_track g layer_id lower true (-1);
  let hlower_bnd := twice lower_bnd + 1 in
  let hlower_bnd :=
    if hlower_bnd * tr_ph + tr_wh <? lower then hlower_bnd + 1 else hlower_bnd in
  let hlower_bnd :=
    if negb half_track && (hlower_bnd mod 2 =? 0) then hlower_bnd + 1 else hlower_bnd in
  upper_bnd ← coord_to_nearest_track g layer_id upper true 1;
  let hupper_bnd := twice upper_bnd + 1 in
  let hupper_bnd :=
    if hupper_bnd * tr_ph - tr_wh >? upper then hupper_bnd - 1 else hupper_bnd in
  let hupper_bnd :=
    if negb half_track && (hupper_bnd mod 2 =? 0) then hupper_bnd - 1 else hupper_bnd in
  if hupper_bnd <? hlower_bnd then Ok None
  else Ok (Some (Half (hlower_bnd - 1), Half (hupper_bnd - 1))).

(** [get_num_space_tracks], with [half_space=False].  [sp_min_unit] stands
    for [int(round(sp_min / resolution))], where [sp_min] is what the
    technology object answers for the minimum space of this wire. *)
Definition get_num_space_tracks (g : RoutingGrid) (layer_id sp_min_unit : Z)
    : result Z :=
  w_unit ← getitem (w_tracks g) layer_id;
  sp_unit ← getitem (sp_tracks g) layer_id;
  let half_pitch := (w_unit + sp_unit) / 2 in
  q ← floordiv (- (sp_min_unit - sp_unit)) half_pitch;
  let num_half_pitch := - q in
  if num_half_pitch mod 2 =? 0 then Ok (num_half_pitch / 2)
  else Ok ((num_half_pitch + 1) / 2).

(** *** Invariants *)

(** What a grid keeps through [add_new_layer] and [update_block_pitch]:
    the layer list is sorted, without duplicates, and lists the registered
    layers; widths and spaces are even. *)
Record grid_inv (g : RoutingGrid) : Prop := {
  inv_nodup : NoDup (layers g);
  inv_sorted : StronglySorted Z.le (layers g);
  inv_layers : forall L, L ∈ layers g <-> is_Some (sp_tracks g !! L);
  inv_offset : forall L, is_Some (sp_tracks g !! L) -> is_Some (offset_tracks g !! L);
  inv_sp_even : forall L v, sp_tracks g !! L = Some v -> Z.even v = true;
  inv_w_even : forall L v, w_tracks g !! L = Some v -> Z.even v = true
}.

(** The invariant of the loop of [update_block_pitch], once the layers
    [done] are handled: [pitch_list] and [blk] hold their block pitches,
    and the block pitch of a layer is a multiple of the track pitch of
    every layer of its direction that comes no later. *)
Definition pitch_inv (g : RoutingGrid) (done pitch_list : list Z) (blk : gmap Z Z)
    : Prop :=
  length pitch_list = length done /\
  (forall (j : nat) L p,
     done !! j = Some L -> pitch_list !! j = Some p -> blk !! L = Some p) /\
  (forall (i j : nat) L' L p,
     (i <= j)%nat -> done !! i = Some L' -> done !! j = Some L ->
     pitch_list !! j = Some p -> dir_tracks g !! L' = dir_tracks g !! L ->
     exists sp w,
       sp_tracks g !! L' = Some sp /\ w_tracks g !! L' = Some w /\ (sp + w | p)).

(** The second half of the invariant of the loop of [update_block_pitch]:
    the block pitch of a layer divides every common multiple of the track
    pitches of the layers of its direction that come no later. *)
Definition pitch_min (g : RoutingGrid) (done pitch_list : list Z) : Prop :=
  forall (j : nat) L p m,
    done !! j = Some L -> pitch_list !! j = Some p ->
    (forall (i : nat) L' sp w,
       (i <= j)%nat -> done !! i = Some L' -> dir_tracks g !! L' = dir_tracks g !! L ->
       sp_tracks g !! L' = Some sp -> w_tracks g !! L' = Some w -> (sp + w | m)) ->
    (p | m).

(** The direction of the [i]-th layer of the constructor: directions
    alternate, from [d] on. *)
Definition nth_dir (d : direction) (i : nat) : direction :=
  if Nat.even i then d else if decide (d = X) then Y else X.

(** *** Further queries of the grid *)


(** [get_track_pitch], [get_block_pitch], with [unit_mode=True]. *)
Definition get_track_pitch (g : RoutingGrid) (layer_id : Z) : result Z :=
  w ← getitem (w_tracks g) layer_id;
  sp ← getitem (sp_tracks g) layer_id;
  Ok (w + sp).

Definition get_block_pitch (g : RoutingGrid) (layer_id : Z) : result Z :=
  getitem (block_pitch g) layer_id.

(** [get_block_size], with [unit_mode=True]: [(block_width, block_height)]. *)
Definition get_block_size (g : RoutingGrid) (layer_id : Z) : result (Z * Z) :=
  h_pitch ← getitem (block_pitch g) layer_id;
  w_pitch ← getitem (block_pitch g) (layer_id - 1);
  d ← getitem (dir_tracks g) layer_id;
  if decide (d = Y) then Ok (h_pitch, w_pitch) else Ok (w_pitch, h_pitch).

(** [get_size_dimension], with [unit_mode=True]; [size] is
    [(top_layer, nx_blk, ny_blk)]. *)
Definition get_size_dimension (g : RoutingGrid) (size : Z * Z * Z) : result (Z * Z) :=
  let '(top_layer_id, nx_blk, ny_blk) := size in
  h_pitch ← get_block_pitch g top_layer_id;
  w_pitch ← get_block_pitch g (top_layer_id - 1);
  d ← get_direction g top_layer_id;
  let '(w_pitch, h_pitch) := if decide (d = Y) then (h_pitch, w_pitch)
                             else (w_pitch, h_pitch) in
  Ok (nx_blk * w_pitch, ny_blk * h_pitch).

Definition get_num_tracks (g : RoutingGrid) (size : Z * Z * Z) (layer_id : Z) : result Z :=
  tr_dir ← get_direction g layer_id;
  '(blk_w, blk_h) ← get_size_dimension g size;
  w ← getitem (w_tracks g) layer_id;
  sp ← getitem (sp_tracks g) layer_id;
  let tr_pitch := w + sp in
  if decide (tr_dir = X) then floordiv blk_h tr_pitch else floordiv blk_w tr_pitch.

(** [get_evenly_spaced_tracks].  [scale], [offset] and [den] are Python
    integers; the array operations are on [int64].  The result
    [((hidx_arr - 1) / 2.0).tolist()] is a list of floats, each the half of
    an integer that went through [float64]: the [half] whose doubled value
    is that integer. *)
Definition get_evenly_spaced_tracks (num_tracks tot_space track_width : Z)
    (half_end_space : bool) : result (list half) :=
  let '(scale, offset, den) :=
    if half_end_space then
      let tot_space_htr := 2 * tot_space in
      (2 * tot_space_htr, tot_space_htr + num_tracks, 2 * num_tracks)
    else
      let tot_space_htr := 2 * tot_space in
      let width_htr := 2 * track_width - 2 in
      (2 * (tot_space_htr + width_htr),
       2 * tot_space_htr - width_htr * (num_tracks - 1) + (num_tracks + 1),
       2 * (num_tracks + 1)) in
  arr ← Np.arange num_tracks;
  scale ← Np.int64 scale;
  offset ← Np.int64 offset;
  den ← Np.int64 den;
  let hidx_arr :=
    map (fun k => Np.floordiv (Np.wrap64 (Np.wrap64 (scale * k) + offset)) den) arr in
  (* convert from half indices to actual indices *)
  Ok (map (fun hidx => Half (Np.round53 (Np.wrap64 (hidx - 1)))) hidx_arr).


(** *** Layout units

    The methods that take or give layout units, with the attribute
    [self._resolution] as [res]. *)

Module Layout.
Import Float64.

(** [int(round(coord / self._resolution))] *)
Definition to_unit (res : float) (coord : number) : result Z :=
  x ← to_float coord;
  x ← truediv x res;
  round_int x.

(** The arguments [coord] and [unit_mode] of a method: an integer with
    [unit_mode=True], or a number in layout units with [unit_mode=False]. *)
Inductive coordinate : Set :=
| Unit (c : Z)
| LayoutUnit (c : number).

(** The coordinate in resolution units. *)
Definition units (res : float) (coord : coordinate) : result Z :=
  match coord with
  | Unit c => Ok c
  | LayoutUnit c => to_unit res c
  end.

(** [coord_to_track]: the track number [q], or the float [q + 0.5]. *)
Definition coord_to_track (g : RoutingGrid) (res : float) (layer_id : Z)
    (coord : coordinate) : result number :=
  coord ← units res coord;
  sp ← getitem (sp_tracks g) layer_id;
  w ← getitem (w_tracks g) layer_id;
  let pitch := sp + w in
  off ← getitem (offset_tracks g) layer_id;
  '(q, r) ← divmod (coord - off) pitch;
  if r =? 0 then Ok (Int q)
  else if r =? pitch / 2 then
    x ← of_int q;
    Ok (Float (add x one_half))
  else Raise (ValueError NotOnTrack).

(** The Python value of a track index: the [int] [q], or the [float]
    [q + 0.5]. *)
Definition index (t : half) : result number :=
  if is_int t then Ok (Int (twice t / 2))
  else
    x ← of_int (twice t / 2);
    Ok (Float (add x one_half)).

(** [track_to_coord]: [coord_unit] is an [int] for an [int] track index and
    a [float] for a [float] one; the result is a [float]. *)
Definition track_to_coord (g : RoutingGrid) (res : float) (layer_id : Z)
    (track_idx : number) : result float :=
  sp ← getitem (sp_tracks g) layer_id;
  w ← getitem (w_tracks g) layer_id;
  let pitch := sp + w in
  coord_unit ←
    match track_idx with
    | Int t =>
        off ← getitem (offset_tracks g) layer_id;
        Ok (Int (pitch * t + off))
    | Float t =>
        p ← of_int pitch;
        off ← getitem (offset_tracks g) layer_id;
        off ← of_int off;
        Ok (Float (add (mul p t) off))
    end;
  x ← to_float coord_unit;
  Ok (mul x res).

(** [int(round(x / (2 * self.resolution)))] *)
Definition half_units (res : float) (x : number) : result Z :=
  x ← to_float x;
  x ← truediv x (mul two res);
  round_int x.

(** [x] is a space or a width that [add_new_layer] rounds to [n] half
    units. *)
Definition rounds (res : float) (x : number) (n : Z) : Prop :=
  half_units res x = Ok n.

(** [add_new_layer], with [tr_space] and [tr_width] in layout units. *)
Definition add_new_layer (g : RoutingGrid) (res : float) (layer_id : Z)
    (tr_space tr_width : number) (dir : direction) (max_num_tr : Z)
    (share_track override : bool) : result RoutingGrid :=
  lays ←
    (if decide (is_Some (sp_tracks g !! layer_id)) then
       if override then Ok (layers g) else Raise (ValueError LayerOnGrid)
     else Ok (merge_sort Z.le (layers g ++ [layer_id])));
  sp_round ← half_units res tr_space;
  let sp_unit := 2 * sp_round in
  w_round ← half_units res tr_width;
  let w_unit := 2 * w_round in
  let offset := if share_track then 0 else (sp_unit + w_unit) / 2 in
  Ok (mkRoutingGrid lays
        (<[layer_id := sp_unit]> (sp_tracks g))
        (<[layer_id := w_unit]> (w_tracks g))
        (<[layer_id := offset]> (offset_tracks g))
        (<[layer_id := dir]> (dir_tracks g))
        (<[layer_id := max_num_tr]> (max_num_tr_tracks g))
        (block_pitch g)).

(** The loop over [zip(layers, spaces, widths, max_num_tr)] of [__init__]. *)
Fixpoint init_loop (g : RoutingGrid) (res : float) (lays : list Z)
    (spaces widths : list number) (max_num_tr : list Z) (cur_dir : direction)
    : result RoutingGrid :=
  match lays, spaces, widths, max_num_tr with
  | lay :: lays', sp :: spaces', w :: widths', max_num :: max_num_tr' =>
      g ← add_new_layer g res lay sp w cur_dir max_num false false;
      init_loop g res lays' spaces' widths' max_num_tr'
        (if decide (cur_dir = X) then Y else X)
  | _, _, _, _ => Ok g
  end.

(** [RoutingGrid.__init__], with [spaces] and [widths] in layout units;
    [res] is [tech_info.resolution] and [max_num_tr] is an integer ([inl])
    or a list. *)
Definition __init__ (res : float) (lays : list Z) (spaces widths : list number)
    (bot_dir : direction) (max_num_tr : Z + list Z) : result RoutingGrid :=
  let num_layer := length lays in
  if negb (length spaces =? num_layer)%nat then Raise (ValueError LengthMismatch)
  else if negb (length widths =? num_layer)%nat then Raise (ValueError LengthMismatch)
  else
  max_num_tr ←
    match max_num_tr with
    | inl n => Ok (replicate num_layer n)
    | inr l => if negb (length l =? num_layer)%nat
               then Raise (ValueError LengthMismatch) else Ok l
    end;
  g ← init_loop empty_grid res lays spaces widths max_num_tr bot_dir;
  update_block_pitch g.

End Layout.

End Grid.

(** ** Interval sets ([bag.util.interval]) *)

Module IntervalSet.
Section WithValue.
Context {V : Type}.

(** Modelled from the spec: the class [IntervalSet] of
    [bag.util.interval] is not among the sources; the spec describes it
    as an ordered container of disjoint intervals, each with a value,
    with add-with-merge, subtract and iteration. *)
Definition t : Type := list (intv * V).

Definition empty : t := [].

(** [not intv_set] *)
Definition is_empty (s : t) : bool :=
  match s with [] => true | _ => false end.

(** [intv_set.items()] and [intv_set.intervals()] *)
Definition items (s : t) : list (intv * V) := s.
Definition intervals (s : t) : list intv := map fst s.

(** [big] covers [small]. *)
Definition covers (big small : intv) : Prop :=
  fst big <= fst small /\ snd small <= snd big.

(** Two half-open intervals share a point. *)
Definition overlaps (a b : intv) : bool :=
  (fst a <? snd b) && (fst b <? snd a).

Fixpoint insert_ordered (x : intv * V) (s : t) : t :=
  match s with
  | [] => [x]
  | y :: s' => if fst (fst x) <? fst (fst y) then x :: y :: s'
               else y :: insert_ordered x s'
  end.

(** Modelled from the spec: [IntervalSet.add(intv, val, merge=True)] is
    not among the sources; per the spec, adding an interval that
    overlaps stored ones merges them into a single interval, tagged with
    the inserted value. *)
Definition add (s : t) (i : intv) (val : V) : t :=
  let hit := List.filter (fun x => overlaps i (fst x)) s in
  let rest := List.filter (fun x => negb (overlaps i (fst x))) s in
  let start := fold_right Z.min (fst i) (map (fun x => fst (fst x)) hit) in
  let stop := fold_right Z.max (snd i) (map (fun x => snd (fst x)) hit) in
  insert_ordered ((start, stop), val) rest.

(** What is left of the stored interval [x] once [i] is taken away. *)
Definition fragments (i : intv) (x : intv * V) : list (intv * V) :=
  (if fst (fst x) <? fst i then [((fst (fst x), fst i), snd x)] else []) ++
  (if snd i <? snd (fst x) then [((snd i, snd (fst x)), snd x)] else []).

(** Modelled from the spec: [IntervalSet.subtract(intv)] is not among the
    sources; per the spec it removes the overlap with [intv] from the
    stored intervals, and the caller receives the fragments this
    creates. *)
Definition subtract (s : t) (i : intv) : t * list intv :=
  (flat_map (fun x => if overlaps i (fst x) then fragments i x else [x]) s,
   flat_map (fun x => if overlaps i (fst x) then map fst (fragments i x) else []) s).

(** Modelled from the spec: [IntervalSet.remove(intv)] is not among the
    sources; it drops the stored interval equal to [intv]. *)
Definition remove (s : t) (i : intv) : t :=
  List.filter (fun x => negb (bool_decide (fst x = i))) s.

(** Modelled from the spec: [IntervalSet.transform(scale, shift)] is not
    among the sources; per the spec the intervals are shifted, and their
    sign is negated (which swaps the two ends and the order) under a mirror
    or a rotation by 180 degrees. *)
Definition transform (s : t) (scale shift : Z) : t :=
  if scale <? 0 then
    rev (map (fun x => ((shift - snd (fst x), shift - fst (fst x)), snd x)) s)
  else
    map (fun x => ((fst (fst x) + shift, snd (fst x) + shift), snd x)) s.

End WithValue.
Arguments t : clear implicits.
End IntervalSet.

(** ** Track sets ([fill.py]) *)

Module TrackSet.
Section WithValue.
Context {V : Type}.

(** The stored value is the list [[width, value]]. *)
Record TrackSet : Type := mkTrackSet {
  _tracks : gmap Z (IntervalSet.t (Z * V));
  _min_len : Z
}.

Definition __init__ (min_length : Z) (init_tracks : option (gmap Z (IntervalSet.t (Z * V))))
    : TrackSet :=
  mkTrackSet (default ∅ init_tracks) min_length.

(** [item in track_set] *)
Definition contains (ts : TrackSet) (item : Z) : bool :=
  bool_decide (is_Some (_tracks ts !! item)).

(** [sorted(track_set.keys())] *)
Definition sorted_keys (ts : TrackSet) : list Z :=
  merge_sort Z.le (map fst (map_to_list (_tracks ts))).

Definition subtract (ts : TrackSet) (hidx : Z) (i : intv) : TrackSet :=
  match _tracks ts !! hidx with
  | Some intv_set =>
      let '(intv_set, new_intvs) := IntervalSet.subtract intv_set i in
      (* delete intervals smaller than minimum length. *)
      let intv_set :=
        fold_left (fun s j => if snd j - fst j <? _min_len ts
                              then IntervalSet.remove s j else s)
                  new_intvs intv_set in
      if IntervalSet.is_empty intv_set
      then mkTrackSet (delete hidx (_tracks ts)) (_min_len ts)
      else mkTrackSet (<[hidx := intv_set]> (_tracks ts)) (_min_len ts)
  | None => ts
  end.

Definition add_track (ts : TrackSet) (hidx : Z) (i : intv) (width : Z) (value : V)
    : TrackSet :=
  if snd i - fst i >=? _min_len ts then
    let intv_set := default IntervalSet.empty (_tracks ts !! hidx) in
    mkTrackSet (<[hidx := IntervalSet.add intv_set i (width, value)]> (_tracks ts))
               (_min_len ts)
  else ts.

(** [merge]: the body of the loop over [track_set.items()], then the
    loop.  Distinct keys do not interact, so the order of the dictionary
    does not show in the result. *)
Definition merge_one (hidx : Z) (new_intv_set : IntervalSet.t (Z * V))
    (tracks : gmap Z (IntervalSet.t (Z * V))) : gmap Z (IntervalSet.t (Z * V)) :=
  let intv_set := default IntervalSet.empty (tracks !! hidx) in
  <[hidx := fold_left (fun s x => IntervalSet.add s (fst x) (snd x))
                      (IntervalSet.items new_intv_set) intv_set]> tracks.

Definition merge (ts track_set : TrackSet) : TrackSet :=
  mkTrackSet (map_fold merge_one (_tracks ts) (_tracks track_set)) (_min_len ts).

(** Every interval stored in [ts] is at least [len] long. *)
Definition all_at_least (len : Z) (ts : TrackSet) : Prop :=
  forall hidx intv_set x,
    _tracks ts !! hidx = Some intv_set -> In x intv_set ->
    len <= snd (fst x) - fst (fst x).

(** Every stored interval is at least [_min_len] long. *)
Definition min_length_ok (ts : TrackSet) : Prop :=
  all_at_least (_min_len ts) ts.

(** No track of the set is left without an interval. *)
Definition no_empty_track (ts : TrackSet) : Prop :=
  forall hidx s, _tracks ts !! hidx = Some s -> s <> [].

(** A [TrackSet] made by the constructor (without [init_tracks]),
    [add_track] and [subtract]. *)
Inductive built (min_length : Z) : TrackSet -> Prop :=
| built_init : built min_length (__init__ min_length None)
| built_add ts hidx i width value :
    built min_length ts -> built min_length (add_track ts hidx i width value)
| built_subtract ts hidx i :
    built min_length ts -> built min_length (subtract ts hidx i).

(** [transform]; [orient] is the orientation string. *)
Definition transform (g : Grid.RoutingGrid) (ts : TrackSet) (layer_id dx dy : Z)
    (orient : string) : result TrackSet :=
  d ← Grid.get_direction g layer_id;
  let is_x := bool_decide (d = Grid.X) in
  '(hidx_shift, intv_shift) ←
    (if is_x then t ← Grid.coord_to_track g layer_id dy; Ok (twice t + 1, dx)
     else t ← Grid.coord_to_track g layer_id dx; Ok (twice t + 1, dy));
  let '(hidx_scale, intv_scale) :=
    if bool_decide (orient = "R180"%string) then (-1, -1)
    else if bool_decide (orient = "MX"%string) then
      if is_x then (-1, 1) else (1, -1)
    else if bool_decide (orient = "MY"%string) then
      if is_x then (1, -1) else (-1, 1)
    else (1, 1) in
  let new_tracks :=
    map_fold (fun hidx intv_set (new_tracks : gmap Z (IntervalSet.t (Z * V))) =>
                <[hidx * hidx_scale + hidx_shift :=
                    IntervalSet.transform intv_set intv_scale intv_shift]> new_tracks)
             ∅ (_tracks ts) in
  Ok (__init__ (_min_len ts) (Some new_tracks)).

End WithValue.
Arguments TrackSet : clear implicits.
End TrackSet.

(** ** Power fill ([fill.py], [get_power_fill_tracks]) *)

Module PowerFill.
Import Grid.

(** The fill types ['VDD'] and ['VSS']. *)
Definition VDD : string := "VDD"%string.
Definition VSS : string := "VSS"%string.

(** The value stored with a track: [False] for a fill track, the pair
    [(fill_margin, fill_type)] for a used track. *)
Definition track_value : Type := option (Z * string).

(** [fill_type == 'VDD' or fill_type == 'VSS'] *)
Definition is_supply (fill_type : string) : bool :=
  bool_decide (fill_type = VDD) || bool_decide (fill_type = VSS).

(** The state of the subtraction loops: the fill [TrackSet] and the
    dictionary [sup_type]. *)
Definition fill_state : Type := (TrackSet.TrackSet track_value * gmap Z string)%type.

(** [if sub_idx not in sup_type: sup_type[sub_idx] = fill_type] *)
Definition assign_if_free (sup_type : gmap Z string) (sub_idx : Z) (fill_type : string)
    : gmap Z string :=
  match sup_type !! sub_idx with
  | Some _ => sup_type
  | None => <[sub_idx := fill_type]> sup_type
  end.

(** The loop [for sub_idx in range(hidx0, hidx1 + 1)]. *)
Definition subtract_range (st : fill_state) (hidx0 hidx1 : Z) (sub_intv : intv)
    (fill_type : string) : fill_state :=
  fold_left
    (fun (st : fill_state) sub_idx =>
       let fill_track_set := TrackSet.subtract (fst st) sub_idx sub_intv in
       (fill_track_set,
        if is_supply fill_type then assign_if_free (snd st) sub_idx fill_type
        else snd st))
    (range hidx0 (hidx1 + 1) 1) st.

(** The loops that tag the nearest fill track below and above: the first
    index of [idxs] that is a fill track ends the loop, and is tagged when
    it has no tag yet. *)
Definition assign_adjacent (st : fill_state) (idxs : list Z) (fill_type : string)
    : fill_state :=
  match List.find (TrackSet.contains (fst st)) idxs with
  | Some sub_idx => (fst st, assign_if_free (snd st) sub_idx fill_type)
  | None => st
  end.

(** The body of the loop over the wires of the used tracks. *)
Definition subtract_wire (g : RoutingGrid) (layer_id sup_width fill_margin : Z)
    (max_fill_hidx : Z) (st : fill_state) (hidx : Z)
    (wire : intv * (Z * track_value)) : result fill_state :=
  let '((wstart, wstop), (wwidth, value)) := wire in
  match value with
  | None => Raise TypeError
  | Some (fmargin, fill_type) =>
      let fmargin := Z.max fill_margin fmargin in
      let sub_intv := (wstart - fmargin, wstop + fmargin) in
      '(cbeg, cend) ← get_wire_bounds g layer_id (Half (hidx - 1)) wwidth;
      ov ← get_overlap_tracks g layer_id (cbeg - fmargin) (cend + fmargin) true;
      match ov with
      | None => Raise TypeError
      | Some (idx0, idx1) =>
          let hidx0 := twice idx0 + 1 - 2 * (sup_width - 1) in
          let hidx1 := twice idx1 + 1 + 2 * (sup_width - 1) in
          (* substract fill *)
          let st := subtract_range st hidx0 hidx1 sub_intv fill_type in
          (* assign adjacent fill tracks to fill_type *)
          if is_supply fill_type then
            let st := assign_adjacent st (range (hidx0 - 1) (-1) (-1)) fill_type in
            Ok (assign_adjacent st (range (hidx1 + 1) (max_fill_hidx + 1) 1) fill_type)
          else Ok st
      end
  end.

Fixpoint subtract_wires (g : RoutingGrid) (layer_id sup_width fill_margin : Z)
    (max_fill_hidx : Z) (st : fill_state) (hidx : Z)
    (wires : list (intv * (Z * track_value))) : result fill_state :=
  match wires with
  | [] => Ok st
  | wire :: wires' =>
      st ← subtract_wire g layer_id sup_width fill_margin max_fill_hidx st hidx wire;
      subtract_wires g layer_id sup_width fill_margin max_fill_hidx st hidx wires'
  end.

(** The loop over [track_set.items()]; [track_items] lists the items in
    the order of the dictionary. *)
Fixpoint subtract_used (g : RoutingGrid) (layer_id sup_width fill_margin : Z)
    (max_fill_hidx : Z) (st : fill_state)
    (track_items : list (Z * IntervalSet.t (Z * track_value))) : result fill_state :=
  match track_items with
  | [] => Ok st
  | (hidx, intv_set) :: track_items' =>
      st ← subtract_wires g layer_id sup_width fill_margin max_fill_hidx st hidx
             (IntervalSet.items intv_set);
      subtract_used g layer_id sup_width fill_margin max_fill_hidx st track_items'
  end.

(** [((2 * k + 1) * remaining_tot + remaining_vdd) // (2 * remaining_vdd)] *)
Definition next_vdd_of (k remaining_tot remaining_vdd : Z) : result Z :=
  floordiv ((2 * k + 1) * remaining_tot + remaining_vdd) (2 * remaining_vdd).

(** The loop [for hidx in fill_hidx_list] that picks the supply type of
    every fill track; the result lists [(hidx, cur_type)] in the order of
    the loop. *)
Fixpoint assign_loop (sup_type : gmap Z string) (remaining_tot remaining_vdd : Z)
    (todo : list Z) (k next_vdd cur_idx : Z) : result (list (Z * string)) :=
  match todo with
  | [] => Ok []
  | hidx :: todo' =>
      match sup_type !! hidx with
      | None =>
          if cur_idx =? next_vdd then
            let k := k + 1 in
            next_vdd ← next_vdd_of k remaining_tot remaining_vdd;
            rest ← assign_loop sup_type remaining_tot remaining_vdd todo' k next_vdd
                     (cur_idx + 1);
            Ok ((hidx, VDD) :: rest)
          else
            rest ← assign_loop sup_type remaining_tot remaining_vdd todo' k next_vdd
                     (cur_idx + 1);
            Ok ((hidx, VSS) :: rest)
      | Some cur_type =>
          rest ← assign_loop sup_type remaining_tot remaining_vdd todo' k next_vdd cur_idx;
          Ok ((hidx, cur_type) :: rest)
      end
  end.

(** The number of tracks of [fill_hidx_list] that [sup_type] tags [ty]. *)
Definition count_tagged (sup_type : gmap Z string) (ty : string)
    (fill_hidx_list : list Z) : Z :=
  Z.of_nat (length (List.filter (fun hidx => bool_decide (sup_type !! hidx = Some ty))
                                fill_hidx_list)).

(** The allocation of [get_power_fill_tracks], from "count remaining fill
    tracks" on: the supply type of every remaining fill track. *)
Definition assign_supply (fill_hidx_list : list Z) (sup_type : gmap Z string)
    : result (list (Z * string)) :=
  let tot_cnt := Z.of_nat (length fill_hidx_list) in
  let vdd_cnt := count_tagged sup_type VDD fill_hidx_list in
  let vss_cnt := count_tagged sup_type VSS fill_hidx_list in
  (* assign tracks to VDD/VSS *)
  let num_vdd := tot_cnt / 2 in
  let num_vss := tot_cnt - num_vdd in
  let remaining_tot := tot_cnt - vdd_cnt - vss_cnt in
  let remaining_vss := Z.max (num_vss - vss_cnt) 0 in
  let remaining_vdd := remaining_tot - remaining_vss in
  (* uniformly distribute vdd tracks among remaining tracks *)
  next_vdd ← next_vdd_of 0 remaining_tot remaining_vdd;
  assign_loop sup_type remaining_tot remaining_vdd fill_hidx_list 0 next_vdd 0.

(** The number of tracks given the type [ty]. *)
Definition count_type (ty : string) (types : list (Z * string)) : Z :=
  Z.of_nat (length (List.filter (fun x => bool_decide (snd x = ty)) types)).

(** The wires appended to [vdd_warr_list] ([vdd = true]) or to
    [vss_warr_list]: one [(hidx, intv)] for every interval of a track of
    that list. *)
Definition emit (vdd : bool) (fill_track_set : TrackSet.TrackSet track_value)
    (types : list (Z * string)) : result (list (Z * intv)) :=
  foldr (fun x acc =>
           acc ← acc;
           if eqb (bool_decide (snd x = VDD)) vdd then
             intv_set ← getitem (TrackSet._tracks fill_track_set) (fst x);
             Ok (map (fun i => (fst x, i)) (IntervalSet.intervals intv_set) ++ acc)
           else Ok acc)
        (Ok []) types.

(** The first part of [get_power_fill_tracks], up to "count remaining fill
    tracks": the fill tracks left by the used tracks, and the supply tags
    that they inherit.  [blk_width] and [blk_height] are
    [bnd_box.width_unit] and [bnd_box.height_unit]; [track_items] is
    [track_set.items()]; [sp_min_unit] is the technology minimum space
    that [get_num_space_tracks] asks for and [min_length] is
    [grid.get_min_length(layer_id, sup_width, unit_mode=True)]. *)
Definition remaining_fill_tracks (g : RoutingGrid) (blk_width blk_height layer_id : Z)
    (track_items : list (Z * IntervalSet.t (Z * track_value)))
    (sup_width fill_margin edge_margin sup_spacing : Z)
    (sp_min_unit min_length : Z) : result fill_state :=
  (* get block size and lower/upper coordinates. *)
  let lower := edge_margin in
  dir ← get_direction g layer_id;
  let '(upper, cupper) :=
    if decide (dir = X) then (blk_width - edge_margin, blk_height)
    else (blk_height - edge_margin, blk_width) in
  (* find fill track indices in half tracks *)
  num_space ← get_num_space_tracks g layer_id sp_min_unit;
  num_space ←
    (if sup_spacing >=? 0 then
       if sup_spacing <? num_space then Raise (ValueError FillSpacingTooSmall)
       else Ok sup_spacing
     else Ok num_space);
  rng ← get_track_index_range g layer_id 0 cupper num_space edge_margin false;
  match rng with
  | None => Raise TypeError
  | Some (start_tidx, end_tidx) =>
      let first_hidx := twice start_tidx + 1 + sup_width - 1 in
      let last_hidx := twice end_tidx + 1 - (sup_width - 1) in
      let step := 2 * (sup_width + num_space) in
      if step =? 0 then Raise (ValueError RangeStepZero)
      else
      let fill_hidx_list := range first_hidx (last_hidx + 1) step in
      (* add all fill tracks *)
      let fill_track_set :=
        fold_left (fun ts hidx => TrackSet.add_track ts hidx (lower, upper) sup_width None)
                  fill_hidx_list (TrackSet.__init__ min_length None) in
      match last fill_hidx_list with
      | None => Raise IndexError
      | Some max_fill_hidx =>
          (* subtract used tracks from fill. *)
          subtract_used g layer_id sup_width fill_margin max_fill_hidx
            (fill_track_set, ∅) track_items
      end
  end.

(** [get_power_fill_tracks]: the pair [(vdd_warr_list, vss_warr_list)], a
    wire being [(hidx, intv)]. *)
Definition get_power_fill_tracks (g : RoutingGrid) (blk_width blk_height layer_id : Z)
    (track_items : list (Z * IntervalSet.t (Z * track_value)))
    (sup_width fill_margin edge_margin sup_spacing : Z)
    (sp_min_unit min_length : Z) : result (list (Z * intv) * list (Z * intv)) :=
  '(fill_track_set, sup_type) ←
    remaining_fill_tracks g blk_width blk_height layer_id track_items
      sup_width fill_margin edge_margin sup_spacing sp_min_unit min_length;
  (* count remaining fill tracks, assign tracks to VDD/VSS *)
  let fill_hidx_list := TrackSet.sorted_keys fill_track_set in
  types ← assign_supply fill_hidx_list sup_type;
  vdd_warr_list ← emit true fill_track_set types;
  vss_warr_list ← emit false fill_track_set types;
  Ok (vdd_warr_list, vss_warr_list).

(** Every tag of [sup_type] is ['VDD'] or ['VSS']. *)
Definition supply_tags (sup_type : gmap Z string) : Prop :=
  forall hidx ty, sup_type !! hidx = Some ty -> ty = VDD \/ ty = VSS.

(** The position of the [k]-th VDD track among the tracks without a tag. *)
Definition vdd_pos (R V k : Z) : Z := ((2 * k + 1) * R + V) / (2 * V).

(** The number of tracks of the list without a tag. *)
Definition untagged (sup_type : gmap Z string) (l : list Z) : Z :=
  Z.of_nat (length (List.filter (fun hidx => bool_decide (sup_type !! hidx = None)) l)).

(** The fill tracks that the wires of a list are on. *)
Definition emitted_tracks (warr_list : list (Z * intv)) : gset Z :=
  list_to_set (map fst warr_list).

(** *** Available tracks ([get_available_tracks]) *)

(** The body of the loop of [get_available_tracks] over the wires of the
    used tracks; [min_space] stands for
    [tech_info.get_min_space(layer_type, ., unit_mode=True)]. *)
Definition subtract_used_wire (g : RoutingGrid) (layer_id width margin : Z)
    (min_space : Z -> Z) (avail_track_set : TrackSet.TrackSet track_value) (hidx : Z)
    (wire : intv * (Z * track_value)) : result (TrackSet.TrackSet track_value) :=
  let '((wstart, wstop), (wwidth, value)) := wire in
  match value with
  | None => Raise TypeError
  | Some (fmargin, fill_type) =>
      '(cbeg, cend) ← get_wire_bounds g layer_id (Half (hidx - 1)) wwidth;
      let min_space := min_space (cend - cbeg) in
      let fmargin := Z.max (Z.max margin fmargin) min_space in
      let sub_intv := (wstart - fmargin, wstop + fmargin) in
      ov ← get_overlap_tracks g layer_id (cbeg - fmargin) (cend + fmargin) true;
      match ov with
      | None => Raise TypeError
      | Some (idx0, idx1) =>
          let hidx0 := twice idx0 + 1 - 2 * (width - 1) in
          let hidx1 := twice idx1 + 1 + 2 * (width - 1) in
          Ok (fold_left (fun ts sub_idx => TrackSet.subtract ts sub_idx sub_intv)
                        (range hidx0 (hidx1 + 1) 1) avail_track_set)
      end
  end.

Fixpoint subtract_used_wires (g : RoutingGrid) (layer_id width margin : Z)
    (min_space : Z -> Z) (avail_track_set : TrackSet.TrackSet track_value) (hidx : Z)
    (wires : list (intv * (Z * track_value))) : result (TrackSet.TrackSet track_value) :=
  match wires with
  | [] => Ok avail_track_set
  | wire :: wires' =>
      ts ← subtract_used_wire g layer_id width margin min_space avail_track_set hidx wire;
      subtract_used_wires g layer_id width margin min_space ts hidx wires'
  end.

Fixpoint subtract_used_tracks (g : RoutingGrid) (layer_id width margin : Z)
    (min_space : Z -> Z) (avail_track_set : TrackSet.TrackSet track_value)
    (track_items : list (Z * IntervalSet.t (Z * track_value)))
    : result (TrackSet.TrackSet track_value) :=
  match track_items with
  | [] => Ok avail_track_set
  | (hidx, intv_set) :: track_items' =>
      ts ← subtract_used_wires g layer_id width margin min_space avail_track_set hidx
             (IntervalSet.items intv_set);
      subtract_used_tracks g layer_id width margin min_space ts track_items'
  end.

(** [get_available_tracks]; [track_items] is [track_set.items()]. *)
Definition get_available_tracks (g : RoutingGrid) (layer_id : Z) (tr_idx_list : list Z)
    (lower upper width margin : Z)
    (track_items : list (Z * IntervalSet.t (Z * track_value)))
    (min_space : Z -> Z) : result (list Z) :=
  let avail_track_set :=
    fold_left (fun ts tidx => TrackSet.add_track ts (2 * tidx + 1) (lower, upper) width None)
              tr_idx_list (TrackSet.__init__ (upper - lower) None) in
  (* subtract used tracks. *)
  avail_track_set ←
    subtract_used_tracks g layer_id width margin min_space avail_track_set track_items;
  (* return available tracks *)
  hidx_arr ← Np.array (TrackSet.sorted_keys avail_track_set);
  Ok (map (fun hidx => Np.floordiv (Np.wrap64 (hidx - 1)) 2) hidx_arr).

End PowerFill.

(** * Properties *)

(** ** The prelude on Python values *)

Example floordiv_rounds_down : floordiv (-7) 2 = Ok (-4) /\ floordiv (-1) (-2) = Ok 0.
Proof. split; reflexivity. Qed.

Example divmod_sign_of_divisor : divmod (-100) 100 = Ok (-1, 0) /\ divmod 7 (-2) = Ok (-4, -1).
Proof. split; reflexivity. Qed.

Example range_steps :
  range 1 4 2 = [1; 3] /\ range 2 (-1) (-1) = [2; 1; 0] /\ range 5 4 1 = [].
Proof. repeat split; reflexivity. Qed.

Example gcd_lcm_values :
  Grid._gcd 12 18 = 6 /\ Grid._gcd 18 12 = 6 /\ Grid._lcm [4; 6] 10 = Ok 60.
Proof. repeat split; reflexivity. Qed.

Example float_values :
  Float64.of_int 1 = Ok (SpecFloat.S754_finite false 4503599627370496 (-52)) /\
  Float64.mul Float64.two Float64.one_half
    = SpecFloat.S754_finite false 4503599627370496 (-52) /\
  Float64.round_int (Float64.of_ratio 5 2) = Ok 2 /\
  Float64.round_int (Float64.of_ratio 7 2) = Ok 4 /\
  Float64.round_int (Float64.of_ratio (-5) 2) = Ok (-2) /\
  Float64.truediv Float64.two (SpecFloat.S754_zero false) = Raise ZeroDivisionError.
Proof. repeat split; vm_compute; reflexivity. Qed.

Example int64_values :
  Np.wrap64 Np.int64_max = Np.int64_max /\ Np.wrap64 (Np.int64_max + 1) = Np.int64_min /\
  Np.int64 (Np.int64_max + 1) = Raise OverflowError /\
  Np.round53 9007199254740993 = 9007199254740992 /\
  Np.round53 (-9007199254740995) = -9007199254740996.
Proof. repeat split; vm_compute; reflexivity. Qed.

(** ** NumPy integers within their range *)

Module NpFacts.

Lemma int64_Ok x :
  Np.int64_min <= x <= Np.int64_max -> Np.int64 x = Ok x.
Proof.
  intros H. unfold Np.int64.
  destruct (Np.int64_min <=? x) eqn:H1; [|apply Z.leb_gt in H1; lia].
  destruct (x <=? Np.int64_max) eqn:H2; [|apply Z.leb_gt in H2; lia].
  reflexivity.
Qed.

Lemma int64_inv x y :
  Np.int64 x = Ok y -> y = x /\ Np.int64_min <= x <= Np.int64_max.
Proof.
  unfold Np.int64.
  destruct (Np.int64_min <=? x) eqn:H1; [|discriminate].
  destruct (x <=? Np.int64_max) eqn:H2; [|discriminate].
  intros [= <-]. apply Z.leb_le in H1, H2. auto.
Qed.

Lemma wrap64_id x :
  Np.int64_min <= x <= Np.int64_max -> Np.wrap64 x = x.
Proof.
  unfold Np.int64_min, Np.int64_max, Np.wrap64. intros H.
  rewrite Z.mod_small; lia.
Qed.

Lemma floordiv_id a b :
  0 < b -> Np.int64_min <= a <= Np.int64_max -> Np.floordiv a b = a / b.
Proof.
  intros Hb Ha. unfold Np.floordiv.
  destruct (b =? 0) eqn:Hz; [apply Z.eqb_eq in Hz; lia|].
  apply wrap64_id. unfold Np.int64_min, Np.int64_max in *.
  assert (a / b <= a \/ a / b <= 0).
  { destruct (Z_lt_le_dec a 0); [right | left].
    - apply Z.lt_le_incl, Z.div_lt_upper_bound; lia.
    - apply Z.div_le_upper_bound; nia. }
  assert (a <= a / b \/ 0 <= a / b).
  { destruct (Z_lt_le_dec a 0); [left | right].
    - apply Z.div_le_lower_bound; nia.
    - apply Z.div_pos; lia. }
  lia.
Qed.

Lemma round53_id x :
  Z.abs x < 2 ^ 53 -> Np.round53 x = x.
Proof.
  intros H. unfold Np.round53.
  destruct (Z.log2 (Z.abs x) + 1 <=? 53) eqn:Hd; [reflexivity|].
  apply Z.leb_gt in Hd.
  destruct (Z.eq_dec (Z.abs x) 0) as [H0|H0].
  - rewrite H0 in Hd. cbn in Hd. lia.
  - assert (Z.log2 (Z.abs x) < 53); [|lia].
    apply Z.log2_lt_pow2; lia.
Qed.

Lemma array_Ok l :
  Forall (fun x => Np.int64_min <= x <= Np.int64_max) l -> Np.array l = Ok l.
Proof.
  induction 1 as [|x l Hx _ IH]; [reflexivity|].
  cbn. rewrite (int64_Ok x Hx). cbn. rewrite IH. reflexivity.
Qed.

Lemma array_inv l arr :
  Np.array l = Ok arr ->
  arr = l /\ Forall (fun x => Np.int64_min <= x <= Np.int64_max) l.
Proof.
  revert arr. induction l as [|x l IH]; intros arr H; cbn in H.
  - injection H as <-. auto.
  - destruct (Np.int64 x) as [y|] eqn:Hx; [|discriminate]. cbn in H.
    apply int64_inv in Hx as [-> Hx].
    destruct (Np.array l) as [arr'|]; [|discriminate]. cbn in H.
    injection H as <-. destruct (IH _ eq_refl) as [-> Hl]. auto.
Qed.

End NpFacts.

(** ** Floats that need no rounding *)

Module FloatFacts.
Import SpecFloat Float64.

(** *** Digits and shifts *)

Lemma digits_bounds p :
  2 ^ (Z.pos (digits2_pos p) - 1) <= Z.pos p < 2 ^ Z.pos (digits2_pos p).
Proof.
  induction p as [p IH|p IH|]; cbn [digits2_pos].
  - rewrite Pos2Z.inj_succ. change (Z.pos p~1) with (2 * Z.pos p + 1).
    replace (Z.succ (Z.pos (digits2_pos p)) - 1) with (Z.succ (Z.pos (digits2_pos p) - 1)) by lia.
    rewrite !Z.pow_succ_r by lia.
    generalize dependent (2 ^ (Z.pos (digits2_pos p) - 1)).
    generalize dependent (2 ^ Z.pos (digits2_pos p)). intros; lia.
  - rewrite Pos2Z.inj_succ. change (Z.pos p~0) with (2 * Z.pos p).
    replace (Z.succ (Z.pos (digits2_pos p)) - 1) with (Z.succ (Z.pos (digits2_pos p) - 1)) by lia.
    rewrite !Z.pow_succ_r by lia.
    generalize dependent (2 ^ (Z.pos (digits2_pos p) - 1)).
    generalize dependent (2 ^ Z.pos (digits2_pos p)). intros; lia.
  - cbn. lia.
Qed.

Lemma digits_unique p d :
  2 ^ (d - 1) <= Z.pos p < 2 ^ d -> Z.pos (digits2_pos p) = d.
Proof.
  intros [Hlo Hhi]. pose proof (digits_bounds p) as [Hlo' Hhi'].
  assert (0 < d).
  { destruct (Z_lt_le_dec 0 d); [assumption|].
    assert (2 ^ d <= 2 ^ 0) by (apply Z.pow_le_mono_r; lia). cbn in *. lia. }
  destruct (Z_lt_le_dec (Z.pos (digits2_pos p)) d) as [Hlt|Hge].
  - assert (2 ^ Z.pos (digits2_pos p) <= 2 ^ (d - 1)) by (apply Z.pow_le_mono_r; lia). lia.
  - destruct (Z_lt_le_dec d (Z.pos (digits2_pos p))) as [Hlt|Hle]; [|lia].
    assert (2 ^ d <= 2 ^ (Z.pos (digits2_pos p) - 1)) by (apply Z.pow_le_mono_r; lia). lia.
Qed.

Lemma digits_le p n : Z.pos p < 2 ^ n -> Z.pos (digits2_pos p) <= n.
Proof.
  intros H. pose proof (digits_bounds p) as [Hlo _].
  destruct (Z_lt_le_dec n (Z.pos (digits2_pos p))) as [Hlt|]; [|assumption].
  assert (0 <= n).
  { destruct (Z_lt_le_dec n 0); [|assumption]. rewrite Z.pow_neg_r in H; lia. }
  assert (2 ^ n <= 2 ^ (Z.pos (digits2_pos p) - 1)) by (apply Z.pow_le_mono_r; lia). lia.
Qed.

Lemma shl_pos v n : 0 <= n -> Z.pos (shl v n) = Z.pos v * 2 ^ n.
Proof.
  intros Hn. unfold shl. apply Z2Pos.id.
  pose proof (Z.pow_pos_nonneg 2 n). lia.
Qed.

Lemma shl_0 v : shl v 0 = v.
Proof. unfold shl. rewrite Z.pow_0_r, Z.mul_1_r. reflexivity. Qed.

Lemma shl_shl v n m : 0 <= n -> 0 <= m -> shl (shl v n) m = shl v (n + m).
Proof.
  intros Hn Hm. apply Pos2Z.inj. rewrite !shl_pos by lia.
  rewrite Z.pow_add_r by lia. ring.
Qed.

Lemma digits_shl v n :
  0 <= n -> Z.pos (digits2_pos (shl v n)) = Z.pos (digits2_pos v) + n.
Proof.
  intros Hn. apply digits_unique. rewrite shl_pos by lia.
  pose proof (digits_bounds v) as [Hlo Hhi].
  replace (Z.pos (digits2_pos v) + n - 1) with (Z.pos (digits2_pos v) - 1 + n) by lia.
  rewrite !Z.pow_add_r by lia.
  pose proof (Z.pow_pos_nonneg 2 n). nia.
Qed.

Lemma iter_xO v p : Pos.iter xO v p = shl v (Z.pos p).
Proof.
  induction p as [|p IH] using Pos.peano_ind.
  - apply Pos2Z.inj. rewrite shl_pos by lia. cbn [Pos.iter].
    change (2 ^ 1) with 2. lia.
  - rewrite Pos.iter_succ, IH. apply Pos2Z.inj.
    change (Z.pos (shl v (Z.pos p))~0) with (2 * Z.pos (shl v (Z.pos p))).
    rewrite !shl_pos, Pos2Z.inj_succ, Z.pow_succ_r by lia. ring.
Qed.

Lemma shl_align_spec v e e' :
  e' <= e -> shl_align v e e' = (shl v (e - e'), e').
Proof.
  intros He. unfold shl_align. destruct (e' - e) as [|p|p] eqn:Hd.
  - replace (e - e') with 0 by lia. rewrite shl_0. f_equal. lia.
  - lia.
  - rewrite iter_xO. do 2 f_equal. lia.
Qed.

(** *** Shifting to the right without a loss *)

Lemma iter_pos_nat {A} (f : A -> A) n : forall x,
  iter_pos f n x = Nat.iter (Pos.to_nat n) f x.
Proof.
  induction n as [n IH|n IH|]; intros x; cbn [iter_pos].
  - rewrite !IH, Pos2Nat.inj_xI, Nat.iter_succ_r.
    replace (2 * Pos.to_nat n)%nat with (Pos.to_nat n + Pos.to_nat n)%nat by lia.
    rewrite Nat.iter_add. reflexivity.
  - rewrite !IH, Pos2Nat.inj_xO.
    replace (2 * Pos.to_nat n)%nat with (Pos.to_nat n + Pos.to_nat n)%nat by lia.
    rewrite Nat.iter_add. reflexivity.
  - reflexivity.
Qed.

Lemma shr_1_even m :
  0 < m -> shr_1 (Build_shr_record (2 * m) false false) = Build_shr_record m false false.
Proof. intros H. destruct m; try lia. reflexivity. Qed.

Lemma shr_exact (n : nat) : forall v k,
  Z.of_nat n <= k ->
  Nat.iter n shr_1 (Build_shr_record (Z.pos (shl v k)) false false)
  = Build_shr_record (Z.pos (shl v (k - Z.of_nat n))) false false.
Proof.
  induction n as [|n IH]; intros v k Hk.
  - replace (k - Z.of_nat 0) with k by lia. reflexivity.
  - rewrite Nat.iter_succ, IH by lia.
    rewrite <- (shr_1_even (Z.pos (shl v (k - Z.of_nat (S n))))) by lia.
    do 2 f_equal. rewrite !shl_pos by lia.
    replace (k - Z.of_nat n) with (Z.succ (k - Z.of_nat (S n))) by lia.
    rewrite Z.pow_succ_r by lia. ring.
Qed.

(** *** Rounding a number that needs no rounding *)

Lemma fexp_normal x : -1021 <= x -> fexp prec emax x = x - 53.
Proof. intros H. unfold fexp, emin, prec, emax. lia. Qed.

Lemma round_aux_53 s m e lx :
  Z.pos (digits2_pos m) = 53 -> -1074 <= e <= 971 ->
  lx = (Build_shr_record (Z.pos m) false false, e) ->
  (let '(mrs', e') := lx in
   let '(mrs'', e'') :=
     shr_fexp prec emax (round_nearest_even (shr_m mrs') (loc_of_shr_record mrs')) e' loc_Exact in
   match shr_m mrs'' with
   | Z0 => S754_zero s
   | Zpos m => if Z.leb e'' (Z.sub emax prec) then S754_finite s m e'' else S754_infinity s
   | _ => S754_nan
   end) = S754_finite s m e.
Proof.
  intros Hd He ->. cbn [shr_m loc_of_shr_record round_nearest_even].
  unfold shr_fexp. cbn [Zdigits2]. rewrite Hd, fexp_normal by lia.
  replace (53 + e - 53 - e) with 0 by lia. cbn [shr shr_record_of_loc shr_m].
  unfold emax, prec. destruct (e <=? 1024 - 53) eqn:Hle; [reflexivity|].
  apply Z.leb_gt in Hle. lia.
Qed.

(** A mantissa with trailing zeros, of at least 53 bits. *)
Lemma round_aux_exact s v k e :
  let d := Z.pos (digits2_pos v) in
  d <= 53 -> 53 <= d + k -> -1074 <= e -> e + k <= 971 ->
  binary_round_aux prec emax s (Z.pos (shl v k)) e loc_Exact = canon s v (e + k).
Proof.
  intros d Hd Hk He Hek. unfold binary_round_aux.
  assert (Hk0 : 0 <= k) by lia.
  pose proof (digits_shl v k Hk0) as HdP. fold d in HdP.
  unfold canon. fold d. apply round_aux_53.
  - rewrite digits_shl by lia. fold d. lia.
  - lia.
  - unfold shr_fexp. cbn [Zdigits2]. rewrite HdP, fexp_normal by lia.
    cbn [shr_record_of_loc]. unfold shr.
    destruct (d + k + e - 53 - e) as [|n|n] eqn:Hn.
    + f_equal; [|lia]. do 3 f_equal. lia.
    + rewrite iter_pos_nat, shr_exact by lia. f_equal; [|lia].
      do 3 f_equal. lia.
    + lia.
Qed.

(** A mantissa of at most 53 bits. *)
Lemma binary_round_small s v e :
  Z.pos (digits2_pos v) <= 53 -> -1000 <= e <= 900 ->
  binary_round prec emax s v e = canon s v e.
Proof.
  intros Hd He. unfold binary_round. rewrite fexp_normal by lia.
  rewrite shl_align_spec by lia.
  replace (e - (Z.pos (digits2_pos v) + e - 53)) with (53 - Z.pos (digits2_pos v)) by lia.
  set (d := Z.pos (digits2_pos v)) in *.
  rewrite round_aux_exact by (fold d; lia). fold d.
  unfold canon. fold d. f_equal. lia.
Qed.

Lemma canon_shl s v k e :
  0 <= k -> Z.pos (digits2_pos v) + k <= 53 ->
  canon s (shl v k) e = canon s v (e + k).
Proof.
  intros Hk Hd. unfold canon. rewrite digits_shl by lia.
  rewrite shl_shl by lia. f_equal; [f_equal|]; lia.
Qed.

(** A mantissa [v * 2 ^ k] with [v] of at most 53 bits. *)
Lemma binary_round_shl s v k e :
  Z.pos (digits2_pos v) <= 53 -> 0 <= k -> -1000 <= e -> e + k <= 900 ->
  binary_round prec emax s (shl v k) e = canon s v (e + k).
Proof.
  intros Hd Hk He Hek.
  destruct (Z_le_gt_dec (Z.pos (digits2_pos v) + k) 53) as [Hle|Hgt].
  - rewrite binary_round_small by (rewrite ?digits_shl; lia).
    now apply canon_shl.
  - unfold binary_round. rewrite digits_shl, fexp_normal by lia.
    unfold shl_align.
    destruct (Z.pos (digits2_pos v) + k + e - 53 - e) as [|n|n] eqn:Hn; try lia.
    apply round_aux_exact; lia.
Qed.

(** *** Numbers of at most 53 bits *)

Lemma normalize_finite m e :
  m <> 0 -> Z.abs m < 2 ^ 53 -> -1000 <= e <= 900 ->
  binary_normalize prec emax m e false = canon (m <? 0) (Z.to_pos (Z.abs m)) e.
Proof.
  intros Hm Hb He. destruct m as [|p|p]; [congruence| |]; cbn [binary_normalize];
    apply binary_round_small; try assumption; apply digits_le; exact Hb.
Qed.

Lemma normalize_shift m k e :
  Z.abs m < 2 ^ 53 -> 0 <= k -> -1000 <= e -> e + k <= 900 ->
  binary_normalize prec emax (m * 2 ^ k) e false = binary_normalize prec emax m (e + k) false.
Proof.
  intros Hb Hk He Hek. destruct m as [|p|p].
  - reflexivity.
  - rewrite <- shl_pos by assumption. cbn [binary_normalize].
    rewrite binary_round_shl, binary_round_small; try reflexivity; try lia;
      apply digits_le; exact Hb.
  - replace (Z.neg p * 2 ^ k) with (Z.neg (shl p k))
      by (rewrite <- Pos2Z.opp_pos, shl_pos by assumption; lia).
    cbn [binary_normalize].
    rewrite binary_round_shl, binary_round_small; try reflexivity; try lia;
      apply digits_le; exact Hb.
Qed.

Lemma halves_finite x :
  x <> 0 -> Z.abs x < 2 ^ 53 ->
  halves x = S754_finite (x <? 0)
               (shl (Z.to_pos (Z.abs x)) (53 - Z.pos (digits2_pos (Z.to_pos (Z.abs x)))))
               (Z.pos (digits2_pos (Z.to_pos (Z.abs x))) - 54).
Proof.
  intros Hx Hb. unfold halves. rewrite normalize_finite by (assumption || lia).
  unfold canon. f_equal. lia.
Qed.

Lemma of_int_halves z :
  Z.abs (2 * z) < 2 ^ 53 -> of_int z = Ok (halves (2 * z)).
Proof.
  intros Hb. unfold of_int, halves.
  replace (2 * z) with (z * 2 ^ 1) by (change (2 ^ 1) with 2; lia).
  rewrite normalize_shift by lia. cbn [Z.add].
  replace (-1 + 1) with 0 by lia.
  destruct (Z.eq_dec z 0) as [->|Hz]; [reflexivity|].
  rewrite normalize_finite by lia. reflexivity.
Qed.

Lemma one_half_halves : one_half = halves 1.
Proof. reflexivity. Qed.

(** The sum of two floats of the kind. *)
Lemma add_halves a b :
  Z.abs a < 2 ^ 53 -> Z.abs b < 2 ^ 53 -> Z.abs (a + b) < 2 ^ 53 ->
  add (halves a) (halves b) = halves (a + b).
Proof.
  intros Ha Hb Hab.
  destruct (Z.eq_dec a 0) as [->|Ha0].
  { destruct (Z.eq_dec b 0) as [->|Hb0]; [reflexivity|].
    rewrite Z.add_0_l, (halves_finite b) by assumption. reflexivity. }
  destruct (Z.eq_dec b 0) as [->|Hb0].
  { rewrite Z.add_0_r, (halves_finite a) by assumption. reflexivity. }
  rewrite (halves_finite a), (halves_finite b) by assumption.
  set (pa := Z.to_pos (Z.abs a)). set (pb := Z.to_pos (Z.abs b)).
  set (da := Z.pos (digits2_pos pa)). set (db := Z.pos (digits2_pos pb)).
  assert (Hda : da <= 53) by (apply digits_le; unfold pa; rewrite Z2Pos.id; lia).
  assert (Hdb : db <= 53) by (apply digits_le; unfold pb; rewrite Z2Pos.id; lia).
  assert (Hda0 : 0 < da) by (unfold da; lia).
  assert (Hdb0 : 0 < db) by (unfold db; lia).
  unfold add. cbn [SFadd].
  set (ez := Z.min (da - 54) (db - 54)).
  rewrite !shl_align_spec by lia. cbn [fst].
  rewrite !shl_shl by lia.
  replace (53 - da + (da - 54 - ez)) with (-1 - ez) by lia.
  replace (53 - db + (db - 54 - ez)) with (-1 - ez) by lia.
  assert (Hsum : cond_Zopp (a <? 0) (Z.pos (shl pa (-1 - ez)))
                 + cond_Zopp (b <? 0) (Z.pos (shl pb (-1 - ez)))
                 = (a + b) * 2 ^ (-1 - ez)).
  { rewrite !shl_pos by lia. unfold pa, pb. rewrite !Z2Pos.id by lia.
    unfold cond_Zopp.
    destruct (a <? 0) eqn:Hsa; [apply Z.ltb_lt in Hsa | apply Z.ltb_ge in Hsa];
      (destruct (b <? 0) eqn:Hsb; [apply Z.ltb_lt in Hsb | apply Z.ltb_ge in Hsb]);
      nia. }
  rewrite Hsum, normalize_shift by lia.
  unfold halves. f_equal. lia.
Qed.

(** The product of an integer by a float of the kind. *)
Lemma mul_halves p b :
  p <> 0 -> b <> 0 ->
  Z.abs (2 * p) < 2 ^ 53 -> Z.abs b < 2 ^ 53 -> Z.abs (p * b) < 2 ^ 53 ->
  mul (halves (2 * p)) (halves b) = halves (p * b).
Proof.
  intros Hp0 Hb0 Hp Hb Hpb.
  rewrite (halves_finite (2 * p)), (halves_finite b), (halves_finite (p * b))
    by (assumption || nia).
  set (pa := Z.to_pos (Z.abs (2 * p))). set (pb := Z.to_pos (Z.abs b)).
  set (pc := Z.to_pos (Z.abs (p * b))).
  set (da := Z.pos (digits2_pos pa)). set (db := Z.pos (digits2_pos pb)).
  set (dc := Z.pos (digits2_pos pc)).
  assert (Hda : da <= 53) by (apply digits_le; unfold pa; rewrite Z2Pos.id; lia).
  assert (Hdb : db <= 53) by (apply digits_le; unfold pb; rewrite Z2Pos.id; lia).
  assert (Hdc : dc <= 53) by (apply digits_le; unfold pc; rewrite Z2Pos.id; nia).
  assert (Hda0 : 0 < da) by (unfold da; lia).
  assert (Hdb0 : 0 < db) by (unfold db; lia).
  assert (Hdc0 : 0 < dc) by (unfold dc; lia).
  unfold mul. cbn [SFmul].
  assert (Hprod : (shl pa (53 - da) * shl pb (53 - db))%positive = shl pc (107 - da - db)).
  { apply Pos2Z.inj. rewrite Pos2Z.inj_mul, !shl_pos by lia.
    unfold pa, pb, pc. rewrite !Z2Pos.id by nia.
    replace (107 - da - db) with (1 + (53 - da) + (53 - db)) by lia.
    rewrite !Z.pow_add_r by lia. change (2 ^ 1) with 2.
    rewrite !Z.abs_mul. change (Z.abs 2) with 2. ring. }
  rewrite Hprod.
  assert (Hwide : 53 <= dc + (107 - da - db)).
  { assert (Hdp : Z.pos (digits2_pos (shl pc (107 - da - db))) = dc + (107 - da - db))
      by (apply digits_shl; lia).
    rewrite <- Hdp, <- Hprod.
    pose proof (digits_bounds (shl pa (53 - da) * shl pb (53 - db))) as [_ Hhi].
    rewrite Pos2Z.inj_mul in Hhi.
    pose proof (digits_bounds (shl pa (53 - da))) as [Hlo1 _].
    pose proof (digits_bounds (shl pb (53 - db))) as [Hlo2 _].
    rewrite digits_shl in Hlo1, Hlo2 by lia. fold da in Hlo1. fold db in Hlo2.
    replace (da + (53 - da) - 1) with 52 in Hlo1 by lia.
    replace (db + (53 - db) - 1) with 52 in Hlo2 by lia.
    set (D := Z.pos (digits2_pos (shl pa (53 - da) * shl pb (53 - db)))) in *.
    destruct (Z_lt_le_dec D 53) as [Hlt|]; [|assumption].
    assert (2 ^ D <= 2 ^ 53) by (apply Z.pow_le_mono_r; lia).
    change (2 ^ 52) with 4503599627370496 in *.
    change (2 ^ 53) with 9007199254740992 in *. nia. }
  rewrite round_aux_exact by (fold dc; lia).
  unfold canon. fold dc.
  f_equal; [|lia].
  destruct (2 * p <? 0) eqn:H1; [apply Z.ltb_lt in H1 | apply Z.ltb_ge in H1];
    (destruct (b <? 0) eqn:H2; [apply Z.ltb_lt in H2 | apply Z.ltb_ge in H2]);
    (destruct (p * b <? 0) eqn:H3; [apply Z.ltb_lt in H3 | apply Z.ltb_ge in H3]);
    try reflexivity; nia.
Qed.

End FloatFacts.

(** ** Symmetric interval packing *)

Module FillFacts.
Import Fill.

Lemma bind_Ok {A B} (r : result A) (f : A -> result B) (b : B) :
  r ≫= f = Ok b -> exists a, r = Ok a /\ f a = Ok b.
Proof. destruct r as [a|e]; [eauto | discriminate]. Qed.

Lemma bind_Raise {A B} (r : result A) (f : A -> result B) (e : exn) :
  r ≫= f = Raise e -> r = Raise e \/ exists a, r = Ok a /\ f a = Raise e.
Proof. destruct r as [a|e']; cbn; [eauto | intros [= ->]; auto]. Qed.

Lemma divmod_Raise a b e : divmod a b = Raise e -> e = ZeroDivisionError.
Proof. unfold divmod. case_match; congruence. Qed.

Lemma floordiv_Raise a b e : floordiv a b = Raise e -> e = ZeroDivisionError.
Proof. unfold floordiv. case_match; congruence. Qed.

Lemma floordiv_Ok a b : b <> 0 -> floordiv a b = Ok (a / b).
Proof. intros H. unfold floordiv. apply Z.eqb_neq in H. now rewrite H. Qed.

Lemma divmod_Ok a b : b <> 0 -> divmod a b = Ok (a / b, a mod b).
Proof. intros H. unfold divmod. apply Z.eqb_neq in H. now rewrite H. Qed.

(** Case analysis of a hypothesis [H : code = Raise e] down to the raise
    statements of the code. *)
Ltac raise_cases H :=
  repeat first
    [ discriminate H
    | injection H as <-; tauto
    | apply divmod_Raise in H; tauto
    | apply floordiv_Raise in H; tauto
    | apply bind_Raise in H as [H | (? & _ & H)]; cbv beta in H
    | match type of H with context [if ?b then _ else _] => destruct b eqn:? end
    | match type of H with context [match ?p with (_, _) => _ end] => destruct p end
    | match type of H with context [match ?l with [] => _ | _ :: _ => _ end] =>
        destruct l
      end ].

Lemma fill_symmetric_info_Raise tot_area num_blk_tot sp inc_sp fill_on_edge cyclic e :
  _fill_symmetric_info tot_area num_blk_tot sp inc_sp fill_on_edge cyclic = Raise e ->
  helper_error e.
Proof.
  unfold _fill_symmetric_info, helper_error. intros H. raise_cases H.
Qed.

Lemma fill_symmetric_helper_Raise tot_area num_blk_tot sp offset
    inc_sp invert fill_on_edge cyclic e :
  _fill_symmetric_helper tot_area num_blk_tot sp offset inc_sp invert fill_on_edge cyclic
    = Raise e ->
  helper_error e.
Proof.
  unfold _fill_symmetric_helper. intros H.
  apply bind_Raise in H as [H | [fi [_ H]]].
  - eapply fill_symmetric_info_Raise, H.
  - unfold helper_error. raise_cases H.
Qed.

(** The same analysis for a hypothesis whose error is a known one that the
    code does not raise on the paths at hand. *)
Ltac no_raise H :=
  repeat first
    [ discriminate H
    | apply divmod_Raise in H; discriminate H
    | apply floordiv_Raise in H; discriminate H
    | apply fill_symmetric_helper_Raise in H; unfold helper_error in H;
      intuition discriminate
    | apply bind_Raise in H as [H | (? & _ & H)]; cbv beta in H
    | match type of H with context [if ?b then _ else _] => destruct b eqn:? end
    | match type of H with context [match ?p with (_, _) => _ end] => destruct p end ].

Lemma search_blk_len_Raise rest area sp_min cyclic blk_len_max e :
  search_blk_len rest area sp_min cyclic blk_len_max = Raise e -> e = ZeroDivisionError.
Proof.
  revert blk_len_max. induction rest as [|rest IH]; intros blk_len_max H; cbn in H.
  - apply bind_Raise in H as [H | (q & _ & H)].
    + destruct cyclic; now apply floordiv_Raise in H.
    + cbv beta in H. now destruct (_ && _).
  - apply bind_Raise in H as [H | (q & _ & H)].
    + destruct cyclic; now apply floordiv_Raise in H.
    + cbv beta in H. destruct (_ && _); [discriminate | eauto].
Qed.

(** When no block length of the range admits a block, the search loop ends
    without a block. *)
Lemma search_blk_len_none rest area sp_min cyclic blk_len_max :
  (forall blk_len, blk_len_max - Z.of_nat rest <= blk_len <= blk_len_max ->
     blk_len + sp_min <> 0 /\ num_blk_feasible area sp_min blk_len cyclic <= 0) ->
  exists blk_len num_blk_min num_sp_min,
    search_blk_len rest area sp_min cyclic blk_len_max
      = Ok (blk_len, num_blk_min, num_sp_min) /\ num_blk_min <= 0.
Proof.
  revert blk_len_max. induction rest as [|rest IH]; intros blk_len_max Hall.
  - destruct (Hall blk_len_max ltac:(lia)) as [Hnz Hle].
    unfold num_blk_feasible in Hle. cbn.
    destruct cyclic; rewrite floordiv_Ok by done; cbn;
      (replace (_ >? 0) with false by lia); cbn; eauto.
  - destruct (Hall blk_len_max ltac:(lia)) as [Hnz Hle].
    unfold num_blk_feasible in Hle.
    destruct (IH (blk_len_max - 1)) as (b & nb & ns & Hs & Hnb).
    { intros L HL. apply Hall. lia. }
    cbn [search_blk_len].
    destruct cyclic; rewrite floordiv_Ok by done; cbn -[search_blk_len];
      (replace (_ >? 0) with false by lia); cbn -[search_blk_len]; eauto.
Qed.

Lemma reflect_intv_involutive shift i : reflect_intv shift (reflect_intv shift i) = i.
Proof. destruct i as [a b]. unfold reflect_intv. cbn. f_equal; lia. Qed.

(** It is enough that the mirror image of every interval is in the list. *)
Lemma reflection_invariant_intro shift l :
  Forall (fun i => In (reflect_intv shift i) l) l -> reflection_invariant shift l.
Proof.
  rewrite Forall_forall. intros H i. split; intros Hi.
  - apply H. now apply list_elem_of_In.
  - apply list_elem_of_In, H in Hi. now rewrite reflect_intv_involutive in Hi.
Qed.

End FillFacts.
Import FillFacts.

(** C7 (as the code has it).  [fill_symmetric_const_space] raises its usage
    error exactly when [n_min > n_max]; [fill_symmetric_max] raises its usage
    error exactly when [n_min >= n_max], equal bounds included.  Within the
    accepted bounds, each of them returns the empty list when no fill block is
    feasible: for [fill_symmetric_const_space] when the number of blocks it
    computes is zero, for [fill_symmetric_max] (positive block lengths, a
    non-negative space) when no block length of the range admits a block. *)
Theorem fill_symmetric_usage_errors (area sp n_min n_max offset : Z) (cyclic : bool) :
  (Fill.fill_symmetric_const_space area sp n_min n_max offset
     = Raise (ValueError MinFillGtMax) <-> n_min > n_max) /\
  (Fill.fill_symmetric_max area n_min n_max sp offset cyclic
     = Raise (ValueError MinFillGeMax) <-> n_min >= n_max) /\
  (n_min <= n_max -> n_max + sp <> 0 -> Fill.num_fill_needed area sp n_max = 0 ->
   Fill.fill_symmetric_const_space area sp n_min n_max offset = Ok []) /\
  (n_min < n_max -> 0 < n_min -> 0 <= sp ->
   (forall blk_len, n_min <= blk_len <= n_max ->
      Fill.num_blk_feasible area sp blk_len cyclic <= 0) ->
   Fill.fill_symmetric_max area n_min n_max sp offset cyclic = Ok []).
Proof.
  repeat split.
  - intros H. unfold Fill.fill_symmetric_const_space in H.
    destruct (n_min >? n_max) eqn:Hgt; [lia|]. exfalso. no_raise H.
  - intros H. unfold Fill.fill_symmetric_const_space.
    now replace (n_min >? n_max) with true by lia.
  - intros H. unfold Fill.fill_symmetric_max in H.
    destruct (n_min >=? n_max) eqn:Hge; [lia|]. exfalso.
    destruct (_ && _ && _); [discriminate|].
    apply bind_Raise in H as [H | ([[b nb] ns] & _ & H)].
    + apply search_blk_len_Raise in H. discriminate.
    + no_raise H.
  - intros H. unfold Fill.fill_symmetric_max.
    now replace (n_min >=? n_max) with true by lia.
  - intros Hle Hnz Hnum. unfold Fill.fill_symmetric_const_space.
    replace (n_min >? n_max) with false by lia.
    rewrite floordiv_Ok by done. cbn.
    unfold Fill.num_fill_needed in Hnum. rewrite Hnum. reflexivity.
  - intros Hlt Hpos Hsp Hall. unfold Fill.fill_symmetric_max.
    replace (n_min >=? n_max) with false by lia.
    assert (Hspecial : (n_min <=? area) && (area <=? n_max) && negb cyclic = false).
    { destruct cyclic; [now rewrite andb_false_r|]. rewrite andb_true_r.
      specialize (Hall n_min ltac:(lia)). unfold Fill.num_blk_feasible in Hall.
      destruct (Z_lt_le_dec area n_min) as [?|Hge];
        [replace (n_min <=? area) with false by lia; reflexivity|].
      exfalso. assert (1 <= (area + sp) / (n_min + sp)); [|lia].
      apply Z.div_le_lower_bound; lia. }
    rewrite Hspecial.
    destruct (search_blk_len_none (Z.to_nat (n_max - n_min)) area sp cyclic n_max)
      as (b & nb & ns & Hs & Hnb).
    { intros L HL. split; [lia | apply Hall; lia]. }
    rewrite Hs. cbn. now replace (nb <=? 0) with true by lia.
Qed.

Lemma fill_symmetric_usage_errors_witness :
  Fill.fill_symmetric_const_space 2 3 2 4 0 = Ok [] /\
  Fill.fill_symmetric_max 1 2 4 2 0 false = Ok [].
Proof.
  destruct (fill_symmetric_usage_errors 2 3 2 4 0 false) as (_ & _ & Hc & _).
  destruct (fill_symmetric_usage_errors 1 2 2 4 0 false) as (_ & _ & _ & Hm).
  split.
  - apply Hc; [lia | lia | reflexivity].
  - apply Hm; [lia | lia | lia |].
    intros blk_len H. unfold Fill.num_blk_feasible.
    apply Z.lt_succ_r, Z.div_lt_upper_bound; lia.
Defined.

(** C7, the claim as stated fails: with equal bounds, which do not satisfy
    [n_min > n_max], and a span too short for any block,
    [fill_symmetric_max] raises its usage error instead of returning the
    empty list. *)
Lemma fill_symmetric_max_equal_bounds_raises :
  ~ (3 > 3) /\
  Fill.fill_symmetric_max 1 3 3 1 0 false = Raise (ValueError MinFillGeMax) /\
  Fill.fill_symmetric_max 1 3 3 1 0 false <> Ok [].
Proof. split; [lia | split; [reflexivity | discriminate]]. Qed.

(** C8 (as the code has it).  The parity check of the packing helper is on
    the cyclic mode with a _space_ on the edge ([fill_on_edge] false): there,
    an odd space never yields an interval list.  The call fails with
    'Cannot fill cyclic area with odd space on edge.' once it is past the two
    earlier checks, and with the error of the first of these that it does not
    pass otherwise. *)
Theorem cyclic_odd_space_on_edge_raises
    (tot_area num_blk_tot sp offset : Z) (inc_sp invert : bool) :
  sp mod 2 = 1 ->
  Fill._fill_symmetric_helper tot_area num_blk_tot sp offset inc_sp invert false true =
    Raise (ValueError
             (if num_blk_tot =? 0 then ZeroSpaceBlocks
              else if (tot_area - num_blk_tot * sp) / num_blk_tot <=? 0
                   then BlockNotPositive
                   else CyclicOddSpace)).
Proof.
  intros Hodd.
  assert (Hsp : (sp =? 0) = false) by (apply Z.eqb_neq; intros ->; discriminate).
  unfold Fill._fill_symmetric_helper, Fill._fill_symmetric_info.
  rewrite Hsp. cbn [negb andb].
  destruct (num_blk_tot =? 0) eqn:Hz; [reflexivity|]. cbn [andb].
  unfold divmod. rewrite Hz. cbn [mbind result_bind Py.bind].
  destruct (_ <=? 0); [reflexivity|].
  apply Z.eqb_eq in Hodd. rewrite Hodd.
  repeat (case_match; cbn [andb negb]); reflexivity.
Qed.

Lemma cyclic_odd_space_on_edge_raises_witness :
  Fill._fill_symmetric_helper 12 2 1 0 true false false true =
    Raise (ValueError CyclicOddSpace).
Proof. apply (cyclic_odd_space_on_edge_raises 12 2 1 0 true false). reflexivity. Defined.

(** C8, the claim as stated fails: a cyclic request with an odd space and
    with _fill_ on the edge is served, the helper returns an interval list. *)
Lemma cyclic_odd_space_fill_on_edge_returns :
  1 mod 2 = 1 /\
  Fill._fill_symmetric_helper 10 2 1 0 true false true true =
    Ok ([(-2, 2); (3, 7); (8, 12)], true).
Proof. split; reflexivity. Qed.

(** C4 (as the code has it).  [fill_symmetric_max(area=20, n_min=2, n_max=4,
    sp_min=2)] returns four fill blocks, of lengths 4, 3, 3 and 4, separated
    by spaces of length 2; the first block starts at 0, the last one ends at
    20, and the result is its own mirror image about x = 10. *)
Theorem fill_symmetric_max_example :
  Fill.fill_symmetric_max 20 2 4 2 0 false = Ok [(0, 4); (6, 9); (11, 14); (16, 20)] /\
  Fill.lengths [(0, 4); (6, 9); (11, 14); (16, 20)] = [4; 3; 3; 4] /\
  Fill.gaps [(0, 4); (6, 9); (11, 14); (16, 20)] = [2; 2; 2] /\
  Fill.reflection_invariant 20 [(0, 4); (6, 9); (11, 14); (16, 20)].
Proof.
  split; [reflexivity | split; [reflexivity | split; [reflexivity|]]].
  apply reflection_invariant_intro.
  repeat constructor; cbn; tauto.
Qed.

(** C4, the claim as stated fails: the call does not return three blocks of
    length 4. *)
Lemma fill_symmetric_max_example_not_three_blocks :
  ~ exists l, Fill.fill_symmetric_max 20 2 4 2 0 false = Ok l /\
              length l = 3%nat /\ Forall (fun i : intv => snd i - fst i = 4) l.
Proof.
  intros (l & Hl & Hlen & _).
  assert (E : Fill.fill_symmetric_max 20 2 4 2 0 false
              = Ok [(0, 4); (6, 9); (11, 14); (16, 20)]) by reflexivity.
  rewrite E in Hl. injection Hl as <-. discriminate.
Qed.

(** C1, at two failing inputs.  The call [_fill_symmetric_helper(13, 5, 1)],
    which [fill_symmetric_max(13, 1, 2, 1)] makes, returns a list that is
    ordered but is not its own mirror image: it holds [[5, 6)] and not its
    reflection [[7, 8)].  The call [_fill_symmetric_helper(9, 4, 1)] with a
    space on the edges, which [fill_symmetric_const_space(9, 1, 1, 1)] makes,
    returns a list whose blocks [[3, 5)] and [[4, 6)] overlap. *)
Theorem fill_symmetric_helper_breaks_invariants :
  (Fill._fill_symmetric_helper 13 5 1 0 true false true false
     = Ok ([(0, 2); (3, 4); (5, 6); (9, 10); (11, 13)], true) /\
   Fill.fill_symmetric_max 13 1 2 1 0 false
     = Ok [(0, 2); (3, 4); (5, 6); (9, 10); (11, 13)] /\
   Fill.ordered [(0, 2); (3, 4); (5, 6); (9, 10); (11, 13)] /\
   ~ Fill.reflection_invariant (13 + 2 * 0) [(0, 2); (3, 4); (5, 6); (9, 10); (11, 13)]) /\
  (Fill._fill_symmetric_helper 9 4 1 0 false false false false
     = Ok ([(1, 2); (3, 5); (4, 6); (7, 8)], true) /\
   Fill.fill_symmetric_const_space 9 1 1 1 0 = Ok [(1, 2); (3, 5); (4, 6); (7, 8)] /\
   ~ Fill.ordered [(1, 2); (3, 5); (4, 6); (7, 8)]).
Proof.
  split.
  - split; [reflexivity | split; [reflexivity | split; [cbn; lia|]]].
    intros H. destruct (H (5, 6)) as [H1 _].
    assert (Hin : In (5, 6) [(0, 2); (3, 4); (5, 6); (9, 10); (11, 13)]) by (cbn; auto).
    specialize (H1 Hin). cbn in H1. intuition discriminate.
  - split; [reflexivity | split; [reflexivity|]].
    cbn. lia.
Qed.

(** ** The routing grid *)

Module GridFacts.
Import Grid.

Lemma getitem_Ok {V} (d : gmap Z V) key v : getitem d key = Ok v <-> d !! key = Some v.
Proof. unfold getitem. destruct (d !! key); split; congruence. Qed.

(** [_gcd] returns a common divisor, whatever the signs. *)
Lemma _gcd_divide a b : (_gcd a b | a) /\ (_gcd a b | b).
Proof.
  funelim (_gcd a b).
  - subst. split; [reflexivity | apply Z.divide_0_r].
  - match goal with IH : (_ | _) /\ (_ | _) |- _ => destruct IH as [Hb Hm] end.
    split; [|assumption].
    match goal with Hne : b <> 0 |- _ => pose proof (Z.div_mod a b Hne) as E end.
    clear Heqcall. set (q := a / b) in *. set (r := a `mod` b) in *.
    clearbody q r. subst a.
    apply Z.divide_add_r; [now apply Z.divide_mul_l | assumption].
Qed.

(** One step of [_lcm]: [cur_lcm * val // _gcd(cur_lcm, val)] is a common
    multiple. *)
Lemma lcm_step cur val r :
  floordiv (cur * val) (_gcd cur val) = Ok r -> (cur | r) /\ (val | r).
Proof.
  unfold floordiv. destruct (_gcd cur val =? 0) eqn:Hz; [discriminate|].
  apply Z.eqb_neq in Hz. intros [= <-].
  destruct (_gcd_divide cur val) as [[x Hx] [y Hy]].
  set (g := _gcd cur val) in *. clearbody g.
  split.
  - exists y. subst val.
    replace (cur * (y * g)) with (cur * y * g) by ring.
    rewrite Z.div_mul by assumption. ring.
  - exists x. subst cur.
    replace (x * g * val) with (x * val * g) by ring.
    rewrite Z.div_mul by assumption. ring.
Qed.

Lemma _lcm_multiple arr init r :
  _lcm arr init = Ok r -> (init | r) /\ Forall (fun val => (val | r)) arr.
Proof.
  revert init. induction arr as [|val arr IH]; intros init H; cbn in H.
  - injection H as <-. split; [reflexivity | constructor].
  - apply bind_Ok in H as (cur & Hstep & Hrest).
    apply lcm_step in Hstep as [Hi Hv].
    apply IH in Hrest as [Hc Hall].
    split; [etrans; eassumption|].
    constructor; [etrans; eassumption | assumption].
Qed.

(** What [bot_pitch_iter] yields holds the pitch of every layer of the
    wanted direction. *)
Lemma bot_pitch_iter_In dirs cur_dir lays pitch_list arr :
  bot_pitch_iter dirs cur_dir lays pitch_list = Ok arr ->
  forall (i : nat) L p,
    lays !! i = Some L -> pitch_list !! i = Some p -> dirs !! L = Some cur_dir ->
    In p arr.
Proof.
  revert pitch_list arr.
  induction lays as [|lay lays IH]; intros [|q pitch_list] arr H i L p Hl Hp Hd;
    try (destruct i; discriminate).
  cbn in H.
  apply bind_Ok in H as (d & Hget & H). apply getitem_Ok in Hget.
  apply bind_Ok in H as (rest & Hrest & H). injection H as <-.
  destruct i as [|i]; cbn in Hl, Hp.
  - injection Hl as ->. injection Hp as ->.
    rewrite Hd in Hget. injection Hget as <-.
    rewrite decide_True by reflexivity. now left.
  - specialize (IH _ _ Hrest i L p Hl Hp Hd).
    destruct (decide (d = cur_dir)); [now right | assumption].
Qed.

Lemma empty_grid_inv : grid_inv empty_grid.
Proof.
  split; cbn.
  - constructor.
  - constructor.
  - intros L. rewrite lookup_empty. split; [intros H; inv H | intros [? ?]; discriminate].
  - intros L. rewrite lookup_empty. intros [? ?]; discriminate.
  - intros L v H. now rewrite lookup_empty in H.
  - intros L v H. now rewrite lookup_empty in H.
Qed.

Lemma add_new_layer_inv g layer_id sp_round w_round dir max_num_tr share_track override g' :
  grid_inv g ->
  add_new_layer g layer_id sp_round w_round dir max_num_tr share_track override = Ok g' ->
  grid_inv g'.
Proof.
  intros [Hnd Hso Hl Hoff Hsp Hw] H. unfold add_new_layer in H.
  apply bind_Ok in H as (lays & Hlays & H). injection H as <-.
  assert (Heven : forall x, Z.even (2 * x) = true)
    by (intros x; rewrite Z.even_mul; reflexivity).
  destruct (decide (is_Some (sp_tracks g !! layer_id))) as [Hin|Hnin].
  - destruct override; [|discriminate]. injection Hlays as <-.
    split; cbn; try assumption.
    + intros L. rewrite lookup_insert_is_Some', Hl.
      split; [auto|]. intros [<-|?]; assumption.
    + intros L. rewrite !lookup_insert_is_Some'. intros [?|?]; auto.
    + intros L v. rewrite lookup_insert. case_decide; [intros [= <-]; apply Heven | apply Hsp].
    + intros L v. rewrite lookup_insert. case_decide; [intros [= <-]; apply Heven | apply Hw].
  - injection Hlays as <-.
    split; cbn.
    + rewrite merge_sort_Permutation. apply NoDup_app. split; [assumption|].
      split; [|apply NoDup_singleton].
      intros x Hx ->%list_elem_of_singleton. apply Hnin, Hl, Hx.
    + apply StronglySorted_merge_sort; apply _.
    + intros L. rewrite merge_sort_Permutation, elem_of_app, list_elem_of_singleton.
      rewrite lookup_insert_is_Some', Hl.
      split; [intros [?| ->]; auto | intros [<-|?]; auto].
    + intros L. rewrite !lookup_insert_is_Some'. intros [?|?]; auto.
    + intros L v. rewrite lookup_insert. case_decide; [intros [= <-]; apply Heven | apply Hsp].
    + intros L v. rewrite lookup_insert. case_decide; [intros [= <-]; apply Heven | apply Hw].
Qed.

Lemma init_loop_inv lays : forall g spaces widths max_num_tr cur_dir g',
  grid_inv g -> init_loop g lays spaces widths max_num_tr cur_dir = Ok g' -> grid_inv g'.
Proof.
  induction lays as [|lay lays IH];
    intros g [|sp spaces] [|w widths] [|mx max_num_tr] cur_dir g' Hinv H; cbn in H;
    try (injection H as <-; assumption).
  apply bind_Ok in H as (g1 & Hadd & H).
  eapply IH; [|exact H]. eapply add_new_layer_inv; eassumption.
Qed.

Lemma update_block_pitch_inv g g' :
  grid_inv g -> update_block_pitch g = Ok g' -> grid_inv g'.
Proof.
  intros [Hnd Hso Hl Hoff Hsp Hw] H. unfold update_block_pitch in H.
  apply bind_Ok in H as (blk & _ & H). injection H as <-.
  split; assumption.
Qed.

Lemma init_inv lays spaces widths bot_dir max_num_tr g :
  __init__ lays spaces widths bot_dir max_num_tr = Ok g -> grid_inv g.
Proof.
  unfold __init__. intros H.
  repeat (destruct (negb _); [discriminate|]).
  apply bind_Ok in H as (mx & _ & H).
  apply bind_Ok in H as (g0 & Hloop & H).
  eapply update_block_pitch_inv; [|exact H].
  eapply init_loop_inv; [apply empty_grid_inv | exact Hloop].
Qed.

Lemma reachable_inv g : reachable g -> grid_inv g.
Proof.
  induction 1 as [? ? ? ? ? ? H | ? ? ? ? ? ? ? ? ? _ IH H | ? ? _ IH H].
  - eapply init_inv, H.
  - eapply add_new_layer_inv; eassumption.
  - eapply update_block_pitch_inv; eassumption.
Qed.

Lemma StronglySorted_lookup_le (l : list Z) (i j : nat) x y :
  StronglySorted Z.le l -> (i < j)%nat -> l !! i = Some x -> l !! j = Some y -> x <= y.
Proof.
  intros Hs. revert i j. induction Hs as [|a l Hs IH Hall]; intros i j Hij Hi Hj.
  - destruct i; discriminate.
  - destruct j as [|j]; [lia|]. cbn in Hj. destruct i as [|i]; cbn in Hi.
    + injection Hi as ->. rewrite Forall_forall in Hall.
      apply Hall. eapply list_elem_of_lookup_2, Hj.
    + eapply IH; [|eassumption..]. lia.
Qed.

Lemma pitch_inv_step g done todo lay pitch_list blk sp w cur_dir cur :
  layers g = done ++ lay :: todo -> NoDup (layers g) ->
  pitch_inv g done pitch_list blk ->
  sp_tracks g !! lay = Some sp -> w_tracks g !! lay = Some w ->
  dir_tracks g !! lay = Some cur_dir ->
  match pitch_list with
  | [] => Ok (sp + w)
  | _ => arr ← bot_pitch_iter (dir_tracks g) cur_dir (layers g) pitch_list;
         _lcm arr (sp + w)
  end = Ok cur ->
  pitch_inv g (done ++ [lay]) (pitch_list ++ [cur]) (<[lay := cur]> blk).
Proof.
  intros Hlay Hnd (Hlen & Hblk & Hdiv) Hsp Hw Hdir Hcur.
  (* the new block pitch is a multiple of the own pitch and of the
     block pitches of the earlier layers of the same direction *)
  assert (Hnew : (sp + w | cur) /\
            forall (i : nat) L' p', done !! i = Some L' -> pitch_list !! i = Some p' ->
              dir_tracks g !! L' = Some cur_dir -> (p' | cur)).
  { destruct pitch_list as [|p0 pitch_list'] eqn:Hpl.
    - injection Hcur as <-. split; [reflexivity|].
      intros i L' p' _ Hp. destruct i; discriminate.
    - rewrite <- Hpl in *. clear Hpl.
      apply bind_Ok in Hcur as (arr & Harr & Hlcm).
      apply _lcm_multiple in Hlcm as [Hinit Hall].
      split; [assumption|].
      intros i L' p' Hi Hp Hd.
      rewrite Forall_forall in Hall. apply Hall, list_elem_of_In.
      eapply (bot_pitch_iter_In _ _ _ _ _ Harr i L' p'); [|assumption..].
      rewrite Hlay. now apply lookup_app_l_Some. }
  destruct Hnew as [Hown Hprev].
  assert (Hfresh : forall (j : nat) L, done !! j = Some L -> L <> lay).
  { intros j L Hj ->. rewrite Hlay in Hnd.
    apply NoDup_app in Hnd as (_ & Hnd & _).
    apply (Hnd lay); [eapply list_elem_of_lookup_2, Hj | left]. }
  split; [rewrite !length_app; cbn; lia|]. split.
  - intros j L p Hj Hp.
    destruct (decide (j < length done)%nat) as [Hlt|Hge].
    + rewrite lookup_app_l in Hj by lia. rewrite lookup_app_l in Hp by lia.
      rewrite lookup_insert_ne by (intros E; symmetry in E; revert E; eapply Hfresh, Hj).
      eapply Hblk; eassumption.
    + assert (j = length done) as ->.
      { apply lookup_lt_Some in Hj. rewrite length_app in Hj. cbn in Hj. lia. }
      rewrite list_lookup_middle in Hj by reflexivity.
      rewrite list_lookup_middle in Hp by (symmetry; assumption).
      injection Hj as <-. injection Hp as <-. apply lookup_insert_eq.
  - intros i j L' L p Hij Hi Hj Hp Hd.
    destruct (decide (j < length done)%nat) as [Hlt|Hge].
    + rewrite lookup_app_l in Hi by lia. rewrite lookup_app_l in Hj by lia.
      rewrite lookup_app_l in Hp by lia. eapply (Hdiv i j); eassumption.
    + assert (j = length done) as ->.
      { apply lookup_lt_Some in Hj. rewrite length_app in Hj. cbn in Hj. lia. }
      rewrite list_lookup_middle in Hj by reflexivity.
      rewrite list_lookup_middle in Hp by (symmetry; assumption).
      injection Hj as <-. injection Hp as <-.
      destruct (decide (i = length done)) as [->|Hne].
      * rewrite list_lookup_middle in Hi by reflexivity. injection Hi as <-.
        eauto.
      * rewrite lookup_app_l in Hi by lia.
        destruct (lookup_lt_is_Some_2 pitch_list i) as [p' Hp']; [lia|].
        destruct (Hdiv i i L' L' p') as (sp' & w' & Hsp' & Hw' & Hd'); auto.
        exists sp', w'. split; [assumption|]. split; [assumption|].
        etrans; [exact Hd'|]. eapply Hprev; [eassumption..|]. congruence.
Qed.

Lemma update_block_pitch_loop_inv g todo : forall done pitch_list blk blk',
  layers g = done ++ todo -> NoDup (layers g) ->
  pitch_inv g done pitch_list blk ->
  update_block_pitch_loop g todo pitch_list blk = Ok blk' ->
  exists pitch_list', pitch_inv g (layers g) pitch_list' blk'.
Proof.
  induction todo as [|lay todo IH]; intros done pitch_list blk blk' Hlay Hnd Hinv H.
  - cbn in H. injection H as <-. rewrite app_nil_r in Hlay. rewrite Hlay. eauto.
  - cbn [update_block_pitch_loop] in H.
    apply bind_Ok in H as (sp & Hsp & H). apply getitem_Ok in Hsp.
    apply bind_Ok in H as (w & Hw & H). apply getitem_Ok in Hw.
    apply bind_Ok in H as (cur_dir & Hdir & H). apply getitem_Ok in Hdir.
    apply bind_Ok in H as (cur & Hcur & H).
    eapply (IH (done ++ [lay])); [| assumption | | exact H].
    + now rewrite <- app_assoc.
    + eapply pitch_inv_step; eassumption.
Qed.

End GridFacts.

(** C5.  After construction, the block pitch of a layer [L] is an integer
    multiple of the track pitch [w + sp] of every layer [L'] at or below [L]
    that has the direction of [L]: the remainder of the division is zero. *)
Theorem block_pitch_divisible
    (lays spaces widths : list Z) (bot_dir : Grid.direction) (max_num_tr : Z + list Z)
    (g : Grid.RoutingGrid) (L L' : Z) :
  Grid.__init__ lays spaces widths bot_dir max_num_tr = Ok g ->
  In L (Grid.layers g) -> In L' (Grid.layers g) -> L' <= L ->
  Grid.dir_tracks g !! L' = Grid.dir_tracks g !! L ->
  exists blk_pitch w sp,
    Grid.block_pitch g !! L = Some blk_pitch /\
    Grid.w_tracks g !! L' = Some w /\ Grid.sp_tracks g !! L' = Some sp /\
    (w + sp | blk_pitch) /\ blk_pitch mod (w + sp) = 0.
Proof.
  intros Hinit HL HL' Hle Hdir.
  pose proof (GridFacts.init_inv _ _ _ _ _ _ Hinit) as [Hnd Hso _ _ _ _].
  unfold Grid.__init__ in Hinit.
  repeat (destruct (negb _); [discriminate|]).
  apply bind_Ok in Hinit as (mx & _ & Hinit).
  apply bind_Ok in Hinit as (g0 & _ & Hinit).
  unfold Grid.update_block_pitch in Hinit.
  apply bind_Ok in Hinit as (blk & Hloop & Hinit). injection Hinit as <-.
  cbn in *.
  destruct (GridFacts.update_block_pitch_loop_inv g0 (Grid.layers g0) [] []
              (Grid.block_pitch g0) blk)
    as (pl & Hlen & Hblk & Hdiv); [reflexivity | assumption | | exact Hloop |].
  { split; [reflexivity|]. split; intros; destruct j; discriminate. }
  apply list_elem_of_In, list_elem_of_lookup in HL as [j Hj].
  apply list_elem_of_In, list_elem_of_lookup in HL' as [i Hi].
  destruct (lookup_lt_is_Some_2 pl j) as [p Hp];
    [rewrite Hlen; eapply lookup_lt_Some, Hj|].
  assert (Hij : (i <= j)%nat).
  { destruct (decide (i <= j)%nat) as [|Hgt]; [assumption|].
    assert (L <= L') by (eapply GridFacts.StronglySorted_lookup_le; [eassumption| |eassumption..]; lia).
    assert (L = L') as -> by lia.
    pose proof (NoDup_lookup _ _ _ _ Hnd Hi Hj). lia. }
  destruct (Hdiv i j L' L p Hij Hi Hj Hp Hdir) as (sp & w & Hsp & Hw & Hd).
  exists p, w, sp. split; [eapply Hblk; eassumption|].
  split; [assumption|]. split; [assumption|].
  rewrite (Z.add_comm w sp). split; [assumption|].
  destruct (decide (sp + w = 0)) as [Hz|Hnz].
  - destruct Hd as [x ->]. rewrite Hz, Z.mul_0_r. reflexivity.
  - apply Z.mod_divide; assumption.
Qed.

Lemma block_pitch_divisible_witness :
  exists g, Grid.__init__ [1; 2; 3; 4] [50; 60; 70; 40] [50; 40; 30; 80] Grid.X (inl 100) = Ok g /\
    exists blk_pitch w sp,
      Grid.block_pitch g !! 4 = Some blk_pitch /\
      Grid.w_tracks g !! 2 = Some w /\ Grid.sp_tracks g !! 2 = Some sp /\
      (w + sp | blk_pitch) /\ blk_pitch mod (w + sp) = 0.
Proof.
  eexists. split; [vm_compute; reflexivity|].
  eapply (block_pitch_divisible [1; 2; 3; 4] [50; 60; 70; 40] [50; 40; 30; 80] Grid.X (inl 100)).
  - vm_compute. reflexivity.
  - cbn. tauto.
  - cbn. tauto.
  - lia.
  - vm_compute. reflexivity.
Defined.

(** What [on_grid] says with the tables of the layer unfolded. *)
Lemma on_grid_unfold (g : Grid.RoutingGrid) (layer_id c : Z) :
  Grid.on_grid g layer_id c <->
  exists sp w off h,
    Grid.sp_tracks g !! layer_id = Some sp /\ Grid.w_tracks g !! layer_id = Some w /\
    Grid.offset_tracks g !! layer_id = Some off /\ 2 * c = (sp + w) * h + 2 * off.
Proof.
  unfold Grid.on_grid, Grid.track_to_coord, of_int. split.
  - intros [t H].
    apply bind_Ok in H as (sp & Hsp & H). apply GridFacts.getitem_Ok in Hsp.
    apply bind_Ok in H as (w & Hw & H). apply GridFacts.getitem_Ok in Hw.
    apply bind_Ok in H as (off & Hoff & H). apply GridFacts.getitem_Ok in Hoff.
    injection H as H. exists sp, w, off, (twice t). auto.
  - intros (sp & w & off & h & Hsp & Hw & Hoff & H).
    exists (Half h). cbn.
    apply GridFacts.getitem_Ok in Hsp, Hw, Hoff. rewrite Hsp, Hw, Hoff. cbn.
    now rewrite H.
Qed.

(** [coord_to_track] on a layer of even, non-zero pitch: the three cases. *)
Lemma coord_to_track_cases (g : Grid.RoutingGrid) (layer_id c sp w off : Z) :
  Grid.sp_tracks g !! layer_id = Some sp -> Grid.w_tracks g !! layer_id = Some w ->
  Grid.offset_tracks g !! layer_id = Some off ->
  Z.even (sp + w) = true -> sp + w <> 0 ->
  (exists q, c = off + q * (sp + w) /\
             Grid.coord_to_track g layer_id c = Ok (of_int q)) \/
  (exists q, c = off + q * (sp + w) + (sp + w) / 2 /\
             Grid.coord_to_track g layer_id c = Ok (Half (2 * q + 1))) \/
  ((forall h, c <> off + h * ((sp + w) / 2)) /\
   Grid.coord_to_track g layer_id c = Raise (ValueError NotOnTrack)).
Proof.
  intros Hsp Hw Hoff Heven Hnz.
  apply GridFacts.getitem_Ok in Hsp, Hw, Hoff.
  unfold Grid.coord_to_track. rewrite Hsp, Hw, Hoff. cbn.
  rewrite divmod_Ok by assumption. cbn.
  apply Zeven_bool_iff, Zeven_ex_iff in Heven as [hp Hp].
  set (pitch := sp + w) in *.
  assert (Hhalf : pitch / 2 = hp) by (rewrite Hp, Z.mul_comm; apply Z.div_mul; lia).
  pose proof (Z.div_mod (c - off) pitch Hnz) as Hdm.
  assert (Hr : 0 <= (c - off) mod pitch < pitch \/ pitch < (c - off) mod pitch <= 0).
  { destruct (Z_lt_le_dec 0 pitch);
      [left; apply Z.mod_pos_bound | right; apply Z.mod_neg_bound]; lia. }
  set (q := (c - off) / pitch) in *. set (r := (c - off) mod pitch) in *.
  clearbody q r. rewrite Hhalf.
  destruct (r =? 0) eqn:Hr0; [|destruct (r =? hp) eqn:Hrh].
  - left. exists q. split; [lia | reflexivity].
  - right. left. exists q. split; [lia | reflexivity].
  - right. right. split; [|reflexivity].
    intros h Hc. apply Z.eqb_neq in Hr0, Hrh.
    assert (E : r = hp * (h - 2 * q)) by lia.
    assert (Hcase : h - 2 * q = 0 \/ h - 2 * q = 1 \/ h - 2 * q <= -1 \/ 2 <= h - 2 * q) by lia.
    destruct Hcase as [Hc0|[Hc1|Hc2]].
    + rewrite Hc0 in E. lia.
    + rewrite Hc1 in E. lia.
    + nia.
Qed.

(** *** Layout units *)

Module LayoutFacts.
Import Grid FloatFacts.

(** The method in layout units converts the coordinate, and then is the
    method in resolution units. *)
Lemma coord_to_track_index g res layer_id coord :
  Layout.coord_to_track g res layer_id coord
  = (c ← Layout.units res coord; t ← Grid.coord_to_track g layer_id c; Layout.index t).
Proof.
  unfold Layout.coord_to_track, Grid.coord_to_track.
  destruct (Layout.units res coord) as [c|]; [|reflexivity]. cbn [mbind result_bind Py.bind].
  destruct (getitem (sp_tracks g) layer_id) as [sp|]; [|reflexivity].
  cbn [mbind result_bind Py.bind].
  destruct (getitem (w_tracks g) layer_id) as [w|]; [|reflexivity].
  cbn [mbind result_bind Py.bind].
  destruct (getitem (offset_tracks g) layer_id) as [off|]; [|reflexivity].
  cbn [mbind result_bind Py.bind].
  destruct (divmod (c - off) (sp + w)) as [[q r]|]; [|reflexivity].
  cbn [mbind result_bind Py.bind].
  destruct (r =? 0).
  - cbn [mbind result_bind Py.bind]. unfold Layout.index, is_int, of_int. cbn [twice].
    rewrite Z.even_mul. cbn [Z.even orb].
    rewrite (Z.mul_comm 2 q), Z.div_mul by lia. reflexivity.
  - destruct (r =? (sp + w) / 2); [|reflexivity].
    cbn [mbind result_bind Py.bind]. unfold Layout.index, is_int. cbn [twice].
    rewrite Z.even_add, Z.even_mul. cbn [Z.even orb Bool.eqb].
    replace ((2 * q + 1) / 2) with q; [reflexivity|].
    rewrite (Z.add_comm (2 * q) 1), (Z.mul_comm 2 q), Z.div_add by lia. reflexivity.
Qed.

(** Below [2 ^ 50] the track of a coordinate goes back to the float of
    this coordinate, times the resolution. *)
Lemma track_to_coord_exact g res layer_id c sp w off t :
  sp_tracks g !! layer_id = Some sp -> w_tracks g !! layer_id = Some w ->
  offset_tracks g !! layer_id = Some off ->
  Z.even (sp + w) = true -> sp + w <> 0 ->
  2 * c = (sp + w) * twice t + 2 * off ->
  Z.abs c < 2 ^ 50 -> Z.abs off < 2 ^ 50 ->
  exists track_idx x,
    Layout.index t = Ok track_idx /\ Float64.of_int c = Ok x /\
    Layout.track_to_coord g res layer_id track_idx = Ok (Float64.mul x res).
Proof.
  intros Hsp Hw Hoff Heven Hnz Hc Hcb Hob.
  change (2 ^ 50) with 1125899906842624 in *.
  assert (H53 : 2 ^ 53 = 9007199254740992) by reflexivity.
  apply GridFacts.getitem_Ok in Hsp, Hw, Hoff.
  apply Zeven_bool_iff, Zeven_ex_iff in Heven as [hp Hp].
  assert (Hx : Float64.of_int c = Ok (Float64.halves (2 * c))) by (apply of_int_halves; lia).
  unfold Layout.index, is_int, Layout.track_to_coord. rewrite Hsp, Hw.
  cbn [mbind result_bind Py.bind].
  set (pitch := sp + w) in *. clearbody pitch.
  destruct t as [h]. cbn [twice] in *.
  destruct (Z.even h) eqn:Hh.
  - apply Zeven_bool_iff, Zeven_ex_iff in Hh as [q ->].
    rewrite (Z.mul_comm 2 q), Z.div_mul by lia.
    exists (Float64.Int q), (Float64.halves (2 * c)). split; [reflexivity|]. split; [assumption|].
    rewrite Hoff. cbn [mbind result_bind Py.bind Float64.to_float].
    replace (pitch * q + off) with c by (clear -Hc; lia). rewrite Hx. reflexivity.
  - assert (Hodd : Z.odd h = true) by (rewrite <- Z.negb_even, Hh; reflexivity).
    apply Zodd_bool_iff, Zodd_ex_iff in Hodd as [q ->].
    replace ((2 * q + 1) / 2) with q
      by (rewrite (Z.add_comm (2 * q) 1), (Z.mul_comm 2 q), Z.div_add by lia; reflexivity).
    assert (Hco : c - off = hp * (2 * q + 1)) by (rewrite Hp in Hc; lia).
    assert (Hhp : 1 <= Z.abs hp) by lia.
    assert (Hq1 : 1 <= Z.abs (2 * q + 1)) by lia.
    assert (Hq : Z.abs (2 * q + 1) <= Z.abs (c - off))
      by (rewrite Hco, Z.abs_mul; nia).
    assert (Hpb : Z.abs pitch <= 2 * Z.abs (c - off)).
    { rewrite Hco, Hp, !Z.abs_mul. change (Z.abs 2) with 2. nia. }
    assert (Hprod : Z.abs (pitch * (2 * q + 1)) = 2 * Z.abs (c - off)).
    { rewrite Hco, Hp, !Z.abs_mul. change (Z.abs 2) with 2. ring. }
    rewrite (of_int_halves q) by lia. cbn [mbind result_bind Py.bind].
    rewrite one_half_halves, add_halves by (change (Z.abs 1) with 1; lia).
    exists (Float64.Float (Float64.halves (2 * q + 1))), (Float64.halves (2 * c)).
    split; [reflexivity|]. split; [assumption|].
    rewrite (of_int_halves pitch) by lia. cbn [mbind result_bind Py.bind].
    rewrite Hoff. cbn [mbind result_bind Py.bind].
    rewrite (of_int_halves off) by lia. cbn [mbind result_bind Py.bind Float64.to_float].
    rewrite mul_halves by lia.
    rewrite add_halves by (rewrite ?Hprod; lia).
    replace (pitch * (2 * q + 1) + 2 * off) with (2 * c) by (clear -Hc; lia). reflexivity.
Qed.

End LayoutFacts.

(** C3 (as the code has it).  On a layer of a grid made by the constructor
    and [add_new_layer], with a non-zero track pitch, let [c] be the
    coordinate in resolution units (the argument itself with
    [unit_mode=True], [int(round(coord / resolution))] otherwise), on a
    track or a half-track of the layer.  Then [coord_to_track] returns the
    index [t] of this track, [pitch * t + offset] being [c]; and, for [c]
    and the offset of the layer below [2 ^ 50], [track_to_coord] takes it
    back to the float [c * resolution], a coordinate in layout units. *)
Theorem track_coord_round_trip (g : Grid.RoutingGrid) (res : Float64.float)
    (layer_id : Z) (coord : Grid.Layout.coordinate) (c : Z) :
  Grid.reachable g ->
  Grid.track_pitch g layer_id <> Some 0 ->
  Grid.Layout.units res coord = Ok c ->
  Grid.on_grid g layer_id c ->
  (exists t,
     Grid.coord_to_track g layer_id c = Ok t /\
     Grid.track_to_coord g layer_id t = Ok (of_int c) /\
     Grid.Layout.coord_to_track g res layer_id coord = Grid.Layout.index t) /\
  (Z.abs c < 2 ^ 50 ->
   (forall off, Grid.offset_tracks g !! layer_id = Some off -> Z.abs off < 2 ^ 50) ->
   exists track_idx x,
     Grid.Layout.coord_to_track g res layer_id coord = Ok track_idx /\
     Float64.of_int c = Ok x /\
     Grid.Layout.track_to_coord g res layer_id track_idx = Ok (Float64.mul x res)).
Proof.
  intros Hreach Hpitch Hunits Hon.
  apply GridFacts.reachable_inv in Hreach as [_ _ _ _ Hes Hew].
  apply on_grid_unfold in Hon as (sp & w & off & h & Hsp & Hw & Hoff & Hc).
  assert (Hnz : sp + w <> 0).
  { intros Hz. apply Hpitch. unfold Grid.track_pitch. rewrite Hsp, Hw. cbn. now rewrite Hz. }
  assert (Heven : Z.even (sp + w) = true)
    by (rewrite Z.even_add, (Hes _ _ Hsp), (Hew _ _ Hw); reflexivity).
  assert (Hto : forall t, 2 * c = (sp + w) * twice t + 2 * off ->
                  Grid.track_to_coord g layer_id t = Ok (of_int c)).
  { intros t Ht. unfold Grid.track_to_coord, of_int.
    pose proof Hsp as Hsp'. pose proof Hw as Hw'. pose proof Hoff as Hoff'.
    apply GridFacts.getitem_Ok in Hsp', Hw', Hoff'. rewrite Hsp', Hw', Hoff'. cbn.
    now rewrite Ht. }
  assert (Hhalf : exists hp, sp + w = 2 * hp /\ (sp + w) / 2 = hp).
  { pose proof Heven as Hev. apply Zeven_bool_iff, Zeven_ex_iff in Hev as [hp Hp].
    exists hp. split; [assumption|]. rewrite Hp, Z.mul_comm. apply Z.div_mul. lia. }
  destruct Hhalf as (hp & Hp & Hhalf).
  assert (Htrack : exists t, Grid.coord_to_track g layer_id c = Ok t /\
                             2 * c = (sp + w) * twice t + 2 * off).
  { destruct (coord_to_track_cases g layer_id c sp w off Hsp Hw Hoff Heven Hnz) as
      [(q & Hq & Hct) | [(q & Hq & Hct) | (Hoff_grid & _)]].
    - exists (of_int q). split; [assumption|]. cbn. lia.
    - exists (Half (2 * q + 1)). split; [assumption|]. cbn. lia.
    - exfalso. apply (Hoff_grid h). rewrite Hhalf. nia. }
  destruct Htrack as (t & Hct & Ht).
  assert (Hlayout : Grid.Layout.coord_to_track g res layer_id coord = Grid.Layout.index t).
  { rewrite LayoutFacts.coord_to_track_index, Hunits. cbn [mbind result_bind Py.bind].
    rewrite Hct. reflexivity. }
  split.
  - exists t. split; [assumption|]. split; [now apply Hto | assumption].
  - intros Hcb Hob.
    destruct (LayoutFacts.track_to_coord_exact g res layer_id c sp w off t
                Hsp Hw Hoff Heven Hnz Ht Hcb (Hob _ Hoff))
      as (track_idx & x & Hidx & Hx & Hback).
    exists track_idx, x. rewrite Hlayout. auto.
Qed.

Lemma track_coord_round_trip_witness :
  let res := Float64.of_ratio 1 1000 in
  exists g track_idx x,
    Grid.Layout.__init__ res [1; 2]
      [Float64.Float (Float64.of_ratio 1 10); Float64.Float (Float64.of_ratio 12 100)]
      [Float64.Float (Float64.of_ratio 1 10); Float64.Float (Float64.of_ratio 8 100)]
      Grid.X (inl 100) = Ok g /\
    Grid.Layout.coord_to_track g res 1
      (Grid.Layout.LayoutUnit (Float64.Float (Float64.of_ratio 2 10))) = Ok track_idx /\
    Float64.of_int 200 = Ok x /\
    Grid.Layout.track_to_coord g res 1 track_idx = Ok (Float64.mul x res).
Proof.
  intros res. eexists.
  match goal with
  | |- exists track_idx x, ?init /\ _ =>
      assert (Hinit : init) by (vm_compute; reflexivity)
  end.
  lazymatch type of Hinit with
  | _ = Ok ?g =>
      destruct (track_coord_round_trip g res 1
                  (Grid.Layout.LayoutUnit (Float64.Float (Float64.of_ratio 2 10))) 200)
        as [_ Hfloat]
  end.
  - eapply (Grid.reach_init [1; 2] [50; 60] [50; 40] Grid.X (inl 100)).
    vm_compute. reflexivity.
  - vm_compute. discriminate.
  - vm_compute. reflexivity.
  - exists (Half 1). vm_compute. reflexivity.
  - destruct Hfloat as (track_idx & x & Hct & Hx & Hback).
    + vm_compute. reflexivity.
    + intros off Hoff. vm_compute in Hoff. injection Hoff as <-. vm_compute. reflexivity.
    + exists track_idx, x. split; [exact Hinit|]. split; [exact Hct|].
      split; [exact Hx | exact Hback].
Defined.

(** C3, the claim as stated fails: what [track_to_coord] returns is scaled
    by the resolution, and rounded as floats are.  At a resolution of 0.1,
    the coordinate 0.7 (7 in resolution units) is on track 0, and
    [track_to_coord] gives 0.7000000000000001 for this track: neither 0.7
    nor 7. *)
Lemma track_to_coord_returns_layout_units :
  let res := Float64.of_ratio 1 10 in
  let c := Float64.of_ratio 7 10 in
  exists g x,
    Grid.Layout.__init__ res [1]
      [Float64.Float (Float64.of_ratio 6 10)] [Float64.Float (Float64.of_ratio 8 10)]
      Grid.X (inl 100) = Ok g /\
    Grid.on_grid g 1 7 /\
    (* the coordinate 0.7, in layout units *)
    Grid.Layout.coord_to_track g res 1 (Grid.Layout.LayoutUnit (Float64.Float c))
      = Ok (Float64.Int 0) /\
    (* the coordinate 7, in resolution units *)
    Grid.Layout.coord_to_track g res 1 (Grid.Layout.Unit 7) = Ok (Float64.Int 0) /\
    Grid.Layout.track_to_coord g res 1 (Float64.Int 0) = Ok x /\
    x = SpecFloat.S754_finite false 6305039478318695 (-53) /\
    c = SpecFloat.S754_finite false 6305039478318694 (-53) /\
    Float64.eqb x c = false /\
    Float64.of_int 7 = Ok (SpecFloat.S754_finite false 7881299347898368 (-50)) /\
    Float64.eqb x (SpecFloat.S754_finite false 7881299347898368 (-50)) = false.
Proof.
  intros res c. eexists. eexists.
  split; [vm_compute; reflexivity|].
  split; [exists (Half 0); vm_compute; reflexivity|].
  split; [vm_compute; reflexivity|].
  split; [vm_compute; reflexivity|].
  split; [vm_compute; reflexivity|].
  repeat split; vm_compute; reflexivity.
Qed.



(** ** Track sets *)

Module TrackSetFacts.
Import IntervalSet.

Section WithValue.
Context {V : Type}.
Implicit Types (s : IntervalSet.t V) (i j : intv) (x y : intv * V).

Lemma insert_ordered_In x y s : In x (insert_ordered y s) <-> x = y \/ In x s.
Proof.
  induction s as [|z s IH]; cbn; [intuition congruence|].
  destruct (_ <? _); cbn; [|rewrite IH]; intuition congruence.
Qed.

Lemma fold_min_le a (l : list Z) : fold_right Z.min a l <= a.
Proof. induction l as [|b l IH]; cbn; lia. Qed.

Lemma fold_max_ge a (l : list Z) : a <= fold_right Z.max a l.
Proof. induction l as [|b l IH]; cbn; lia. Qed.

(** After [add], a stored interval was there before or covers the added
    one. *)
Lemma add_In s i (val : V) x :
  In x (add s i val) -> In x s \/ covers (fst x) i.
Proof.
  unfold add. rewrite insert_ordered_In. intros [->|Hx].
  - right. split; cbn; [apply fold_min_le | apply fold_max_ge].
  - left. apply filter_In in Hx. tauto.
Qed.

Lemma fold_add_In (l : list (intv * V)) : forall s x,
  In x (fold_left (fun s y => add s (fst y) (snd y)) l s) ->
  In x s \/ exists y, In y l /\ covers (fst x) (fst y).
Proof.
  induction l as [|a l IH]; intros s x Hx; cbn in Hx; [tauto|].
  apply IH in Hx as [Hx | (y & Hy & Hc)].
  - apply add_In in Hx as [Hx|Hx]; [tauto|]. right. exists a. cbn. tauto.
  - right. exists y. cbn. tauto.
Qed.

(** After [subtract], a stored interval was there before or is one of the
    fragments handed to the caller. *)
Lemma subtract_In s i x :
  In x (fst (subtract s i)) -> In x s \/ In (fst x) (snd (subtract s i)).
Proof.
  unfold subtract. cbn. rewrite !in_flat_map. intros (y & Hy & Hx).
  destruct (overlaps i (fst y)) eqn:Hov.
  - right. exists y. split; [assumption|]. rewrite Hov. now apply in_map.
  - left. destruct Hx as [<-|[]]. assumption.
Qed.

Lemma remove_In s j x : In x (remove s j) <-> In x s /\ fst x <> j.
Proof.
  unfold remove. rewrite filter_In, negb_true_iff, bool_decide_eq_false. tauto.
Qed.

(** The removal loop of [TrackSet.subtract] leaves no short fragment. *)
Lemma remove_short_In (min_len : Z) (new_intvs : list intv) : forall s x,
  In x (fold_left (fun s j => if snd j - fst j <? min_len then remove s j else s)
                  new_intvs s) ->
  In x s /\ (In (fst x) new_intvs -> min_len <= snd (fst x) - fst (fst x)).
Proof.
  induction new_intvs as [|j new_intvs IH]; intros s x Hx; cbn in Hx; [cbn; tauto|].
  apply IH in Hx as [Hx Hnew].
  destruct (snd j - fst j <? min_len) eqn:Hshort.
  - apply remove_In in Hx as [Hx Hne]. split; [assumption|].
    intros [E|Hin]; [congruence | auto].
  - split; [assumption|]. intros [<-|Hin]; [lia | auto].
Qed.

End WithValue.
End TrackSetFacts.

(** What holds of the operations of a [TrackSet] whose intervals all have at
    least its [min_length]: [add_track] keeps this, and leaves the state
    untouched when the interval is shorter than [min_length]; [subtract]
    keeps it, deleting the fragments shorter than [min_length]; [merge],
    which has no length filter, keeps it when the intervals of the merged-in
    [TrackSet] have at least the [min_length] of the receiver. *)
Lemma track_set_operations_min_length {V : Type} (ts track_set : TrackSet.TrackSet V)
    (hidx : Z) (i : intv) (width : Z) (value : V) :
  TrackSet.min_length_ok ts ->
  TrackSet.min_length_ok (TrackSet.add_track ts hidx i width value) /\
  (snd i - fst i < TrackSet._min_len ts ->
   TrackSet.add_track ts hidx i width value = ts) /\
  TrackSet.min_length_ok (TrackSet.subtract ts hidx i) /\
  (TrackSet.all_at_least (TrackSet._min_len ts) track_set ->
   TrackSet.min_length_ok (TrackSet.merge ts track_set)).
Proof.
  intros Hok. unfold TrackSet.min_length_ok, TrackSet.all_at_least in *.
  split; [|split; [|split]].
  - unfold TrackSet.add_track.
    destruct (_ >=? _) eqn:Hlen; [|exact Hok]. cbn.
    apply Z.geb_le in Hlen.
    intros h s x Hs Hx. apply lookup_insert_Some in Hs as [[<- <-]|[_ Hs]]; [|eauto].
    apply TrackSetFacts.add_In in Hx as [Hx|[Hc1 Hc2]];
      [|destruct i, x as [[? ?] ?]; cbn in *; lia].
    destruct (TrackSet._tracks ts !! hidx) as [s0|] eqn:Hs0; [eauto | destruct Hx].
  - intros Hshort. unfold TrackSet.add_track.
    now replace (_ >=? _) with false by lia.
  - unfold TrackSet.subtract.
    destruct (TrackSet._tracks ts !! hidx) as [s0|] eqn:Hs0; [|exact Hok].
    destruct (IntervalSet.subtract s0 i) as [s1 new_intvs] eqn:Hsub.
    assert (Hs1 : forall x,
              In x (fold_left (fun s j => if snd j - fst j <? TrackSet._min_len ts
                                          then IntervalSet.remove s j else s)
                              new_intvs s1) ->
              TrackSet._min_len ts <= snd (fst x) - fst (fst x)).
    { intros x Hx. apply TrackSetFacts.remove_short_In in Hx as [Hx Hnew].
      pose proof (TrackSetFacts.subtract_In s0 i x) as Hcases.
      rewrite Hsub in Hcases. cbn in Hcases.
      destruct (Hcases Hx); eauto. }
    destruct (IntervalSet.is_empty _); cbn; intros h s x Hs Hx.
    + apply lookup_delete_Some in Hs as [_ Hs]. eauto.
    + apply lookup_insert_Some in Hs as [[<- <-]|[_ Hs]]; eauto.
  - intros Hother. unfold TrackSet.merge. cbn.
    revert Hother.
    apply (map_fold_weak_ind
             (fun acc m =>
                (forall h s x, m !! h = Some s -> In x s ->
                   TrackSet._min_len ts <= snd (fst x) - fst (fst x)) ->
                forall h s x, acc !! h = Some s -> In x s ->
                   TrackSet._min_len ts <= snd (fst x) - fst (fst x))).
    + intros _. exact Hok.
    + intros h0 s0 m acc Hfresh IH Hm h s x Hs Hx.
      assert (Hacc : forall h s x, acc !! h = Some s -> In x s ->
                TrackSet._min_len ts <= snd (fst x) - fst (fst x)).
      { apply IH. intros h' s' x' Hs'. apply (Hm h').
        assert (h0 <> h') by (intros E; rewrite <- E in Hs';
                                   discriminate (eq_trans (eq_sym Hs') Hfresh)).
        now rewrite lookup_insert_ne. }
      unfold TrackSet.merge_one in Hs.
      apply lookup_insert_Some in Hs as [[<- <-]|[_ Hs]]; [|eauto].
      apply TrackSetFacts.fold_add_In in Hx as [Hx | (y & Hy & Hc1 & Hc2)].
      * destruct (acc !! h0) as [s1|] eqn:Hs1; [eauto | destruct Hx].
      * assert (TrackSet._min_len ts <= snd (fst y) - fst (fst y));
          [|destruct y as [[? ?] ?], x as [[? ?] ?]; cbn in *; lia].
        apply (Hm h0 s0); [apply lookup_insert_eq | exact Hy].
Qed.

(** C10, at a failing input.  [merge] adds the intervals of the other
    [TrackSet] without the length test of [add_track]: merging a [TrackSet]
    that holds an interval of length 5 into an empty one of [min_length] 10
    stores this interval, and the receiver no longer has all its intervals at
    least [min_length] long. *)
Theorem track_set_merge_breaks_min_length :
  let ts := TrackSet.__init__ (V := unit) 10 None in
  let track_set := TrackSet.add_track (TrackSet.__init__ 0 None) 1 (0, 5) 1 tt in
  TrackSet.min_length_ok ts /\ TrackSet.min_length_ok track_set /\
  ~ TrackSet.min_length_ok (TrackSet.merge ts track_set).
Proof.
  cbn zeta. split; [|split].
  - intros h s x Hs. cbn in Hs. now rewrite lookup_empty in Hs.
  - change (TrackSet.all_at_least 0
              (TrackSet.mkTrackSet {[1 := [((0, 5), (1, tt))]]} 0)).
    intros h s x Hs Hx. cbn in Hs.
    apply lookup_singleton_Some in Hs as [<- <-].
    cbn in Hx. destruct Hx as [<-|[]]. cbn. lia.
  - intros Hok.
    specialize (Hok 1 [((0, 5), (1, tt))] ((0, 5), (1, tt))).
    cbn in Hok. assert (10 <= 5); [|lia].
    apply Hok; [vm_compute; reflexivity | now left].
Qed.

(** ** Track sets: the tracks that are left *)

Module TrackSetMoreFacts.
Section WithValue.
Context {V : Type}.
Import TrackSet.
Implicit Types (ts : TrackSet V).

Lemma insert_ordered_nonempty {W} (x : intv * W) (s : IntervalSet.t W) :
  IntervalSet.insert_ordered x s <> [].
Proof. destruct s as [|y s]; cbn; [|destruct (_ <? _)]; discriminate. Qed.

Lemma add_track_min_len ts hidx i width value :
  _min_len (add_track ts hidx i width value) = _min_len ts.
Proof. unfold add_track. destruct (_ >=? _); reflexivity. Qed.

Lemma subtract_min_len ts hidx i : _min_len (subtract ts hidx i) = _min_len ts.
Proof.
  unfold subtract. destruct (_tracks ts !! hidx); [|reflexivity].
  destruct (IntervalSet.subtract _ _). destruct (IntervalSet.is_empty _); reflexivity.
Qed.

(** [add_track] stores the track when the interval is long enough, and
    touches no other track. *)
Lemma add_track_is_Some ts hidx i width value h :
  is_Some (_tracks (add_track ts hidx i width value) !! h) <->
  (h = hidx /\ _min_len ts <= snd i - fst i) \/ is_Some (_tracks ts !! h).
Proof.
  unfold add_track. destruct (_ >=? _) eqn:Hlen; cbn.
  - apply Z.geb_le in Hlen. rewrite lookup_insert_is_Some'.
    split; [intros [->|?]; auto | intros [[-> _]|?]; auto].
  - rewrite Z.geb_leb in Hlen. apply Z.leb_gt in Hlen.
    split; [auto | intros [[_ ?]|?]; [lia | assumption]].
Qed.

(** [subtract] adds no track, and touches no other track. *)
Lemma subtract_is_Some ts hidx i h :
  is_Some (_tracks (subtract ts hidx i) !! h) -> is_Some (_tracks ts !! h).
Proof.
  unfold subtract. destruct (_tracks ts !! hidx) as [s|] eqn:Hs; [|auto].
  destruct (IntervalSet.subtract s i) as [s1 new_intvs].
  destruct (IntervalSet.is_empty _); cbn.
  - rewrite lookup_delete_is_Some. tauto.
  - rewrite lookup_insert_is_Some'. intros [<-|?]; [eauto | assumption].
Qed.

Lemma subtract_other ts hidx i h :
  h <> hidx -> _tracks (subtract ts hidx i) !! h = _tracks ts !! h.
Proof.
  intros Hne. unfold subtract. destruct (_tracks ts !! hidx) as [s|] eqn:Hs; [|auto].
  destruct (IntervalSet.subtract s i) as [s1 new_intvs].
  destruct (IntervalSet.is_empty _); cbn.
  - now rewrite lookup_delete_ne.
  - now rewrite lookup_insert_ne.
Qed.

Lemma add_track_no_empty ts hidx i width value :
  no_empty_track ts -> no_empty_track (add_track ts hidx i width value).
Proof.
  intros Hne h s. unfold add_track. destruct (_ >=? _); [cbn | apply Hne].
  intros [[<- <-]|[_ Hs]]%lookup_insert_Some; [|eapply Hne, Hs].
  unfold IntervalSet.add. apply insert_ordered_nonempty.
Qed.

Lemma subtract_no_empty ts hidx i :
  no_empty_track ts -> no_empty_track (subtract ts hidx i).
Proof.
  intros Hne h s. unfold subtract.
  destruct (_tracks ts !! hidx) as [s0|] eqn:Hs0; [|apply Hne].
  destruct (IntervalSet.subtract s0 i) as [s1 new_intvs].
  destruct (IntervalSet.is_empty _) eqn:Hempty; cbn.
  - intros [_ Hs]%lookup_delete_Some. eapply Hne, Hs.
  - intros [[<- <-]|[_ Hs]]%lookup_insert_Some; [|eapply Hne, Hs].
    intros E. rewrite E in Hempty. discriminate.
Qed.

(** [subtract] leaves no interval shorter than the minimum length. *)
Lemma subtract_min_length_ok ts hidx i :
  min_length_ok ts -> min_length_ok (subtract ts hidx i).
Proof.
  intros Hok. unfold min_length_ok, all_at_least in *. unfold subtract.
  destruct (_tracks ts !! hidx) as [s0|] eqn:Hs0; [|exact Hok].
  destruct (IntervalSet.subtract s0 i) as [s1 new_intvs] eqn:Hsub.
  assert (Hs1 : forall x,
            In x (fold_left (fun s j => if snd j - fst j <? _min_len ts
                                        then IntervalSet.remove s j else s)
                            new_intvs s1) ->
            _min_len ts <= snd (fst x) - fst (fst x)).
  { intros x Hx. apply TrackSetFacts.remove_short_In in Hx as [Hx Hnew].
    pose proof (TrackSetFacts.subtract_In s0 i x) as Hcases.
    rewrite Hsub in Hcases. cbn in Hcases.
    destruct (Hcases Hx); eauto. }
  destruct (IntervalSet.is_empty _); cbn; intros h s x Hs Hx.
  - apply lookup_delete_Some in Hs as [_ Hs]. eauto.
  - apply lookup_insert_Some in Hs as [[<- <-]|[_ Hs]]; eauto.
Qed.

(** [sorted(track_set.keys())]: the tracks of the set, each once, in
    increasing order. *)
Lemma sorted_keys_spec ts :
  StronglySorted Z.lt (sorted_keys ts) /\
  forall h, h ∈ sorted_keys ts <-> is_Some (_tracks ts !! h).
Proof.
  unfold sorted_keys.
  assert (Hnd : NoDup (merge_sort Z.le (map fst (map_to_list (_tracks ts))))).
  { rewrite merge_sort_Permutation. apply NoDup_fst_map_to_list. }
  assert (Hso : StronglySorted Z.le (merge_sort Z.le (map fst (map_to_list (_tracks ts)))))
    by (apply StronglySorted_merge_sort; apply _).
  split.
  - induction Hso as [|a l Hso IH Hall]; constructor.
    + apply IH. now apply NoDup_cons in Hnd as [_ ?].
    + apply NoDup_cons in Hnd as [Hnotin _].
      rewrite Forall_forall in *. intros x Hx. specialize (Hall x Hx).
      assert (x <> a) by (intros ->; contradiction). lia.
  - intros h. rewrite merge_sort_Permutation, list_elem_of_fmap. split.
    + intros ([h' s] & -> & Hin). apply elem_of_map_to_list in Hin. eauto.
    + intros [s Hs]. exists (h, s). split; [reflexivity|].
      now apply elem_of_map_to_list.
Qed.

End WithValue.
End TrackSetMoreFacts.

(** ** Power fill *)

Module PowerFillFacts.
Import PowerFill.

Lemma next_vdd_of_Ok k R V : V <> 0 -> next_vdd_of k R V = Ok (vdd_pos R V k).
Proof. intros H. unfold next_vdd_of, vdd_pos. apply floordiv_Ok. lia. Qed.

Lemma vdd_pos_mono R V k k' : 0 < V -> 0 <= R -> k <= k' -> vdd_pos R V k <= vdd_pos R V k'.
Proof. intros HV HR Hk. unfold vdd_pos. apply Z.div_le_mono; nia. Qed.

Lemma vdd_pos_step R V k : 0 < V -> V <= R -> vdd_pos R V k + 1 <= vdd_pos R V (k + 1).
Proof.
  intros HV HR. unfold vdd_pos.
  rewrite <- (Z.div_add _ 1 (2 * V)) by lia.
  apply Z.div_le_mono; nia.
Qed.

Lemma vdd_pos_last R V : 0 < V -> V < R -> vdd_pos R V (V - 1) < R.
Proof. intros HV HR. unfold vdd_pos. apply Z.div_lt_upper_bound; nia. Qed.

Lemma vdd_pos_beyond R V : 0 < V -> 0 <= R -> R <= vdd_pos R V V.
Proof. intros HV HR. unfold vdd_pos. apply Z.div_le_lower_bound; nia. Qed.

Lemma count_type_cons ty hidx ty' types :
  count_type ty ((hidx, ty') :: types) =
  (if bool_decide (ty' = ty) then 1 else 0) + count_type ty types.
Proof. unfold count_type. cbn. destruct (bool_decide _); cbn; lia. Qed.

Lemma count_tagged_cons sup_type ty hidx l :
  count_tagged sup_type ty (hidx :: l) =
  (if bool_decide (sup_type !! hidx = Some ty) then 1 else 0) + count_tagged sup_type ty l.
Proof. unfold count_tagged. cbn. destruct (bool_decide _); cbn; lia. Qed.

Lemma untagged_cons sup_type hidx l :
  untagged sup_type (hidx :: l) =
  (if bool_decide (sup_type !! hidx = None) then 1 else 0) + untagged sup_type l.
Proof. unfold untagged. cbn. destruct (bool_decide _); cbn; lia. Qed.

Lemma untagged_nonneg sup_type l : 0 <= untagged sup_type l.
Proof. unfold untagged. lia. Qed.

(** With tags that are all VDD or VSS, [remaining_tot] is the number of
    tracks without a tag. *)
Lemma untagged_remaining sup_type l :
  supply_tags sup_type ->
  Z.of_nat (length l) =
  count_tagged sup_type VDD l + count_tagged sup_type VSS l + untagged sup_type l.
Proof.
  intros Htags. induction l as [|hidx l IH].
  - reflexivity.
  - rewrite !count_tagged_cons, untagged_cons. cbn [length].
    destruct (sup_type !! hidx) as [ty|] eqn:Hty.
    + destruct (Htags _ _ Hty) as [-> | ->];
        repeat case_bool_decide; try lia; exfalso; unfold VDD, VSS in *; congruence.
    + repeat case_bool_decide; try lia; exfalso; congruence.
Qed.

(** The loop returns a type for every track, in the order of the list, and
    the type of a tagged track is its tag. *)
Lemma assign_loop_tags sup_type R V todo : forall k next_vdd cur_idx types,
  assign_loop sup_type R V todo k next_vdd cur_idx = Ok types ->
  map fst types = todo /\
  forall hidx ty ty', In (hidx, ty) types -> sup_type !! hidx = Some ty' -> ty = ty'.
Proof.
  induction todo as [|hidx todo IH]; intros k next_vdd cur_idx types H; cbn in H.
  - injection H as <-. split; [reflexivity | intros ? ? ? []].
  - destruct (sup_type !! hidx) as [cur_type|] eqn:Hty.
    + apply bind_Ok in H as (rest & Hrest & H). injection H as <-.
      apply IH in Hrest as [Hfst Htag]. cbn. split; [now f_equal|].
      intros h ty ty' [[= <- <-]|Hin] Hs; [congruence | eauto].
    + destruct (cur_idx =? next_vdd).
      * apply bind_Ok in H as (nv & _ & H).
        apply bind_Ok in H as (rest & Hrest & H). injection H as <-.
        apply IH in Hrest as [Hfst Htag]. cbn. split; [now f_equal|].
        intros h ty ty' [[= <- <-]|Hin] Hs; [congruence | eauto].
      * apply bind_Ok in H as (rest & Hrest & H). injection H as <-.
        apply IH in Hrest as [Hfst Htag]. cbn. split; [now f_equal|].
        intros h ty ty' [[= <- <-]|Hin] Hs; [congruence | eauto].
Qed.

(** With [0 < remaining_vdd < remaining_tot] the loop does not fail; it
    takes the VDD positions one after the other.  [k'] is the number of
    VDD positions at or before the end of the list. *)
Lemma assign_loop_counts sup_type R V todo :
  0 < V -> V < R ->
  forall k cur_idx,
    (k = 0 \/ vdd_pos R V (k - 1) < cur_idx) -> cur_idx <= vdd_pos R V k ->
    exists types k',
      assign_loop sup_type R V todo k (vdd_pos R V k) cur_idx = Ok types /\
      k <= k' /\
      (k' = 0 \/ vdd_pos R V (k' - 1) < cur_idx + untagged sup_type todo) /\
      cur_idx + untagged sup_type todo <= vdd_pos R V k' /\
      count_type VDD types = count_tagged sup_type VDD todo + (k' - k) /\
      count_type VSS types =
        count_tagged sup_type VSS todo + (untagged sup_type todo - (k' - k)).
Proof.
  intros HV HR.
  induction todo as [|hidx todo IH]; intros k cur_idx Hlo Hhi.
  - exists [], k. cbn. unfold untagged, count_type, count_tagged. cbn.
    rewrite Z.add_0_r. repeat split; try assumption; lia.
  - cbn [assign_loop]. rewrite !count_tagged_cons, untagged_cons.
    destruct (sup_type !! hidx) as [cur_type|] eqn:Hty.
    + destruct (IH k cur_idx Hlo Hhi) as (rest & k' & Hrest & Hk & Hlo' & Hhi' & Hd & Hs).
      exists ((hidx, cur_type) :: rest), k'. rewrite Hrest. cbn [mbind result_bind Py.bind].
      rewrite !count_type_cons.
      rewrite (bool_decide_ext (Some cur_type = Some VDD) (cur_type = VDD)) by (split; congruence).
      rewrite (bool_decide_ext (Some cur_type = Some VSS) (cur_type = VSS)) by (split; congruence).
      replace (bool_decide (Some cur_type = None)) with false
        by (symmetry; apply bool_decide_eq_false; discriminate).
      repeat split; try assumption; lia.
    + replace (bool_decide (None = Some VDD)) with false
        by (symmetry; apply bool_decide_eq_false; discriminate).
      replace (bool_decide (None = Some VSS)) with false
        by (symmetry; apply bool_decide_eq_false; discriminate).
      replace (bool_decide (@None string = None)) with true
        by (symmetry; apply bool_decide_eq_true; reflexivity).
      destruct (cur_idx =? vdd_pos R V k) eqn:Hat.
      * apply Z.eqb_eq in Hat.
        rewrite next_vdd_of_Ok by lia. cbn [mbind result_bind Py.bind].
        pose proof (vdd_pos_step R V k HV ltac:(lia)) as Hstep.
        destruct (IH (k + 1) (cur_idx + 1)) as (rest & k' & Hrest & Hk & Hlo' & Hhi' & Hd & Hs).
        { right. replace (k + 1 - 1) with k by lia. lia. }
        { lia. }
        exists ((hidx, VDD) :: rest), k'. rewrite Hrest. cbn [mbind result_bind Py.bind].
        rewrite !count_type_cons.
        replace (bool_decide (VDD = VDD)) with true by reflexivity.
        replace (bool_decide (VDD = VSS)) with false by reflexivity.
        repeat split; lia.
      * apply Z.eqb_neq in Hat.
        destruct (IH k (cur_idx + 1)) as (rest & k' & Hrest & Hk & Hlo' & Hhi' & Hd & Hs).
        { destruct Hlo; [now left | right; lia]. }
        { lia. }
        exists ((hidx, VSS) :: rest), k'. rewrite Hrest. cbn [mbind result_bind Py.bind].
        rewrite !count_type_cons.
        replace (bool_decide (VSS = VDD)) with false by reflexivity.
        replace (bool_decide (VSS = VSS)) with true by reflexivity.
        repeat split; lia.
Qed.

(** *** The tags set by the subtraction loops are supply tags *)

Lemma is_supply_true fill_type : is_supply fill_type = true -> fill_type = VDD \/ fill_type = VSS.
Proof.
  unfold is_supply. intros H. apply orb_true_iff in H as [H|H];
    apply bool_decide_eq_true in H; auto.
Qed.

Lemma assign_if_free_tags sup_type sub_idx fill_type :
  supply_tags sup_type -> is_supply fill_type = true ->
  supply_tags (assign_if_free sup_type sub_idx fill_type).
Proof.
  intros Htags Hsup. unfold assign_if_free.
  destruct (sup_type !! sub_idx); [assumption|].
  intros hidx ty Hty. apply lookup_insert_Some in Hty as [[_ <-]|[_ Hty]].
  - now apply is_supply_true.
  - eapply Htags, Hty.
Qed.

Lemma subtract_range_tags st hidx0 hidx1 sub_intv fill_type :
  supply_tags (snd st) ->
  supply_tags (snd (subtract_range st hidx0 hidx1 sub_intv fill_type)).
Proof.
  unfold subtract_range. generalize (range hidx0 (hidx1 + 1) 1). intros l.
  revert st. induction l as [|sub_idx l IH]; intros st Htags; cbn; [assumption|].
  apply IH. cbn. destruct (is_supply fill_type) eqn:Hsup; [|assumption].
  now apply assign_if_free_tags.
Qed.

Lemma assign_adjacent_tags st idxs fill_type :
  supply_tags (snd st) -> is_supply fill_type = true ->
  supply_tags (snd (assign_adjacent st idxs fill_type)).
Proof.
  intros Htags Hsup. unfold assign_adjacent.
  destruct (List.find _ idxs); [|assumption]. cbn. now apply assign_if_free_tags.
Qed.

Lemma subtract_wire_tags g layer_id sup_width fill_margin max_fill_hidx st hidx wire st' :
  supply_tags (snd st) ->
  subtract_wire g layer_id sup_width fill_margin max_fill_hidx st hidx wire = Ok st' ->
  supply_tags (snd st').
Proof.
  intros Htags H. unfold subtract_wire in H.
  destruct wire as [[wstart wstop] [wwidth [[fmargin fill_type]|]]]; [|discriminate].
  apply bind_Ok in H as ([cbeg cend] & _ & H).
  apply bind_Ok in H as ([[idx0 idx1]|] & _ & H); [|discriminate].
  destruct (is_supply fill_type) eqn:Hsup; injection H as <-.
  - repeat apply assign_adjacent_tags; try assumption. now apply subtract_range_tags.
  - now apply subtract_range_tags.
Qed.

Lemma subtract_wires_tags g layer_id sup_width fill_margin max_fill_hidx hidx wires :
  forall st st',
    supply_tags (snd st) ->
    subtract_wires g layer_id sup_width fill_margin max_fill_hidx st hidx wires = Ok st' ->
    supply_tags (snd st').
Proof.
  induction wires as [|wire wires IH]; intros st st' Htags H; cbn in H.
  - now injection H as <-.
  - apply bind_Ok in H as (st1 & Hwire & H).
    eapply IH; [|exact H]. eapply subtract_wire_tags; eassumption.
Qed.

Lemma subtract_used_tags g layer_id sup_width fill_margin max_fill_hidx track_items :
  forall st st',
    supply_tags (snd st) ->
    subtract_used g layer_id sup_width fill_margin max_fill_hidx st track_items = Ok st' ->
    supply_tags (snd st').
Proof.
  induction track_items as [|[hidx intv_set] track_items IH]; intros st st' Htags H; cbn in H.
  - now injection H as <-.
  - apply bind_Ok in H as (st1 & Hwires & H).
    eapply IH; [|exact H]. eapply subtract_wires_tags; eassumption.
Qed.

(** The tags that [get_power_fill_tracks] hands to its allocation are all
    ['VDD'] or ['VSS']. *)
Lemma remaining_fill_tracks_tags g blk_width blk_height layer_id track_items
    sup_width fill_margin edge_margin sup_spacing sp_min_unit min_length st :
  remaining_fill_tracks g blk_width blk_height layer_id track_items
    sup_width fill_margin edge_margin sup_spacing sp_min_unit min_length = Ok st ->
  supply_tags (snd st).
Proof.
  unfold remaining_fill_tracks. intros H.
  apply bind_Ok in H as (dir & _ & H).
  destruct (decide (dir = Grid.X));
    apply bind_Ok in H as (ns & _ & H);
    apply bind_Ok in H as (ns' & _ & H);
    apply bind_Ok in H as ([[t0 t1]|] & _ & H); try discriminate;
    destruct (_ =? 0); try discriminate;
    destruct (last _); try discriminate;
    (eapply subtract_used_tags; [|exact H]);
    intros hidx ty Hty; cbn in Hty; now rewrite lookup_empty in Hty.
Qed.

(** A wire of [vdd_warr_list] belongs to a track that was given ['VDD'], a
    wire of [vss_warr_list] to a track that was given another type. *)
Lemma emit_In vdd fill_track_set types : forall wires hidx i,
  emit vdd fill_track_set types = Ok wires -> In (hidx, i) wires ->
  exists ty, In (hidx, ty) types /\ bool_decide (ty = VDD) = vdd.
Proof.
  induction types as [|[h ty] types IH]; intros wires hidx i H Hin; cbn in H.
  - injection H as <-. destruct Hin.
  - apply bind_Ok in H as (acc & Hacc & H). cbn [fst snd] in H.
    destruct (eqb (bool_decide (ty = VDD)) vdd) eqn:Hty.
    + apply bind_Ok in H as (intv_set & _ & H). injection H as <-.
      apply in_app_or in Hin as [Hin|Hin].
      * apply in_map_iff in Hin as (j & [= <- <-] & _).
        exists ty. split; [now left | now apply eqb_prop].
      * destruct (IH _ _ _ Hacc Hin) as (ty' & Hin' & Hty'). exists ty'. split; [now right | assumption].
    + injection H as <-.
      destruct (IH _ _ _ Hacc Hin) as (ty' & Hin' & Hty'). exists ty'. split; [now right | assumption].
Qed.

End PowerFillFacts.

(** *** The wires of the result *)

Module EmitFacts.
Import Grid TrackSet PowerFill TrackSetMoreFacts PowerFillFacts.

(** The subtraction loops leave no fill track without an interval. *)
Lemma subtract_range_no_empty st hidx0 hidx1 sub_intv fill_type :
  no_empty_track (fst st) ->
  no_empty_track (fst (subtract_range st hidx0 hidx1 sub_intv fill_type)).
Proof.
  unfold subtract_range. generalize (range hidx0 (hidx1 + 1) 1). intros l.
  revert st. induction l as [|sub_idx l IH]; intros st Hne; cbn; [assumption|].
  apply IH. cbn. now apply subtract_no_empty.
Qed.

Lemma assign_adjacent_fst st idxs fill_type :
  fst (assign_adjacent st idxs fill_type) = fst st.
Proof. unfold assign_adjacent. destruct (List.find _ idxs); reflexivity. Qed.

Lemma subtract_wire_no_empty g layer_id sup_width fill_margin max_fill_hidx st hidx wire st' :
  no_empty_track (fst st) ->
  subtract_wire g layer_id sup_width fill_margin max_fill_hidx st hidx wire = Ok st' ->
  no_empty_track (fst st').
Proof.
  intros Hne H. unfold subtract_wire in H.
  destruct wire as [[wstart wstop] [wwidth [[fmargin fill_type]|]]]; [|discriminate].
  apply bind_Ok in H as ([cbeg cend] & _ & H).
  apply bind_Ok in H as ([[idx0 idx1]|] & _ & H); [|discriminate].
  destruct (is_supply fill_type) eqn:Hsup; injection H as <-.
  - rewrite !assign_adjacent_fst. now apply subtract_range_no_empty.
  - now apply subtract_range_no_empty.
Qed.

Lemma subtract_wires_no_empty g layer_id sup_width fill_margin max_fill_hidx hidx wires :
  forall st st',
    no_empty_track (fst st) ->
    subtract_wires g layer_id sup_width fill_margin max_fill_hidx st hidx wires = Ok st' ->
    no_empty_track (fst st').
Proof.
  induction wires as [|wire wires IH]; intros st st' Hne H; cbn in H.
  - now injection H as <-.
  - apply bind_Ok in H as (st1 & Hwire & H).
    eapply IH; [|exact H]. eapply subtract_wire_no_empty; eassumption.
Qed.

Lemma subtract_used_no_empty g layer_id sup_width fill_margin max_fill_hidx track_items :
  forall st st',
    no_empty_track (fst st) ->
    subtract_used g layer_id sup_width fill_margin max_fill_hidx st track_items = Ok st' ->
    no_empty_track (fst st').
Proof.
  induction track_items as [|[hidx intv_set] track_items IH]; intros st st' Hne H; cbn in H.
  - now injection H as <-.
  - apply bind_Ok in H as (st1 & Hwires & H).
    eapply IH; [|exact H]. eapply subtract_wires_no_empty; eassumption.
Qed.

Lemma add_tracks_no_empty (l : list Z) i width :
  forall ts : TrackSet track_value,
    no_empty_track ts ->
    no_empty_track (fold_left (fun ts hidx => add_track ts hidx i width None) l ts).
Proof.
  induction l as [|h l IH]; intros ts Hne; cbn; [assumption|].
  apply IH. now apply add_track_no_empty.
Qed.

(** Every fill track that [get_power_fill_tracks] hands to its allocation
    has an interval left. *)
Lemma remaining_fill_tracks_no_empty g blk_width blk_height layer_id track_items
    sup_width fill_margin edge_margin sup_spacing sp_min_unit min_length st :
  remaining_fill_tracks g blk_width blk_height layer_id track_items
    sup_width fill_margin edge_margin sup_spacing sp_min_unit min_length = Ok st ->
  no_empty_track (fst st).
Proof.
  unfold remaining_fill_tracks. intros H.
  apply bind_Ok in H as (dir & _ & H).
  destruct (decide (dir = Grid.X));
    apply bind_Ok in H as (ns & _ & H);
    apply bind_Ok in H as (ns' & _ & H);
    apply bind_Ok in H as ([[t0 t1]|] & _ & H); try discriminate;
    destruct (_ =? 0); try discriminate;
    destruct (last _); try discriminate;
    (eapply subtract_used_no_empty; [|exact H]);
    cbn [fst]; apply add_tracks_no_empty;
    intros hidx s Hs; cbn in Hs; now rewrite lookup_empty in Hs.
Qed.

(** [emit] succeeds on the tracks of the set; its wires are the intervals
    of the tracks of its type. *)
Lemma emit_spec vdd (fill_track_set : TrackSet track_value) types :
  (forall x, In x types -> is_Some (_tracks fill_track_set !! fst x)) ->
  exists wires,
    emit vdd fill_track_set types = Ok wires /\
    forall hidx i,
      In (hidx, i) wires <->
      exists ty intv_set,
        In (hidx, ty) types /\ bool_decide (ty = VDD) = vdd /\
        _tracks fill_track_set !! hidx = Some intv_set /\
        In i (IntervalSet.intervals intv_set).
Proof.
  induction types as [|[h ty] types IH]; intros Hkeys.
  - exists []. split; [reflexivity|]. intros hidx i. split; [intros []|].
    intros (? & ? & [] & _).
  - destruct IH as (acc & Hacc & Hin); [intros x Hx; apply Hkeys; now right|].
    cbn [emit foldr]. fold (emit vdd fill_track_set types). rewrite Hacc.
    cbn [mbind result_bind Py.bind fst snd].
    destruct (Hkeys (h, ty) ltac:(now left)) as [s Hs]. cbn [fst] in Hs.
    destruct (eqb (bool_decide (ty = VDD)) vdd) eqn:Hty.
    + unfold getitem. rewrite Hs. cbn [mbind result_bind Py.bind].
      eexists. split; [reflexivity|]. intros hidx i. rewrite in_app_iff, Hin, in_map_iff.
      split.
      * intros [(j & [= <- <-] & Hj)|(ty' & s' & Hin' & Hd & Hs' & Hi)].
        -- exists ty, s. split; [now left|]. split; [now apply eqb_prop|]. auto.
        -- exists ty', s'. split; [now right|]. auto.
      * intros (ty' & s' & [[= <- <-]|Hin'] & Hd & Hs' & Hi).
        -- left. exists i. split; [reflexivity|]. congruence.
        -- right. exists ty', s'. auto.
    + exists acc. split; [reflexivity|]. intros hidx i. rewrite Hin. split.
      * intros (ty' & s' & Hin' & Hd & Hs' & Hi). exists ty', s'. split; [now right|]. auto.
      * intros (ty' & s' & [[= <- <-]|Hin'] & Hd & Hs' & Hi).
        -- rewrite Hd in Hty. now destruct vdd.
        -- exists ty', s'. auto.
Qed.

(** The tracks of the wires of [emit]: the tracks of its type. *)
Lemma emit_tracks vdd (fill_track_set : TrackSet track_value) types wires :
  no_empty_track fill_track_set ->
  (forall x, In x types -> is_Some (_tracks fill_track_set !! fst x)) ->
  emit vdd fill_track_set types = Ok wires ->
  forall hidx,
    hidx ∈ emitted_tracks wires <->
    exists ty, In (hidx, ty) types /\ bool_decide (ty = VDD) = vdd.
Proof.
  intros Hne Hkeys Hemit hidx.
  destruct (emit_spec vdd fill_track_set types Hkeys) as (wires' & Hemit' & Hin).
  rewrite Hemit in Hemit'. injection Hemit' as <-.
  unfold emitted_tracks. rewrite elem_of_list_to_set, list_elem_of_In, in_map_iff. split.
  - intros ([h i] & <- & Hi). apply Hin in Hi as (ty & s & Hty & Hd & _). eauto.
  - intros (ty & Hty & Hd).
    destruct (Hkeys _ Hty) as [s Hs]. cbn [fst] in Hs.
    pose proof (Hne _ _ Hs) as Hnil.
    destruct s as [|[i v] s]; [contradiction|].
    exists (hidx, i). split; [reflexivity|]. apply Hin.
    exists ty, ((i, v) :: s). split; [assumption|]. split; [assumption|].
    split; [assumption|]. now left.
Qed.

(** The number of tracks of the wires of [emit]. *)
Lemma emit_size vdd (fill_track_set : TrackSet track_value) types wires :
  no_empty_track fill_track_set ->
  (forall x, In x types -> is_Some (_tracks fill_track_set !! fst x)) ->
  NoDup (map fst types) ->
  emit vdd fill_track_set types = Ok wires ->
  size (emitted_tracks wires)
  = length (List.filter (fun x => eqb (bool_decide (snd x = VDD)) vdd) types).
Proof.
  intros Hne Hkeys Hnd Hemit.
  pose proof (emit_tracks vdd fill_track_set types wires Hne Hkeys Hemit) as Htr.
  assert (Hset : emitted_tracks wires
                 = list_to_set (map fst (List.filter
                     (fun x => eqb (bool_decide (snd x = VDD)) vdd) types))).
  { apply set_eq. intros hidx. rewrite Htr, elem_of_list_to_set, list_elem_of_In, in_map_iff.
    split.
    - intros (ty & Hin & Hd). exists (hidx, ty). split; [reflexivity|].
      apply filter_In. split; [assumption|]. cbn. rewrite Hd. now destruct vdd.
    - intros ([h ty] & <- & Hf). apply filter_In in Hf as [Hin Hd]. cbn in *.
      exists ty. split; [assumption | now apply eqb_prop]. }
  rewrite Hset, size_list_to_set, length_map; [reflexivity|].
  clear -Hnd. induction types as [|x types IH]; cbn; [constructor|].
  inversion Hnd as [|? ? Hx Hnd']; subst.
  destruct (eqb _ _); [|now apply IH]. cbn. constructor; [|now apply IH].
  intros Hin. apply Hx. apply list_elem_of_In in Hin. apply list_elem_of_In.
  apply in_map_iff in Hin as (y & Hy & Hf). apply filter_In in Hf as [Hf _].
  apply in_map_iff. eauto.
Qed.

(** A list with distinct first components gives one second component. *)
Lemma NoDup_fst_fun {A B} (l : list (A * B)) x y1 y2 :
  NoDup (map fst l) -> In (x, y1) l -> In (x, y2) l -> y1 = y2.
Proof.
  induction l as [|[a b] l IH]; intros Hnd H1 H2; [destruct H1|].
  cbn in Hnd. inversion Hnd as [|? ? Ha Hnd']; subst.
  assert (Hnot : forall y, In (a, y) l -> False).
  { intros y Hy. apply Ha, list_elem_of_In, in_map_iff. exists (a, y). auto. }
  destruct H1 as [E1|H1], H2 as [E2|H2].
  - congruence.
  - injection E1 as -> _. destruct (Hnot _ H2).
  - injection E2 as -> _. destruct (Hnot _ H1).
  - now apply IH.
Qed.

(** The allocation returns one type for every track, and keeps the tags. *)
Lemma assign_supply_keeps l sup_type types :
  assign_supply l sup_type = Ok types ->
  map fst types = l /\
  forall hidx ty ty', In (hidx, ty) types -> sup_type !! hidx = Some ty' -> ty = ty'.
Proof.
  intros H. unfold assign_supply in H.
  apply bind_Ok in H as (next_vdd & _ & H).
  eapply assign_loop_tags, H.
Qed.

(** With room in both quotas the allocation splits the tracks into
    [floor(total / 2)] VDD tracks and [ceil(total / 2)] VSS tracks. *)
Lemma assign_supply_balanced fill_hidx_list sup_type :
  let tot_cnt := Z.of_nat (length fill_hidx_list) in
  supply_tags sup_type ->
  count_tagged sup_type VDD fill_hidx_list < tot_cnt / 2 ->
  count_tagged sup_type VSS fill_hidx_list < tot_cnt - tot_cnt / 2 ->
  exists types,
    assign_supply fill_hidx_list sup_type = Ok types /\
    count_type VDD types = tot_cnt / 2 /\
    count_type VSS types = tot_cnt - tot_cnt / 2.
Proof.
  intros tot_cnt Htags Hvdd Hvss.
  pose proof (untagged_remaining sup_type fill_hidx_list Htags) as Htot.
  fold tot_cnt in Htot.
  unfold assign_supply. fold tot_cnt.
  set (vdd_cnt := count_tagged sup_type VDD fill_hidx_list) in *.
  set (vss_cnt := count_tagged sup_type VSS fill_hidx_list) in *.
  set (R := tot_cnt - vdd_cnt - vss_cnt).
  set (V := R - Z.max (tot_cnt - tot_cnt / 2 - vss_cnt) 0).
  assert (HR : R = untagged sup_type fill_hidx_list) by (unfold R; lia).
  assert (HV : V = tot_cnt / 2 - vdd_cnt) by (unfold V, R; lia).
  assert (HV0 : 0 < V) by lia.
  assert (HVR : V < R) by (unfold V; lia).
  rewrite next_vdd_of_Ok by lia. cbn [mbind result_bind Py.bind].
  destruct (assign_loop_counts sup_type R V fill_hidx_list HV0 HVR 0 0)
    as (types & k' & Hloop & Hk & Hlo & Hhi & Hd & Hs).
  { now left. }
  { unfold vdd_pos. apply Z.div_le_lower_bound; lia. }
  rewrite <- HR in *. rewrite Z.add_0_l in Hlo, Hhi.
  assert (Hk' : k' = V).
  { assert (R <= vdd_pos R V V) by (apply vdd_pos_beyond; lia).
    assert (vdd_pos R V (V - 1) < R) by (apply vdd_pos_last; lia).
    destruct (Z_lt_le_dec k' V) as [Hlt|Hge].
    - pose proof (vdd_pos_mono R V k' (V - 1)). lia.
    - destruct Hlo as [->|Hlo]; [lia|].
      destruct (Z_lt_le_dec V k') as [Hgt|?]; [|lia].
      pose proof (vdd_pos_mono R V V (k' - 1)). lia. }
  exists types. split; [exact Hloop|].
  fold vdd_cnt in Hd. fold vss_cnt in Hs.
  split; lia.
Qed.

(** The tracks of a type and the others make up the list. *)
Lemma filter_split {A} (P : A -> bool) (l : list A) :
  (length (List.filter P l) + length (List.filter (fun x => negb (P x)) l) = length l)%nat.
Proof. induction l as [|x l IH]; cbn; [reflexivity|]. destruct (P x); cbn; lia. Qed.

End EmitFacts.

(** C2 (as the code has it).  Let [get_power_fill_tracks] reach its
    allocation with the fill tracks [fill_track_set] and the inherited tags
    [sup_type].  Whenever it returns, its two lists hold the intervals of the
    fill tracks and nothing else, every fill track is emitted, in one list
    only, and a fill track with an inherited tag is in the list of this tag.
    When the inherited tags leave room in both quotas (fewer VDD tags than
    [floor(total / 2)], fewer VSS tags than [ceil(total / 2)]), the call
    returns, and it emits [floor(total / 2)] VDD tracks and
    [ceil(total / 2)] VSS tracks, so that the two numbers differ by at most
    1. *)
Theorem supply_assignment_balanced
    (g : Grid.RoutingGrid) (blk_width blk_height layer_id : Z)
    (track_items : list (Z * IntervalSet.t (Z * PowerFill.track_value)))
    (sup_width fill_margin edge_margin sup_spacing sp_min_unit min_length : Z)
    (fill_track_set : TrackSet.TrackSet PowerFill.track_value)
    (sup_type : gmap Z string) :
  PowerFill.remaining_fill_tracks g blk_width blk_height layer_id track_items
    sup_width fill_margin edge_margin sup_spacing sp_min_unit min_length
    = Ok (fill_track_set, sup_type) ->
  let fill_hidx_list := TrackSet.sorted_keys fill_track_set in
  let tot_cnt := Z.of_nat (length fill_hidx_list) in
  let power_fill :=
    PowerFill.get_power_fill_tracks g blk_width blk_height layer_id track_items
      sup_width fill_margin edge_margin sup_spacing sp_min_unit min_length in
  (forall vdd_warr_list vss_warr_list,
     power_fill = Ok (vdd_warr_list, vss_warr_list) ->
     (forall hidx i,
        In (hidx, i) (vdd_warr_list ++ vss_warr_list) <->
        exists intv_set,
          TrackSet._tracks fill_track_set !! hidx = Some intv_set /\
          In i (IntervalSet.intervals intv_set)) /\
     (forall hidx,
        hidx ∈ fill_hidx_list <->
        hidx ∈ PowerFill.emitted_tracks vdd_warr_list \/
        hidx ∈ PowerFill.emitted_tracks vss_warr_list) /\
     PowerFill.emitted_tracks vdd_warr_list ## PowerFill.emitted_tracks vss_warr_list /\
     (forall hidx,
        hidx ∈ fill_hidx_list ->
        (sup_type !! hidx = Some PowerFill.VDD ->
         hidx ∈ PowerFill.emitted_tracks vdd_warr_list) /\
        (sup_type !! hidx = Some PowerFill.VSS ->
         hidx ∈ PowerFill.emitted_tracks vss_warr_list))) /\
  (PowerFill.count_tagged sup_type PowerFill.VDD fill_hidx_list < tot_cnt / 2 ->
   PowerFill.count_tagged sup_type PowerFill.VSS fill_hidx_list < tot_cnt - tot_cnt / 2 ->
   exists vdd_warr_list vss_warr_list,
     power_fill = Ok (vdd_warr_list, vss_warr_list) /\
     Z.of_nat (size (PowerFill.emitted_tracks vdd_warr_list)) = tot_cnt / 2 /\
     Z.of_nat (size (PowerFill.emitted_tracks vss_warr_list)) = tot_cnt - tot_cnt / 2 /\
     Z.abs (Z.of_nat (size (PowerFill.emitted_tracks vdd_warr_list))
            - Z.of_nat (size (PowerFill.emitted_tracks vss_warr_list))) <= 1).
Proof.
  intros Hrem fill_hidx_list tot_cnt power_fill.
  pose proof (PowerFillFacts.remaining_fill_tracks_tags _ _ _ _ _ _ _ _ _ _ _ _ Hrem)
    as Htags.
  pose proof (EmitFacts.remaining_fill_tracks_no_empty _ _ _ _ _ _ _ _ _ _ _ _ Hrem)
    as Hne.
  cbn [fst snd] in Htags, Hne.
  destruct (TrackSetMoreFacts.sorted_keys_spec fill_track_set) as [Hsorted Hkeys].
  fold fill_hidx_list in Hsorted, Hkeys.
  assert (Hnd : NoDup fill_hidx_list).
  { unfold fill_hidx_list, TrackSet.sorted_keys.
    rewrite merge_sort_Permutation. apply NoDup_fst_map_to_list. }
  assert (Hpf : power_fill =
                 (types ← PowerFill.assign_supply fill_hidx_list sup_type;
                  vdd_warr_list ← PowerFill.emit true fill_track_set types;
                  vss_warr_list ← PowerFill.emit false fill_track_set types;
                  Ok (vdd_warr_list, vss_warr_list))).
  { unfold power_fill, PowerFill.get_power_fill_tracks. rewrite Hrem. reflexivity. }
  (* what the result is made of, for any types that the allocation returns *)
  assert (Hemit : forall types,
            PowerFill.assign_supply fill_hidx_list sup_type = Ok types ->
            map fst types = fill_hidx_list /\
            (forall x, In x types -> is_Some (TrackSet._tracks fill_track_set !! fst x)) /\
            exists vdd vss,
              PowerFill.emit true fill_track_set types = Ok vdd /\
              PowerFill.emit false fill_track_set types = Ok vss /\
              power_fill = Ok (vdd, vss)).
  { intros types Htypes.
    destruct (EmitFacts.assign_supply_keeps _ _ _ Htypes) as [Hfst _].
    assert (Hin : forall x, In x types ->
                    is_Some (TrackSet._tracks fill_track_set !! fst x)).
    { intros x Hx. apply Hkeys. rewrite <- Hfst. apply list_elem_of_In.
      now apply in_map. }
    split; [assumption|]. split; [assumption|].
    destruct (EmitFacts.emit_spec true fill_track_set types Hin) as (vdd & Hvdd & _).
    destruct (EmitFacts.emit_spec false fill_track_set types Hin) as (vss & Hvss & _).
    exists vdd, vss. split; [assumption|]. split; [assumption|].
    rewrite Hpf, Htypes. cbn [mbind result_bind Py.bind].
    rewrite Hvdd. cbn [mbind result_bind Py.bind]. rewrite Hvss. reflexivity. }
  split.
  - intros vdd_warr_list vss_warr_list Hget.
    destruct (PowerFill.assign_supply fill_hidx_list sup_type) as [types|] eqn:Htypes;
      [|rewrite Hpf in Hget; discriminate].
    destruct (Hemit types eq_refl) as (Hfst & Hin & vdd & vss & Hvdd & Hvss & Hget').
    rewrite Hget in Hget'. injection Hget' as <- <-.
    destruct (EmitFacts.assign_supply_keeps _ _ _ Htypes) as [_ Hkeep].
    pose proof (EmitFacts.emit_tracks true _ _ _ Hne Hin Hvdd) as Htv.
    pose proof (EmitFacts.emit_tracks false _ _ _ Hne Hin Hvss) as Hts.
    assert (Htyped : forall hidx, hidx ∈ fill_hidx_list <-> exists ty, In (hidx, ty) types).
    { intros hidx. rewrite <- Hfst, list_elem_of_In, in_map_iff. split.
      - intros ([h ty] & <- & Hx). eauto.
      - intros (ty & Hx). exists (hidx, ty). auto. }
    assert (Hfun : forall hidx ty ty',
              In (hidx, ty) types -> In (hidx, ty') types -> ty = ty').
    { intros hidx ty ty' H1 H2. rewrite <- Hfst in Hnd.
      eapply EmitFacts.NoDup_fst_fun; eassumption. }
    split; [|split; [|split]].
    + intros hidx i.
      destruct (EmitFacts.emit_spec true fill_track_set types Hin) as (vdd' & Hvdd' & Hwv).
      destruct (EmitFacts.emit_spec false fill_track_set types Hin) as (vss' & Hvss' & Hws).
      rewrite Hvdd in Hvdd'. injection Hvdd' as <-.
      rewrite Hvss in Hvss'. injection Hvss' as <-.
      rewrite in_app_iff, Hwv, Hws. split.
      * intros [(ty & s & _ & _ & Hs & Hi)|(ty & s & _ & _ & Hs & Hi)]; eauto.
      * intros (s & Hs & Hi).
        assert (Hh : hidx ∈ fill_hidx_list) by (apply Hkeys; eauto).
        apply Htyped in Hh as [ty Hty].
        destruct (bool_decide (ty = PowerFill.VDD)) eqn:Hd; [left | right];
          exists ty, s; auto.
    + intros hidx. rewrite Htv, Hts, Htyped. split.
      * intros [ty Hty].
        destruct (bool_decide (ty = PowerFill.VDD)) eqn:Hd; [left | right]; eauto.
      * intros [(ty & Hty & _)|(ty & Hty & _)]; eauto.
    + intros hidx Hv Hs. apply Htv in Hv as (ty & Hty & Hd).
      apply Hts in Hs as (ty' & Hty' & Hd').
      rewrite (Hfun _ _ _ Hty Hty') in Hd. congruence.
    + intros hidx Hh. apply Htyped in Hh as [ty Hty]. split; intros Htag.
      * apply Htv. exists ty. split; [assumption|].
        rewrite (Hkeep _ _ _ Hty Htag). reflexivity.
      * apply Hts. exists ty. split; [assumption|].
        rewrite (Hkeep _ _ _ Hty Htag). reflexivity.
  - intros Hroom_vdd Hroom_vss.
    destruct (EmitFacts.assign_supply_balanced fill_hidx_list sup_type Htags
                Hroom_vdd Hroom_vss) as (types & Htypes & Hcv & Hcs).
    fold tot_cnt in Hcv, Hcs.
    destruct (Hemit types Htypes) as (Hfst & Hin & vdd & vss & Hvdd & Hvss & Hget).
    exists vdd, vss. split; [assumption|].
    assert (Hnd' : NoDup (map fst types)) by (rewrite Hfst; assumption).
    pose proof (EmitFacts.emit_size true _ _ _ Hne Hin Hnd' Hvdd) as Hsv.
    pose proof (EmitFacts.emit_size false _ _ _ Hne Hin Hnd' Hvss) as Hss.
    pose proof (EmitFacts.filter_split
                  (fun x : Z * string => bool_decide (snd x = PowerFill.VDD)) types) as Hsplit.
    assert (Hlen : Z.of_nat (length types) = tot_cnt).
    { unfold tot_cnt. rewrite <- Hfst, length_map. reflexivity. }
    assert (Hv : Z.of_nat (size (PowerFill.emitted_tracks vdd)) = tot_cnt / 2).
    { rewrite Hsv, <- Hcv. unfold PowerFill.count_type. do 2 f_equal.
      apply filter_ext. intros x. now destruct (bool_decide _). }
    assert (Hs : Z.of_nat (size (PowerFill.emitted_tracks vss)) = tot_cnt - tot_cnt / 2).
    { rewrite Hss.
      rewrite (filter_ext _ (fun x : Z * string => negb (bool_decide (snd x = PowerFill.VDD))))
        by (intros x; now destruct (bool_decide _)).
      unfold PowerFill.count_type in Hcv. lia. }
    split; [assumption|]. split; [assumption|].
    rewrite Hv, Hs.
    assert (0 <= tot_cnt) by (unfold tot_cnt; lia).
    pose proof (Z.div_mod tot_cnt 2). pose proof (Z.mod_pos_bound tot_cnt 2). lia.
Qed.

Lemma supply_assignment_balanced_witness :
  exists g fill_track_set sup_type vdd_warr_list vss_warr_list,
    Grid.__init__ [1] [50] [50] Grid.X (inl 100) = Ok g /\
    PowerFill.remaining_fill_tracks g 1000 1400 1
      [(1, [((0, 100), (1, Some (0, PowerFill.VDD)))])] 1 0 0 (-1) 100 100
      = Ok (fill_track_set, sup_type) /\
    TrackSet.sorted_keys fill_track_set = [1; 3; 5; 7; 9; 11; 13] /\
    sup_type !! 3 = Some PowerFill.VDD /\
    PowerFill.get_power_fill_tracks g 1000 1400 1
      [(1, [((0, 100), (1, Some (0, PowerFill.VDD)))])] 1 0 0 (-1) 100 100
      = Ok (vdd_warr_list, vss_warr_list) /\
    Z.of_nat (size (PowerFill.emitted_tracks vdd_warr_list)) = 3 /\
    Z.of_nat (size (PowerFill.emitted_tracks vss_warr_list)) = 4 /\
    3 ∈ PowerFill.emitted_tracks vdd_warr_list.
Proof.
  eexists. eexists. eexists.
  match goal with
  | |- exists vdd vss, ?init /\ ?rem /\ _ =>
      assert (Hinit : init) by (vm_compute; reflexivity);
      assert (Hrem : rem) by (vm_compute; reflexivity)
  end.
  destruct (supply_assignment_balanced _ _ _ _ _ _ _ _ _ _ _ _ _ Hrem)
    as [Hwires Hbalance].
  destruct Hbalance as (vdd & vss & Hget & Hv & Hs & _).
  - vm_compute. reflexivity.
  - vm_compute. reflexivity.
  - exists vdd, vss.
    destruct (Hwires vdd vss Hget) as (_ & _ & _ & Hkeep).
    split; [exact Hinit|]. split; [exact Hrem|].
    split; [vm_compute; reflexivity|].
    split; [vm_compute; reflexivity|].
    split; [exact Hget|].
    split; [exact Hv|]. split; [exact Hs|].
    apply (Hkeep 3).
    + apply (bool_decide_unpack _). vm_compute. exact I.
    + vm_compute. reflexivity.
Defined.

(** C2, the claim as stated fails: two fill tracks that both inherit VDD
    from the used VDD wires next to them are both emitted as VDD, since the
    tags are kept; there is no VSS track, and the numbers differ by 2. *)
Lemma power_fill_inherited_tags_unbalanced :
  exists g vdd_warr_list,
    Grid.__init__ [1] [50] [50] Grid.X (inl 100) = Ok g /\
    PowerFill.get_power_fill_tracks g 1000 400 1
      [(1, [((0, 100), (1, Some (0, PowerFill.VDD)))]);
       (3, [((0, 100), (1, Some (0, PowerFill.VDD)))])]
      1 0 0 (-1) 100 100 = Ok (vdd_warr_list, []) /\
    map fst vdd_warr_list = [1; 3] /\
    PowerFill.assign_supply [1; 3] (<[1 := PowerFill.VDD]> (<[3 := PowerFill.VDD]> ∅))
      = Ok [(1, PowerFill.VDD); (3, PowerFill.VDD)] /\
    ~ Z.abs (PowerFill.count_type PowerFill.VDD [(1, PowerFill.VDD); (3, PowerFill.VDD)]
             - PowerFill.count_type PowerFill.VSS [(1, PowerFill.VDD); (3, PowerFill.VDD)])
      <= 1.
Proof.
  eexists. eexists.
  split; [vm_compute; reflexivity|].
  split; [vm_compute; reflexivity|].
  split; [reflexivity|].
  split; [vm_compute; reflexivity|].
  vm_compute. intros H. now apply H.
Qed.

(** C9, at failing inputs.  On a block that holds a single fill track and
    no used track, this track remains after the subtraction, and the
    allocation divides by [2 * remaining_vdd = 0]: the call raises
    [ZeroDivisionError].  So does the allocation for any single track
    without a tag, and the call on a block of five fill tracks with one used
    VDD wire, whose two inherited VDD tags fill the VDD quota. *)
Theorem power_fill_single_track_zero_division :
  (exists g fill_track_set,
     Grid.__init__ [1] [50] [50] Grid.X (inl 100) = Ok g /\
     PowerFill.remaining_fill_tracks g 1000 200 1 [] 1 0 0 (-1) 100 100
       = Ok (fill_track_set, ∅) /\
     TrackSet.sorted_keys fill_track_set = [1] /\
     PowerFill.get_power_fill_tracks g 1000 200 1 [] 1 0 0 (-1) 100 100
       = Raise ZeroDivisionError) /\
  (forall hidx, PowerFill.assign_supply [hidx] ∅ = Raise ZeroDivisionError) /\
  (exists g fill_track_set sup_type,
     Grid.__init__ [1] [50] [50] Grid.X (inl 100) = Ok g /\
     PowerFill.remaining_fill_tracks g 1000 1000 1
       [(1, [((0, 100), (1, Some (0, PowerFill.VDD)))])] 1 0 0 (-1) 100 100
       = Ok (fill_track_set, sup_type) /\
     TrackSet.sorted_keys fill_track_set = [1; 3; 5; 7; 9] /\
     PowerFill.get_power_fill_tracks g 1000 1000 1
       [(1, [((0, 100), (1, Some (0, PowerFill.VDD)))])] 1 0 0 (-1) 100 100
       = Raise ZeroDivisionError).
Proof.
  split; [|split].
  - eexists. eexists.
    split; [vm_compute; reflexivity|].
    split; [vm_compute; reflexivity|].
    split; vm_compute; reflexivity.
  - intros hidx. reflexivity.
  - eexists. eexists. eexists.
    split; [vm_compute; reflexivity|].
    split; [vm_compute; reflexivity|].
    split; vm_compute; reflexivity.
Qed.

(** * Further properties *)

(** ** Greatest common divisor, block pitches *)

Module GridMoreFacts.
Import Grid.

(** [_gcd] against the greatest common divisor: the sign is that of the
    last non-zero divisor. *)
Lemma _gcd_spec a b : _gcd a b = if decide (b = 0) then a else Z.sgn b * Z.gcd a b.
Proof.
  funelim (_gcd a b).
  - subst. rewrite decide_True by reflexivity. reflexivity.
  - clear Heqcall. rewrite decide_False by assumption. rewrite H.
    assert (Hg : Z.gcd b (a mod b) = Z.gcd a b).
    { rewrite Z.gcd_comm, Z.gcd_mod by assumption. apply Z.gcd_comm. }
    case_decide as Hm.
    + rewrite Hm in Hg. rewrite Z.gcd_0_r in Hg. rewrite <- Hg. 
      lia.
    + rewrite Hg. f_equal.
      destruct (Z_lt_le_dec 0 b).
      * pose proof (Z.mod_pos_bound a b). lia.
      * pose proof (Z.mod_neg_bound a b). lia.
Qed.

Lemma _gcd_abs a b : Z.abs (_gcd a b) = Z.gcd a b.
Proof.
  rewrite _gcd_spec. case_decide as Hb.
  - subst. now rewrite Z.gcd_0_r.
  - pose proof (Z.gcd_nonneg a b). lia.
Qed.

(** One step of [_lcm] gives the least common multiple up to the sign. *)
Lemma lcm_step_abs cur val r :
  floordiv (cur * val) (_gcd cur val) = Ok r -> Z.abs r = Z.lcm cur val.
Proof.
  unfold floordiv. destruct (_gcd cur val =? 0) eqn:Hz; [discriminate|].
  apply Z.eqb_neq in Hz. intros [= <-].
  pose proof (_gcd_abs cur val) as Habs.
  destruct (Z.gcd_divide_r cur val) as [y Hy].
  set (g := _gcd cur val) in *. clearbody g.
  unfold Z.lcm.
  assert (Hgz : Z.gcd cur val <> 0) by lia.
  assert (Hq : val / Z.gcd cur val = y) by (rewrite Hy at 1; now apply Z.div_mul).
  rewrite Hq.
  assert (Hcase : g = Z.gcd cur val \/ g = - Z.gcd cur val) by lia.
  destruct Hcase as [-> | ->].
  - rewrite Hy at 1. replace (cur * (y * Z.gcd cur val)) with (cur * y * Z.gcd cur val) by ring.
    now rewrite Z.div_mul.
  - rewrite Hy at 1.
    replace (cur * (y * Z.gcd cur val)) with (- (cur * y) * - Z.gcd cur val) by ring.
    rewrite Z.div_mul by lia. apply Z.abs_opp.
Qed.

Lemma _lcm_least arr : forall init r m,
  _lcm arr init = Ok r -> (init | m) -> Forall (fun val => (val | m)) arr -> (r | m).
Proof.
  induction arr as [|val arr IH]; intros init r m H Hi Hall; cbn in H.
  - now injection H as <-.
  - apply bind_Ok in H as (cur & Hstep & Hrest).
    inv Hall. eapply IH; [exact Hrest | | assumption].
    apply lcm_step_abs in Hstep.
    apply Z.divide_abs_l. rewrite Hstep. now apply Z.lcm_least.
Qed.

(** What [bot_pitch_iter] yields are block pitches of layers of the wanted
    direction. *)
Lemma bot_pitch_iter_inv dirs cur_dir lays : forall pitch_list arr p,
  bot_pitch_iter dirs cur_dir lays pitch_list = Ok arr -> In p arr ->
  exists (i : nat) L,
    lays !! i = Some L /\ pitch_list !! i = Some p /\ dirs !! L = Some cur_dir.
Proof.
  induction lays as [|lay lays IH]; intros [|q pitch_list] arr p H Hin;
    try (cbn in H; injection H as <-; destruct Hin).
  cbn in H.
  apply bind_Ok in H as (d & Hget & H). apply GridFacts.getitem_Ok in Hget.
  apply bind_Ok in H as (rest & Hrest & H). injection H as <-.
  destruct (decide (d = cur_dir)) as [->|Hne].
  - destruct Hin as [->|Hin].
    + exists 0%nat, lay. auto.
    + destruct (IH _ _ _ Hrest Hin) as (i & L & ? & ? & ?). exists (S i), L. auto.
  - destruct (IH _ _ _ Hrest Hin) as (i & L & ? & ? & ?). exists (S i), L. auto.
Qed.

Lemma pitch_min_step g done todo lay pitch_list sp w cur_dir cur :
  layers g = done ++ lay :: todo ->
  length pitch_list = length done ->
  pitch_min g done pitch_list ->
  sp_tracks g !! lay = Some sp -> w_tracks g !! lay = Some w ->
  dir_tracks g !! lay = Some cur_dir ->
  match pitch_list with
  | [] => Ok (sp + w)
  | _ => arr ← bot_pitch_iter (dir_tracks g) cur_dir (layers g) pitch_list;
         _lcm arr (sp + w)
  end = Ok cur ->
  pitch_min g (done ++ [lay]) (pitch_list ++ [cur]).
Proof.
  intros Hlay Hlen Hmin Hsp Hw Hdir Hcur j L p m Hj Hp Hm.
  destruct (decide (j < length done)%nat) as [Hlt|Hge].
  - rewrite lookup_app_l in Hj by lia. rewrite lookup_app_l in Hp by lia.
    apply (Hmin j L p m Hj Hp).
    intros i L' sp' w' Hij Hi. apply (Hm i); [assumption|].
    rewrite lookup_app_l by lia. assumption.
  - assert (j = length done) as ->.
    { apply lookup_lt_Some in Hj. rewrite length_app in Hj. cbn in Hj. lia. }
    rewrite list_lookup_middle in Hj by reflexivity.
    rewrite list_lookup_middle in Hp by (symmetry; assumption).
    injection Hj as <-. injection Hp as <-.
    assert (Hown : (sp + w | m)).
    { eapply (Hm (length done)); [lia | | reflexivity | eassumption..].
      now rewrite list_lookup_middle. }
    destruct pitch_list as [|p0 pitch_list'] eqn:Hpl.
    + now injection Hcur as <-.
    + rewrite <- Hpl in *. clear Hpl.
      apply bind_Ok in Hcur as (arr & Harr & Hlcm).
      eapply _lcm_least; [exact Hlcm | exact Hown|].
      apply Forall_forall. intros p Hin%list_elem_of_In.
      destruct (bot_pitch_iter_inv _ _ _ _ _ _ Harr Hin) as (i & L & Hi & Hp & Hd).
      assert (Hlt : (i < length done)%nat)
        by (rewrite <- Hlen; eapply lookup_lt_Some, Hp).
      rewrite Hlay, lookup_app_l in Hi by assumption.
      apply (Hmin i L p m Hi Hp).
      intros i' L' sp' w' Hle Hi' Hd'. apply (Hm i'); [lia | | congruence].
      rewrite lookup_app_l; [assumption | lia].
Qed.

Lemma update_block_pitch_loop_min g todo : forall done pitch_list blk blk',
  layers g = done ++ todo -> NoDup (layers g) ->
  pitch_inv g done pitch_list blk -> pitch_min g done pitch_list ->
  update_block_pitch_loop g todo pitch_list blk = Ok blk' ->
  exists pitch_list',
    pitch_inv g (layers g) pitch_list' blk' /\ pitch_min g (layers g) pitch_list'.
Proof.
  induction todo as [|lay todo IH]; intros done pitch_list blk blk' Hlay Hnd Hinv Hmin H.
  - cbn in H. injection H as <-. rewrite app_nil_r in Hlay. rewrite Hlay. eauto.
  - cbn [update_block_pitch_loop] in H.
    apply bind_Ok in H as (sp & Hsp & H). apply GridFacts.getitem_Ok in Hsp.
    apply bind_Ok in H as (w & Hw & H). apply GridFacts.getitem_Ok in Hw.
    apply bind_Ok in H as (cur_dir & Hdir & H). apply GridFacts.getitem_Ok in Hdir.
    apply bind_Ok in H as (cur & Hcur & H).
    eapply (IH (done ++ [lay])); [| assumption | | | exact H].
    + now rewrite <- app_assoc.
    + eapply GridFacts.pitch_inv_step; eassumption.
    + eapply pitch_min_step; try eassumption. apply Hinv.
Qed.

(** The block pitches that [update_block_pitch] computes. *)
Lemma update_block_pitch_pitches g g' :
  NoDup (layers g) -> update_block_pitch g = Ok g' ->
  exists pitch_list,
    pitch_inv g' (layers g') pitch_list (block_pitch g') /\
    pitch_min g' (layers g') pitch_list.
Proof.
  intros Hnd H. unfold update_block_pitch in H.
  apply bind_Ok in H as (blk & Hloop & H). injection H as <-. cbn.
  destruct (update_block_pitch_loop_min g (layers g) [] [] (block_pitch g) blk)
    as (pl & Hinv & Hmin); [reflexivity | assumption | | | exact Hloop |].
  - split; [reflexivity|]. split; intros; destruct j; discriminate.
  - intros j ? ? ? Hj. destruct j; discriminate.
  - exists pl. split; [exact Hinv | exact Hmin].
Qed.

(** The block pitches of a grid that the constructor returns. *)
Lemma init_block_pitch lays spaces widths bot_dir max_num_tr g :
  __init__ lays spaces widths bot_dir max_num_tr = Ok g ->
  exists pitch_list,
    pitch_inv g (layers g) pitch_list (block_pitch g) /\
    pitch_min g (layers g) pitch_list.
Proof.
  intros Hinit. unfold __init__ in Hinit.
  repeat (destruct (negb _); [discriminate|]).
  apply bind_Ok in Hinit as (mx & _ & Hinit).
  apply bind_Ok in Hinit as (g0 & Hloop & Hinit).
  eapply update_block_pitch_pitches; [|exact Hinit].
  eapply GridFacts.init_loop_inv; [apply GridFacts.empty_grid_inv | exact Hloop].
Qed.

(** Positions in the sorted layer list follow the layer numbers. *)
Lemma layers_index_le g (i j : nat) L' L :
  grid_inv g -> layers g !! i = Some L' -> layers g !! j = Some L ->
  ((i <= j)%nat <-> L' <= L).
Proof.
  intros [Hnd Hso _ _ _ _] Hi Hj. split; intros Hle.
  - destruct (decide (i = j)) as [->|Hne]; [rewrite Hi in Hj; injection Hj; lia|].
    eapply GridFacts.StronglySorted_lookup_le; [eassumption| |eassumption..]. lia.
  - destruct (decide (i <= j)%nat) as [|Hgt]; [assumption|].
    assert (L <= L')
      by (eapply GridFacts.StronglySorted_lookup_le; [eassumption| |eassumption..]; lia).
    assert (L = L') as -> by lia.
    pose proof (NoDup_lookup _ _ _ _ Hnd Hi Hj). lia.
Qed.

(** Induction over the grids that the constructor, [add_new_layer] and
    [update_block_pitch] make. *)
Lemma reachable_tables_ind (P : RoutingGrid -> Prop) :
  P empty_grid ->
  (forall g layer_id sp_round w_round dir max_num_tr share_track override g',
     P g -> add_new_layer g layer_id sp_round w_round dir max_num_tr share_track override = Ok g' ->
     P g') ->
  (forall g g', P g -> update_block_pitch g = Ok g' -> P g') ->
  forall g, reachable g -> P g.
Proof.
  intros Hempty Hadd Hupd.
  assert (Hloop : forall lays g spaces widths max_num_tr cur_dir g',
            P g -> init_loop g lays spaces widths max_num_tr cur_dir = Ok g' -> P g').
  { induction lays as [|lay lays IH];
      intros g [|sp spaces] [|w widths] [|mx max_num_tr] cur_dir g' Hg H; cbn in H;
      try (injection H as <-; assumption).
    apply bind_Ok in H as (g1 & Hg1 & H).
    eapply IH; [|exact H]. eapply Hadd; eassumption. }
  induction 1 as [? ? ? ? ? ? H | ? ? ? ? ? ? ? ? ? _ IH H | ? ? _ IH H].
  - unfold __init__ in H.
    repeat (destruct (negb _); [discriminate|]).
    apply bind_Ok in H as (mx & _ & H).
    apply bind_Ok in H as (g0 & Hg0 & H).
    eapply Hupd; [|exact H]. eapply Hloop; [exact Hempty | exact Hg0].
  - eapply Hadd; eassumption.
  - eapply Hupd; eassumption.
Qed.

(** Every layer of the grid has its width, its direction and its offset;
    the offset is half the track pitch, or zero for a layer added with
    [share_track]. *)
Lemma reachable_tables g L :
  reachable g -> L ∈ layers g ->
  exists sp w d off,
    sp_tracks g !! L = Some sp /\ w_tracks g !! L = Some w /\
    dir_tracks g !! L = Some d /\ offset_tracks g !! L = Some off /\
    Z.even sp = true /\ Z.even w = true /\ (off = (sp + w) / 2 \/ off = 0).
Proof.
  intros Hreach HL.
  pose proof (GridFacts.reachable_inv _ Hreach) as [_ _ Hl _ _ _].
  apply Hl in HL. clear Hl. revert g Hreach L HL.
  apply (reachable_tables_ind (fun g => forall L, is_Some (sp_tracks g !! L) -> _)).
  - intros L [? H]. cbn in H. now rewrite lookup_empty in H.
  - intros g layer_id sp_round w_round dir max_num_tr share_track override g' IH H L HL.
    unfold add_new_layer in H.
    apply bind_Ok in H as (lays & _ & H). injection H as <-. cbn in *.
    destruct (decide (L = layer_id)) as [->|Hne].
    + rewrite !lookup_insert_eq. do 4 eexists. repeat split; try reflexivity.
      * rewrite Z.even_mul. reflexivity.
      * rewrite Z.even_mul. reflexivity.
      * destruct share_track; auto.
    + rewrite !lookup_insert_ne by congruence.
      rewrite lookup_insert_ne in HL by congruence. auto.
  - intros g g' IH H L HL. unfold update_block_pitch in H.
    apply bind_Ok in H as (blk & _ & H). injection H as <-. cbn in *. auto.
Qed.

(** With the invariant of [update_block_pitch], the block pitch of a layer
    is a multiple of the track pitch of every layer of its direction at or
    below it. *)
Lemma pitch_inv_divide g pitch_list L L' :
  grid_inv g -> pitch_inv g (layers g) pitch_list (block_pitch g) ->
  L ∈ layers g -> L' ∈ layers g -> L' <= L ->
  dir_tracks g !! L' = dir_tracks g !! L ->
  exists p sp w,
    block_pitch g !! L = Some p /\ sp_tracks g !! L' = Some sp /\
    w_tracks g !! L' = Some w /\ (sp + w | p).
Proof.
  intros Hinv (Hlen & Hblk & Hdiv) HL HL' Hle Hdir.
  apply list_elem_of_lookup in HL as [j Hj].
  apply list_elem_of_lookup in HL' as [i Hi].
  destruct (lookup_lt_is_Some_2 pitch_list j) as [p Hp];
    [rewrite Hlen; eapply lookup_lt_Some, Hj|].
  assert (Hij : (i <= j)%nat) by (eapply layers_index_le; eassumption).
  destruct (Hdiv i j L' L p Hij Hi Hj Hp Hdir) as (sp & w & Hsp & Hw & Hd).
  exists p, sp, w. split; [eapply Hblk; eassumption | auto].
Qed.

Lemma init_block_pitch_divide lays spaces widths bot_dir max_num_tr g L L' :
  __init__ lays spaces widths bot_dir max_num_tr = Ok g ->
  L ∈ layers g -> L' ∈ layers g -> L' <= L ->
  dir_tracks g !! L' = dir_tracks g !! L ->
  exists p sp w,
    block_pitch g !! L = Some p /\ sp_tracks g !! L' = Some sp /\
    w_tracks g !! L' = Some w /\ (sp + w | p).
Proof.
  intros Hinit.
  destruct (init_block_pitch _ _ _ _ _ _ Hinit) as (pl & Hpl & _).
  apply (pitch_inv_divide g pl); [|assumption].
  eapply GridFacts.init_inv, Hinit.
Qed.

(** The loop of [update_block_pitch] reads the tables of the grid, not its
    block pitches. *)
Lemma update_block_pitch_loop_tables g blk0 todo : forall pitch_list blk,
  update_block_pitch_loop
    (mkRoutingGrid (layers g) (sp_tracks g) (w_tracks g) (offset_tracks g)
       (dir_tracks g) (max_num_tr_tracks g) blk0) todo pitch_list blk
  = update_block_pitch_loop g todo pitch_list blk.
Proof.
  induction todo as [|lay todo IH]; intros pitch_list blk; [reflexivity|].
  cbn [update_block_pitch_loop sp_tracks w_tracks dir_tracks layers].
  destruct (getitem (sp_tracks g) lay); [cbn | reflexivity].
  destruct (getitem (w_tracks g) lay); [cbn | reflexivity].
  destruct (getitem (dir_tracks g) lay); [cbn | reflexivity].
  match goal with |- (?c ≫= _) = _ => destruct c end; [cbn | reflexivity].
  apply IH.
Qed.

(** The loop writes the block pitch of every layer it handles, with a
    value that does not depend on what the dictionary held. *)
Lemma update_block_pitch_loop_blk g todo : forall pitch_list blk1 blk2 r1,
  update_block_pitch_loop g todo pitch_list blk1 = Ok r1 ->
  exists r2,
    update_block_pitch_loop g todo pitch_list blk2 = Ok r2 /\
    forall L, (L ∈ todo -> r2 !! L = r1 !! L) /\
              (L ∉ todo -> r2 !! L = blk2 !! L /\ r1 !! L = blk1 !! L).
Proof.
  induction todo as [|lay todo IH]; intros pitch_list blk1 blk2 r1 H.
  - cbn in H. injection H as <-. exists blk2. split; [reflexivity|].
    intros L. split; [intros Hin; inv Hin | auto].
  - cbn [update_block_pitch_loop] in *.
    destruct (getitem (sp_tracks g) lay); [cbn in * | discriminate].
    destruct (getitem (w_tracks g) lay); [cbn in * | discriminate].
    destruct (getitem (dir_tracks g) lay); [cbn in * | discriminate].
    match type of H with (?c ≫= _) = _ => destruct c as [cur|] end;
      [cbn in * | discriminate].
    destruct (IH _ _ (<[lay := cur]> blk2) _ H) as (r2 & Hr2 & Hsame).
    exists r2. split; [exact Hr2|].
    intros L. destruct (Hsame L) as [Hin Hout]. split.
    + intros [->|HL]%elem_of_cons; [|auto].
      destruct (decide (lay ∈ todo)) as [Hd|Hd]; [auto|].
      destruct (Hout Hd) as [-> ->]. now rewrite !lookup_insert_eq.
    + intros [Hne HL]%not_elem_of_cons. destruct (Hout HL) as [-> ->].
      now rewrite !lookup_insert_ne by congruence.
Qed.

(** The layers that have a block pitch are layers of the grid. *)
Lemma update_block_pitch_loop_keys g todo : forall pitch_list blk r L,
  update_block_pitch_loop g todo pitch_list blk = Ok r ->
  is_Some (r !! L) -> L ∈ todo \/ is_Some (blk !! L).
Proof.
  intros pitch_list blk r L H Hs.
  destruct (update_block_pitch_loop_blk g todo pitch_list blk blk r H) as (r2 & Hr2 & Hsame).
  destruct (decide (L ∈ todo)) as [?|Hout]; [auto|].
  right. destruct (Hsame L) as [_ Hkeep]. destruct (Hkeep Hout) as [_ <-]. assumption.
Qed.

Lemma reachable_block_pitch_keys g L :
  reachable g -> is_Some (block_pitch g !! L) -> is_Some (sp_tracks g !! L).
Proof.
  intros Hreach. revert L.
  assert (H : grid_inv g /\ forall L, is_Some (block_pitch g !! L) -> is_Some (sp_tracks g !! L));
    [|apply H].
  revert g Hreach. apply reachable_tables_ind.
  - split; [apply GridFacts.empty_grid_inv|]. intros L [? H]. cbn in H.
    now rewrite lookup_empty in H.
  - intros g layer_id sp_round w_round dir max_num_tr share_track override g' [Hinv IH] H.
    split; [eapply GridFacts.add_new_layer_inv; eassumption|].
    unfold add_new_layer in H.
    apply bind_Ok in H as (lays & _ & H). injection H as <-. cbn.
    intros L HL. rewrite lookup_insert_is_Some'. auto.
  - intros g g' [Hinv IH] H.
    split; [eapply GridFacts.update_block_pitch_inv; eassumption|].
    unfold update_block_pitch in H.
    apply bind_Ok in H as (blk & Hloop & H). injection H as <-. cbn.
    intros L HL.
    destruct (update_block_pitch_loop_keys _ _ _ _ _ L Hloop HL) as [Hin|Hold]; [|auto].
    destruct Hinv as [_ _ Hl _ _ _]. now apply Hl.
Qed.

End GridMoreFacts.

(** X1.  [_gcd(a, b)] is [a] when [b] is zero, and otherwise the greatest
    common divisor of [a] and [b] with the sign of [b]; for a positive [b]
    it is the greatest common divisor. *)
Theorem gcd_is_greatest_common_divisor (a b : Z) :
  Grid._gcd a b = if decide (b = 0) then a else Z.sgn b * Z.gcd a b.
Proof. apply GridMoreFacts._gcd_spec. Qed.

(** X2.  On positive numbers [_lcm] does not raise, and returns the least
    common multiple of [init] and the numbers of [arr], which is
    positive. *)
Theorem lcm_of_positive_numbers (arr : list Z) (init : Z) :
  0 < init -> Forall (fun val => 0 < val) arr ->
  Grid._lcm arr init = Ok (fold_left Z.lcm arr init) /\ 0 < fold_left Z.lcm arr init.
Proof.
  revert init. induction arr as [|val arr IH]; intros init Hi Hall; cbn.
  - split; [reflexivity | assumption].
  - inv Hall.
    assert (Hl : 0 < Z.lcm init val).
    { pose proof (Z.lcm_nonneg init val).
      assert (Z.lcm init val <> 0) by (rewrite Z.lcm_eq_0; lia). lia. }
    destruct (floordiv (init * val) (Grid._gcd init val)) as [r|e] eqn:Hstep.
    + pose proof (GridMoreFacts.lcm_step_abs _ _ _ Hstep) as Habs.
      assert (r = Z.lcm init val) as ->.
      { unfold floordiv in Hstep. destruct (_ =? 0); [discriminate|].
        injection Hstep as <-.
        rewrite GridMoreFacts._gcd_spec in *. rewrite decide_False in * by lia.
        assert (Z.sgn val = 1) as Hs by lia. rewrite Hs, Z.mul_1_l in *.
        assert (0 <= init * val / Z.gcd init val); [|lia].
        apply Z.div_pos; [nia|].
        pose proof (Z.gcd_nonneg init val).
        assert (Z.gcd init val <> 0) by (rewrite Z.gcd_eq_0; lia). lia. }
      cbn. now apply IH.
    + exfalso. unfold floordiv in Hstep.
      destruct (_ =? 0) eqn:Hz; [|discriminate]. apply Z.eqb_eq in Hz.
      pose proof (GridMoreFacts._gcd_abs init val) as Habs. rewrite Hz in Habs.
      symmetry in Habs. apply Z.gcd_eq_0 in Habs. lia.
Qed.

Lemma lcm_of_positive_numbers_witness :
  Grid._lcm [4; 6; 10] 1 = Ok (fold_left Z.lcm [4; 6; 10] 1) /\
  0 < fold_left Z.lcm [4; 6; 10] 1.
Proof.
  apply (lcm_of_positive_numbers [4; 6; 10] 1); [lia|].
  repeat constructor.
Defined.

(** X3.  After construction, the block pitch of a layer [L] is the least
    common multiple of the track pitches of the layers at or below [L] that
    have the direction of [L]: it divides every common multiple [m] of
    these pitches. *)
Theorem block_pitch_least
    (lays spaces widths : list Z) (bot_dir : Grid.direction) (max_num_tr : Z + list Z)
    (g : Grid.RoutingGrid) (L m : Z) :
  Grid.__init__ lays spaces widths bot_dir max_num_tr = Ok g ->
  In L (Grid.layers g) ->
  (forall L' w sp,
     In L' (Grid.layers g) -> L' <= L ->
     Grid.dir_tracks g !! L' = Grid.dir_tracks g !! L ->
     Grid.w_tracks g !! L' = Some w -> Grid.sp_tracks g !! L' = Some sp ->
     (w + sp | m)) ->
  exists blk_pitch, Grid.block_pitch g !! L = Some blk_pitch /\ (blk_pitch | m).
Proof.
  intros Hinit HL Hm.
  pose proof (GridFacts.init_inv _ _ _ _ _ _ Hinit) as Hinv.
  destruct (GridMoreFacts.init_block_pitch _ _ _ _ _ _ Hinit)
    as (pl & (Hlen & Hblk & _) & Hmin).
  apply list_elem_of_In, list_elem_of_lookup in HL as [j Hj].
  destruct (lookup_lt_is_Some_2 pl j) as [p Hp];
    [rewrite Hlen; eapply lookup_lt_Some, Hj|].
  exists p. split; [eapply Hblk; eassumption|].
  eapply Hmin; [exact Hj | exact Hp|].
  intros i L' sp w Hij Hi Hd Hsp Hw. rewrite (Z.add_comm sp w).
  eapply Hm; [| | eassumption..].
  - eapply list_elem_of_In, list_elem_of_lookup_2, Hi.
  - eapply GridMoreFacts.layers_index_le; eassumption.
Qed.

Lemma block_pitch_least_witness :
  exists g, Grid.__init__ [1; 2; 3] [50; 60; 70] [50; 40; 30] Grid.X (inl 100) = Ok g /\
    exists blk_pitch, Grid.block_pitch g !! 3 = Some blk_pitch /\ (blk_pitch | 200).
Proof.
  eexists. split; [vm_compute; reflexivity|].
  eapply (block_pitch_least [1; 2; 3] [50; 60; 70] [50; 40; 30] Grid.X (inl 100)).
  - vm_compute. reflexivity.
  - cbn. tauto.
  - intros L' w sp HL' _ _. cbn in HL'.
    destruct HL' as [<-|[<-|[<-|[]]]]; vm_compute; intros [= <-] [= <-];
      [exists 1 | exists 1 | exists 1]; reflexivity.
Defined.

(** X4.  A block holds a whole number of tracks of every layer at or below
    its top layer: for a block of size [(top, nx, ny)] on a constructed
    grid where the layers [top] and [top - 1] have different directions,
    [get_num_tracks] times the track pitch of the layer is exactly the
    block height (horizontal tracks) or the block width (vertical
    tracks) that [get_size_dimension] gives. *)
Theorem block_holds_whole_tracks
    (lays spaces widths : list Z) (bot_dir : Grid.direction) (max_num_tr : Z + list Z)
    (g : Grid.RoutingGrid) (top nx ny L pitch : Z) :
  Grid.__init__ lays spaces widths bot_dir max_num_tr = Ok g ->
  In top (Grid.layers g) -> In (top - 1) (Grid.layers g) ->
  Grid.dir_tracks g !! (top - 1) <> Grid.dir_tracks g !! top ->
  In L (Grid.layers g) -> L <= top ->
  Grid.track_pitch g L = Some pitch -> pitch <> 0 ->
  exists blk_w blk_h d n,
    Grid.get_size_dimension g (top, nx, ny) = Ok (blk_w, blk_h) /\
    Grid.get_direction g L = Ok d /\
    Grid.get_num_tracks g (top, nx, ny) L = Ok n /\
    n * pitch = (if decide (d = Grid.X) then blk_h else blk_w).
Proof.
  intros Hinit Htop Hbot Hdirs HL Hle Hpitch Hnz.
  apply list_elem_of_In in Htop, Hbot, HL.
  assert (Hreach : Grid.reachable g) by (eapply Grid.reach_init, Hinit).
  destruct (GridMoreFacts.reachable_tables g top Hreach Htop)
    as (? & ? & dt & ? & _ & _ & Hdt & _).
  destruct (GridMoreFacts.reachable_tables g (top - 1) Hreach Hbot)
    as (? & ? & db & ? & _ & _ & Hdb & _).
  destruct (GridMoreFacts.reachable_tables g L Hreach HL)
    as (sp & w & d & ? & Hsp & Hw & Hd & _).
  unfold Grid.track_pitch in Hpitch. rewrite Hsp, Hw in Hpitch. cbn in Hpitch.
  injection Hpitch as <-.
  (* the block pitch in the direction of [L] is a multiple of its pitch *)
  assert (Hmult : exists A p, (A = top \/ A = top - 1) /\ Grid.dir_tracks g !! A = Some d /\
                              Grid.block_pitch g !! A = Some p /\ (sp + w | p)).
  { destruct (decide (d = dt)) as [->|Hne].
    - destruct (GridMoreFacts.init_block_pitch_divide _ _ _ _ _ _ top L Hinit)
        as (p & sp' & w' & Hp & Hsp' & Hw' & Hdiv); [assumption.. | congruence |].
      exists top, p. replace sp' with sp in * by congruence.
      replace w' with w in * by congruence. auto.
    - assert (d = db) as -> by (destruct d, dt, db; congruence).
      assert (L <> top) by congruence.
      destruct (GridMoreFacts.init_block_pitch_divide _ _ _ _ _ _ (top - 1) L Hinit)
        as (p & sp' & w' & Hp & Hsp' & Hw' & Hdiv); [assumption.. | lia | congruence |].
      exists (top - 1), p. replace sp' with sp in * by congruence.
      replace w' with w in * by congruence. auto. }
  destruct Hmult as (A & p & HA & HdA & HpA & [k ->]).
  destruct (GridMoreFacts.init_block_pitch_divide _ _ _ _ _ _ top top Hinit)
    as (pt & ? & ? & Hpt & _); [assumption.. | lia | reflexivity |].
  destruct (GridMoreFacts.init_block_pitch_divide _ _ _ _ _ _ (top - 1) (top - 1) Hinit)
    as (pb & ? & ? & Hpb & _); [assumption.. | lia | reflexivity |].
  apply GridFacts.getitem_Ok in Hsp, Hw.
  unfold Grid.get_num_tracks, Grid.get_size_dimension, Grid.get_block_pitch,
    Grid.get_direction.
  apply GridFacts.getitem_Ok in Hpt, Hpb.
  pose proof Hdt as Hdt'. pose proof Hd as Hd'.
  apply GridFacts.getitem_Ok in Hdt', Hd'.
  rewrite Hpt, Hpb, Hdt', Hd', Hsp, Hw. cbn.
  apply GridFacts.getitem_Ok in Hpt, Hpb.
  assert (Hdiv : forall num, floordiv (num * (k * (sp + w))) (w + sp) = Ok (num * k)).
  { intros num. rewrite floordiv_Ok by lia. f_equal.
    replace (num * (k * (sp + w))) with (num * k * (w + sp)) by ring.
    apply Z.div_mul. lia. }
  destruct HA as [-> | ->].
  - assert (d = dt) as -> by congruence. assert (pt = k * (sp + w)) as -> by congruence.
    destruct dt; repeat (case_decide; try congruence); cbn; rewrite Hdiv;
      do 4 eexists; (repeat split); repeat (case_decide; try congruence); ring.
  - assert (d = db) as -> by congruence. assert (pb = k * (sp + w)) as -> by congruence.
    destruct db, dt; try congruence; repeat (case_decide; try congruence); cbn;
      rewrite Hdiv; do 4 eexists; (repeat split);
      repeat (case_decide; try congruence); ring.
Qed.

Lemma block_holds_whole_tracks_witness :
  exists g, Grid.__init__ [1; 2; 3; 4] [50; 60; 70; 40] [50; 40; 30; 80] Grid.X (inl 100) = Ok g /\
    exists blk_w blk_h d n,
      Grid.get_size_dimension g (4, 2, 3) = Ok (blk_w, blk_h) /\
      Grid.get_direction g 1 = Ok d /\
      Grid.get_num_tracks g (4, 2, 3) 1 = Ok n /\
      n * 200 = (if decide (d = Grid.X) then blk_h else blk_w).
Proof.
  eexists. split; [vm_compute; reflexivity|].
  eapply (block_holds_whole_tracks [1; 2; 3; 4] [50; 60; 70; 40] [50; 40; 30; 80]
            Grid.X (inl 100)).
  - vm_compute. reflexivity.
  - cbn. tauto.
  - cbn. tauto.
  - vm_compute. congruence.
  - cbn. tauto.
  - lia.
  - vm_compute. reflexivity.
  - lia.
Defined.

(** X5.  [add_new_layer] does not compute block pitches: a layer that was
    not on the grid has no block pitch after it is added, so
    [get_block_pitch] and [get_block_size] raise [KeyError] for it; once
    [update_block_pitch] has run, the layer has a block pitch, a multiple
    of its track pitch. *)
Theorem add_new_layer_no_block_pitch
    (g g' : Grid.RoutingGrid) (layer_id sp_round w_round : Z) (dir : Grid.direction)
    (max_num_tr : Z) (share_track override : bool) :
  Grid.reachable g ->
  Grid.sp_tracks g !! layer_id = None ->
  Grid.add_new_layer g layer_id sp_round w_round dir max_num_tr share_track override = Ok g' ->
  Grid.get_block_pitch g' layer_id = Raise KeyError /\
  Grid.get_block_size g' layer_id = Raise KeyError /\
  forall g'', Grid.update_block_pitch g' = Ok g'' ->
    exists p, Grid.get_block_pitch g'' layer_id = Ok p /\
              (2 * w_round + 2 * sp_round | p).
Proof.
  intros Hreach Hfresh Hadd.
  assert (Hreach' : Grid.reachable g') by (eapply Grid.reach_add; eassumption).
  assert (Hnone : Grid.block_pitch g' !! layer_id = None).
  { destruct (Grid.block_pitch g' !! layer_id) as [p|] eqn:Hp; [|reflexivity].
    assert (Hs : is_Some (Grid.block_pitch g !! layer_id)).
    { unfold Grid.add_new_layer in Hadd.
      apply bind_Ok in Hadd as (lays & _ & Hadd). injection Hadd as <-. cbn in Hp. eauto. }
    apply (GridMoreFacts.reachable_block_pitch_keys g layer_id Hreach) in Hs.
    rewrite Hfresh in Hs. destruct Hs; discriminate. }
  split; [|split].
  - unfold Grid.get_block_pitch, getitem. now rewrite Hnone.
  - unfold Grid.get_block_size, getitem. now rewrite Hnone.
  - intros g'' Hupd.
    pose proof (GridFacts.reachable_inv _ Hreach') as Hinv'.
    assert (Hinv'' : Grid.grid_inv g'')
      by (eapply GridFacts.update_block_pitch_inv; eassumption).
    destruct (GridMoreFacts.update_block_pitch_pitches g' g'') as (pl & Hpl & _);
      [apply Hinv' | assumption |].
    assert (Htab : Grid.layers g'' = Grid.layers g' /\
                   Grid.sp_tracks g'' = Grid.sp_tracks g' /\
                   Grid.w_tracks g'' = Grid.w_tracks g').
    { unfold Grid.update_block_pitch in Hupd.
      apply bind_Ok in Hupd as (blk & _ & Hupd). injection Hupd as <-. auto. }
    destruct Htab as (Hlay & Hsp & Hw).
    assert (Hnew : Grid.sp_tracks g' !! layer_id = Some (2 * sp_round) /\
                   Grid.w_tracks g' !! layer_id = Some (2 * w_round)).
    { unfold Grid.add_new_layer in Hadd.
      apply bind_Ok in Hadd as (lays & _ & Hadd). injection Hadd as <-. cbn.
      now rewrite !lookup_insert_eq. }
    destruct Hnew as [Hsp' Hw'].
    assert (HL : layer_id ∈ Grid.layers g'').
    { destruct Hinv'' as [_ _ Hl _ _ _]. apply Hl. rewrite Hsp, Hsp'. eauto. }
    destruct (GridMoreFacts.pitch_inv_divide g'' pl layer_id layer_id Hinv'' Hpl HL HL)
      as (p & sp & w & Hp & Hsp2 & Hw2 & Hdiv); [lia | reflexivity |].
    exists p. split; [unfold Grid.get_block_pitch; now apply GridFacts.getitem_Ok|].
    rewrite Hsp, Hsp' in Hsp2. rewrite Hw, Hw' in Hw2.
    injection Hsp2 as <-. injection Hw2 as <-. now rewrite Z.add_comm.
Qed.

Lemma add_new_layer_no_block_pitch_witness :
  exists g, Grid.__init__ [1; 2] [50; 60] [50; 40] Grid.X (inl 100) = Ok g /\
    exists g', Grid.add_new_layer g 3 35 15 Grid.X 100 false false = Ok g' /\
      Grid.get_block_pitch g' 3 = Raise KeyError /\
      Grid.get_block_size g' 3 = Raise KeyError /\
      forall g'', Grid.update_block_pitch g' = Ok g'' ->
        exists p, Grid.get_block_pitch g'' 3 = Ok p /\ (2 * 15 + 2 * 35 | p).
Proof.
  eexists. split; [vm_compute; reflexivity|].
  eexists. split; [vm_compute; reflexivity|].
  eapply (add_new_layer_no_block_pitch _ _ 3 35 15 Grid.X 100 false false).
  - eapply (Grid.reach_init [1; 2] [50; 60] [50; 40] Grid.X (inl 100)).
    vm_compute. reflexivity.
  - vm_compute. reflexivity.
  - vm_compute. reflexivity.
Defined.

(** X6.  On any grid made by the constructor and [add_new_layer],
    [update_block_pitch] brings the block pitches up to date: afterwards
    the block pitch of a layer is a multiple of the track pitch of every
    layer at or below it with the same direction, and running
    [update_block_pitch] again changes nothing. *)
Theorem update_block_pitch_restores
    (g g' : Grid.RoutingGrid) (L L' : Z) :
  Grid.reachable g ->
  Grid.update_block_pitch g = Ok g' ->
  Grid.update_block_pitch g' = Ok g' /\
  (In L (Grid.layers g') -> In L' (Grid.layers g') -> L' <= L ->
   Grid.dir_tracks g' !! L' = Grid.dir_tracks g' !! L ->
   exists blk_pitch w sp,
     Grid.block_pitch g' !! L = Some blk_pitch /\
     Grid.w_tracks g' !! L' = Some w /\ Grid.sp_tracks g' !! L' = Some sp /\
     (w + sp | blk_pitch)).
Proof.
  intros Hreach Hupd.
  pose proof (GridFacts.reachable_inv _ Hreach) as Hinv.
  assert (Hinv' : Grid.grid_inv g')
    by (eapply GridFacts.update_block_pitch_inv; eassumption).
  split.
  - unfold Grid.update_block_pitch in *.
    apply bind_Ok in Hupd as (blk & Hloop & Hupd). injection Hupd as <-. cbn.
    rewrite GridMoreFacts.update_block_pitch_loop_tables.
    destruct (GridMoreFacts.update_block_pitch_loop_blk g (Grid.layers g) []
                (Grid.block_pitch g) blk blk Hloop) as (r2 & -> & Hsame).
    cbn. do 2 f_equal. apply map_eq. intros K.
    destruct (Hsame K) as [Hin Hout].
    destruct (decide (K ∈ Grid.layers g)) as [HK|HK]; [auto | now destruct (Hout HK)].
  - intros HL HL' Hle Hdir. apply list_elem_of_In in HL, HL'.
    destruct (GridMoreFacts.update_block_pitch_pitches g g') as (pl & Hpl & _);
      [apply Hinv | assumption |].
    destruct (GridMoreFacts.pitch_inv_divide g' pl L L' Hinv' Hpl HL HL' Hle Hdir)
      as (p & sp & w & Hp & Hsp & Hw & Hdiv).
    exists p, w, sp. rewrite (Z.add_comm w sp). auto.
Qed.

Lemma update_block_pitch_restores_witness :
  exists g, Grid.__init__ [1; 2] [50; 60] [50; 40] Grid.X (inl 100) = Ok g /\
    exists g', Grid.add_new_layer g 3 35 15 Grid.X 100 false false = Ok g' /\
      exists g'', Grid.update_block_pitch g' = Ok g'' /\
        Grid.update_block_pitch g'' = Ok g'' /\
        (In 3 (Grid.layers g'') -> In 1 (Grid.layers g'') -> 1 <= 3 ->
         Grid.dir_tracks g'' !! 1 = Grid.dir_tracks g'' !! 3 ->
         exists blk_pitch w sp,
           Grid.block_pitch g'' !! 3 = Some blk_pitch /\
           Grid.w_tracks g'' !! 1 = Some w /\ Grid.sp_tracks g'' !! 1 = Some sp /\
           (w + sp | blk_pitch)).
Proof.
  eexists. split; [vm_compute; reflexivity|].
  eexists. split; [vm_compute; reflexivity|].
  eexists. split; [vm_compute; reflexivity|].
  eapply update_block_pitch_restores.
  - refine (Grid.reach_add _ 3 35 15 Grid.X 100 false false _ _ _).
    + eapply (Grid.reach_init [1; 2] [50; 60] [50; 40] Grid.X (inl 100)).
      vm_compute. reflexivity.
    + vm_compute. reflexivity.
  - vm_compute. reflexivity.
Defined.

(** ** The constructor *)

Module InitFacts.
Import Grid.

Lemma nth_dir_S d i : nth_dir (if decide (d = X) then Y else X) i = nth_dir d (S i).
Proof.
  unfold nth_dir. rewrite Nat.even_succ, <- Nat.negb_even.
  destruct (Nat.even i), d; reflexivity.
Qed.

Lemma add_new_layer_fresh g layer_id sp_round w_round dir max_num_tr share_track :
  sp_tracks g !! layer_id = None ->
  add_new_layer g layer_id sp_round w_round dir max_num_tr share_track false
  = Ok (mkRoutingGrid (merge_sort Z.le (layers g ++ [layer_id]))
          (<[layer_id := 2 * sp_round]> (sp_tracks g))
          (<[layer_id := 2 * w_round]> (w_tracks g))
          (<[layer_id := if share_track then 0 else (2 * sp_round + 2 * w_round) / 2]>
             (offset_tracks g))
          (<[layer_id := dir]> (dir_tracks g))
          (<[layer_id := max_num_tr]> (max_num_tr_tracks g))
          (block_pitch g)).
Proof.
  intros Hfresh. unfold add_new_layer.
  rewrite decide_False by (rewrite Hfresh; intros [? ?]; discriminate).
  reflexivity.
Qed.

(** The loop of the constructor over distinct new layers. *)
Lemma init_loop_Ok lays : forall g spaces widths max_num_tr cur_dir,
  length spaces = length lays -> length widths = length lays ->
  length max_num_tr = length lays ->
  NoDup lays -> (forall lay, lay ∈ lays -> sp_tracks g !! lay = None) ->
  StronglySorted Z.le (layers g) ->
  exists g',
    init_loop g lays spaces widths max_num_tr cur_dir = Ok g' /\
    layers g' ≡ₚ layers g ++ lays /\
    StronglySorted Z.le (layers g') /\
    block_pitch g' = block_pitch g /\
    (forall L, L ∉ lays ->
       sp_tracks g' !! L = sp_tracks g !! L /\ w_tracks g' !! L = w_tracks g !! L /\
       offset_tracks g' !! L = offset_tracks g !! L /\
       dir_tracks g' !! L = dir_tracks g !! L) /\
    (forall (i : nat) lay sp w,
       lays !! i = Some lay -> spaces !! i = Some sp -> widths !! i = Some w ->
       sp_tracks g' !! lay = Some (2 * sp) /\ w_tracks g' !! lay = Some (2 * w) /\
       offset_tracks g' !! lay = Some (sp + w) /\
       dir_tracks g' !! lay = Some (nth_dir cur_dir i)).
Proof.
  induction lays as [|lay lays IH];
    intros g [|sp spaces] [|w widths] [|mx max_num_tr] cur_dir Hls Hlw Hlm Hnd Hfresh Hso;
    try discriminate.
  - exists g. cbn. rewrite app_nil_r.
    split; [reflexivity|]. split; [reflexivity|]. split; [assumption|].
    split; [reflexivity|]. split; [auto|].
    intros i ? ? ? Hi. destruct i; discriminate.
  - cbn [init_loop].
    rewrite add_new_layer_fresh by (apply Hfresh; left).
    set (g1 := mkRoutingGrid _ _ _ _ _ _ _).
    apply NoDup_cons in Hnd as [Hnotin Hnd].
    destruct (IH g1 spaces widths max_num_tr (if decide (cur_dir = X) then Y else X))
      as (g' & Hloop & Hperm & Hsorted & Hblk & Hout & Hin);
      [cbn in *; lia.. | assumption | | |].
    { intros L HL. cbn. rewrite lookup_insert_ne by (intros ->; contradiction).
      apply Hfresh. now right. }
    { cbn. apply StronglySorted_merge_sort; apply _. }
    exists g'. cbn. split; [exact Hloop|]. split; [|split; [assumption|split; [assumption|split]]].
    + rewrite Hperm. cbn. rewrite merge_sort_Permutation, <- app_assoc. reflexivity.
    + intros L HL. apply not_elem_of_cons in HL as [Hne HL].
      destruct (Hout L HL) as (-> & -> & -> & ->). cbn.
      rewrite !lookup_insert_ne by congruence. auto.
    + intros [|i] lay' sp' w' Hi Hs Hw; cbn in Hi, Hs, Hw.
      * injection Hi as <-. injection Hs as <-. injection Hw as <-.
        destruct (Hout lay Hnotin) as (-> & -> & -> & ->). cbn.
        rewrite !lookup_insert_eq. repeat split.
        f_equal. replace (2 * sp + 2 * w) with ((sp + w) * 2) by ring.
        apply Z.div_mul. lia.
      * rewrite <- nth_dir_S. eapply Hin; eassumption.
Qed.

(** The loop of the constructor stops with 'Layer ... already on routing grid.' at
    the first layer that is listed twice or is on the grid already. *)
Lemma init_loop_duplicate lays : forall g spaces widths max_num_tr cur_dir,
  length spaces = length lays -> length widths = length lays ->
  length max_num_tr = length lays ->
  (exists lay, lay ∈ lays /\ is_Some (sp_tracks g !! lay)) \/ ~ NoDup lays ->
  init_loop g lays spaces widths max_num_tr cur_dir = Raise (ValueError LayerOnGrid).
Proof.
  induction lays as [|lay lays IH];
    intros g [|sp spaces] [|w widths] [|mx max_num_tr] cur_dir Hls Hlw Hlm Hdup;
    try discriminate.
  - destruct Hdup as [(lay & Hin & _) | Hnd]; [inv Hin | destruct Hnd; constructor].
  - cbn [init_loop].
    destruct (decide (is_Some (sp_tracks g !! lay))) as [Hin | Hnin].
    + unfold add_new_layer.
      destruct (decide (is_Some (sp_tracks g !! lay))); [reflexivity | contradiction].
    + rewrite add_new_layer_fresh by (apply eq_None_not_Some; exact Hnin).
      cbn. apply IH; [cbn in *; lia..|]. cbn.
      destruct (decide (lay ∈ lays)) as [Hl | Hl].
      * left. exists lay. split; [assumption|]. rewrite lookup_insert_eq. eauto.
      * destruct Hdup as [(lay' & Hin' & Hsome) | Hnd].
        -- left. exists lay'. apply elem_of_cons in Hin' as [-> | Hin']; [contradiction|].
           split; [assumption|]. rewrite lookup_insert_is_Some'. auto.
        -- right. intros Hnd'. apply Hnd. constructor; assumption.
Qed.

(** [_lcm] on non-zero numbers returns a non-zero number. *)
Lemma _lcm_nonzero arr : forall init,
  init <> 0 -> Forall (fun val => val <> 0) arr ->
  exists r, _lcm arr init = Ok r /\ r <> 0.
Proof.
  induction arr as [|val arr IH]; intros init Hi Hall; cbn.
  - eauto.
  - inv Hall.
    assert (Hg : _gcd init val <> 0).
    { intros Hz. pose proof (GridMoreFacts._gcd_abs init val) as Habs.
      rewrite Hz in Habs. symmetry in Habs. apply Z.gcd_eq_0 in Habs. lia. }
    destruct (floordiv (init * val) (_gcd init val)) as [r|e] eqn:Hstep.
    + cbn. apply IH; [|assumption].
      apply GridMoreFacts.lcm_step_abs in Hstep.
      assert (Z.lcm init val <> 0) by (rewrite Z.lcm_eq_0; lia). lia.
    + rewrite floordiv_Ok in Hstep by assumption. discriminate.
Qed.

Lemma bot_pitch_iter_Ok dirs cur_dir lays : forall pitch_list,
  (forall lay, lay ∈ lays -> is_Some (dirs !! lay)) ->
  exists arr, bot_pitch_iter dirs cur_dir lays pitch_list = Ok arr.
Proof.
  induction lays as [|lay lays IH]; intros [|p pitch_list] Hd; cbn; eauto.
  destruct (Hd lay) as [d Hl]; [left|].
  apply GridFacts.getitem_Ok in Hl. rewrite Hl. cbn.
  destruct (IH pitch_list) as [rest ->]; [intros; apply Hd; now right|].
  cbn. eauto.
Qed.

(** [update_block_pitch] on a grid whose layers all have a non-zero track
    pitch. *)
Lemma update_block_pitch_loop_Ok g :
  (forall L, L ∈ layers g ->
     exists sp w, sp_tracks g !! L = Some sp /\ w_tracks g !! L = Some w /\
                  is_Some (dir_tracks g !! L) /\ sp + w <> 0) ->
  forall todo done pitch_list blk,
    layers g = done ++ todo -> length pitch_list = length done ->
    Forall (fun p => p <> 0) pitch_list ->
    exists blk', update_block_pitch_loop g todo pitch_list blk = Ok blk'.
Proof.
  intros Htab. induction todo as [|lay todo IH]; intros done pitch_list blk Hlay Hlen Hnz.
  - cbn. eauto.
  - cbn [update_block_pitch_loop].
    destruct (Htab lay) as (sp & w & Hsp & Hw & [d Hd] & Hne).
    { rewrite Hlay. apply elem_of_app. right. left. }
    apply GridFacts.getitem_Ok in Hsp, Hw, Hd. rewrite Hsp, Hw, Hd. cbn.
    assert (Hcur : exists cur,
              match pitch_list with
              | [] => Ok (sp + w)
              | _ => arr ← bot_pitch_iter (dir_tracks g) d (layers g) pitch_list;
                     _lcm arr (sp + w)
              end = Ok cur /\ cur <> 0).
    { destruct pitch_list as [|p0 pl] eqn:Hpl; [eauto|]. rewrite <- Hpl in *.
      destruct (bot_pitch_iter_Ok (dir_tracks g) d (layers g) pitch_list) as [arr Harr].
      { intros L HL. destruct (Htab L HL) as (? & ? & _ & _ & ? & _). assumption. }
      rewrite Harr. cbn. apply _lcm_nonzero; [assumption|].
      apply Forall_forall. intros p Hin%list_elem_of_In.
      destruct (GridMoreFacts.bot_pitch_iter_inv _ _ _ _ _ _ Harr Hin) as (i & L & _ & Hp & _).
      rewrite Forall_forall in Hnz. eapply Hnz, list_elem_of_lookup_2, Hp. }
    destruct Hcur as (cur & -> & Hcur). cbn.
    apply (IH (done ++ [lay])).
    + now rewrite <- app_assoc.
    + rewrite !length_app. cbn. lia.
    + apply Forall_app. split; [assumption | repeat constructor; assumption].
Qed.

(** [update_block_pitch] raises no [ValueError]. *)
Lemma bot_pitch_iter_Raise dirs cur_dir lays : forall pitch_list e,
  bot_pitch_iter dirs cur_dir lays pitch_list = Raise e -> e = KeyError.
Proof.
  induction lays as [|lay lays IH]; intros [|p pitch_list] e H; cbn in H; try discriminate.
  unfold getitem in H. destruct (dirs !! lay); cbn in H; [|congruence].
  destruct (bot_pitch_iter dirs cur_dir lays pitch_list) eqn:Hrest; cbn in H;
    [discriminate|].
  injection H as <-. eapply IH, Hrest.
Qed.

Lemma _lcm_Raise arr : forall init e, _lcm arr init = Raise e -> e = ZeroDivisionError.
Proof.
  induction arr as [|val arr IH]; intros init e H; cbn in H; [discriminate|].
  destruct (floordiv (init * val) (_gcd init val)) eqn:Hstep; cbn in H.
  - eapply IH, H.
  - injection H as <-. eapply floordiv_Raise, Hstep.
Qed.

Lemma update_block_pitch_loop_Raise g todo : forall pitch_list blk e,
  update_block_pitch_loop g todo pitch_list blk = Raise e ->
  e = KeyError \/ e = ZeroDivisionError.
Proof.
  induction todo as [|lay todo IH]; intros pitch_list blk e H; [discriminate|].
  cbn [update_block_pitch_loop] in H. unfold getitem in H.
  destruct (sp_tracks g !! lay); cbn in H; [|left; congruence].
  destruct (w_tracks g !! lay); cbn in H; [|left; congruence].
  destruct (dir_tracks g !! lay); cbn in H; [|left; congruence].
  match type of H with (?c ≫= _) = _ => destruct c eqn:Hcur end; cbn in H.
  - eapply IH, H.
  - injection H as <-. destruct pitch_list; [discriminate|].
    match type of Hcur with (?c ≫= _) = _ => destruct c eqn:Harr end; cbn in Hcur.
    + right. eapply _lcm_Raise, Hcur.
    + left. injection Hcur as <-. eapply bot_pitch_iter_Raise, Harr.
Qed.

End InitFacts.

(** The constructor on rounded spaces and widths raises a [ValueError] in
    exactly two cases: a length mismatch, or a layer listed twice. *)
Lemma constructor_value_errors_units
    (lays spaces widths : list Z) (bot_dir : Grid.direction) (max_num_tr : Z + list Z)
    (msg : value_error) :
  let lengths_match :=
    length spaces = length lays /\ length widths = length lays /\
    match max_num_tr with inl _ => True | inr l => length l = length lays end in
  Grid.__init__ lays spaces widths bot_dir max_num_tr = Raise (ValueError msg) <->
  (~ lengths_match /\ msg = LengthMismatch) \/
  (lengths_match /\ ~ NoDup lays /\ msg = LayerOnGrid).
Proof.
  cbn zeta. unfold Grid.__init__.
  destruct (length spaces =? length lays)%nat eqn:Hls; cbn;
    [apply Nat.eqb_eq in Hls | apply Nat.eqb_neq in Hls; split;
       [intros [= <-]; left; split; [tauto | reflexivity]
       | intros [[_ ->] | [[? _] _]]; [reflexivity | contradiction]]].
  destruct (length widths =? length lays)%nat eqn:Hlw; cbn;
    [apply Nat.eqb_eq in Hlw | apply Nat.eqb_neq in Hlw; split;
       [intros [= <-]; left; split; [tauto | reflexivity]
       | intros [[_ ->] | [(_ & ? & _) _]]; [reflexivity | contradiction]]].
  set (mx := match max_num_tr with inl n => Ok (replicate (length lays) n) | inr l => _ end).
  assert (Hmx : (exists l, mx = Ok l /\ length l = length lays /\
                           match max_num_tr with
                           | inl _ => True | inr l => length l = length lays end) \/
                (mx = Raise (ValueError LengthMismatch) /\
                 ~ match max_num_tr with
                   | inl _ => True | inr l => length l = length lays end)).
  { unfold mx. destruct max_num_tr as [n | l].
    - left. eexists. split; [reflexivity|]. rewrite length_replicate. auto.
    - destruct (length l =? length lays)%nat eqn:Hl; cbn;
        [apply Nat.eqb_eq in Hl | apply Nat.eqb_neq in Hl]; eauto. }
  clearbody mx. destruct Hmx as [(l & -> & Hl & Hmatch) | [-> Hmis]]; cbn; cycle 1.
  { split; [intros [= <-]; left; split; [tauto | reflexivity]
           | intros [[_ ->] | [(_ & _ & ?) _]]; [reflexivity | contradiction]]. }
  destruct (decide (NoDup lays)) as [Hnd | Hdup].
  - destruct (InitFacts.init_loop_Ok lays Grid.empty_grid spaces widths l bot_dir)
      as (g0 & -> & _); [assumption.. | intros; apply lookup_empty | constructor |].
    cbn. split; [|intros [[? _] | (_ & ? & _)]; tauto].
    intros H. unfold Grid.update_block_pitch in H.
    destruct (Grid.update_block_pitch_loop g0 (Grid.layers g0) [] (Grid.block_pitch g0))
      eqn:Hloop; cbn in H; [discriminate|].
    injection H as ->.
    apply InitFacts.update_block_pitch_loop_Raise in Hloop as [? | ?]; discriminate.
  - rewrite InitFacts.init_loop_duplicate by auto. cbn.
    split; [intros [= <-]; right; auto | intros [[? _] | (_ & _ & ->)]; tauto].
Qed.

Module LayoutInitFacts.
Import Grid.

Lemma add_new_layer_units g res layer_id tr_space tr_width sp_round w_round
    dir max_num_tr share_track override :
  Layout.rounds res tr_space sp_round -> Layout.rounds res tr_width w_round ->
  Layout.add_new_layer g res layer_id tr_space tr_width dir max_num_tr share_track override
  = Grid.add_new_layer g layer_id sp_round w_round dir max_num_tr share_track override.
Proof.
  unfold Layout.rounds, Layout.add_new_layer, Grid.add_new_layer. intros -> ->.
  destruct (decide _); [destruct override|]; reflexivity.
Qed.

Lemma init_loop_units res lays : forall g spaces widths sp_rounds w_rounds max_num_tr cur_dir,
  Forall2 (Layout.rounds res) spaces sp_rounds -> Forall2 (Layout.rounds res) widths w_rounds ->
  Layout.init_loop g res lays spaces widths max_num_tr cur_dir
  = Grid.init_loop g lays sp_rounds w_rounds max_num_tr cur_dir.
Proof.
  induction lays as [|lay lays IH];
    intros g spaces widths sp_rounds w_rounds max_num_tr cur_dir Hs Hw; [reflexivity|].
  destruct Hs as [|sp n spaces sp_rounds Hsp Hs]; [reflexivity|].
  destruct Hw as [|w m widths w_rounds Hwd Hw]; [reflexivity|].
  destruct max_num_tr as [|mx max_num_tr]; [reflexivity|].
  cbn [Layout.init_loop Grid.init_loop].
  rewrite (add_new_layer_units _ _ _ _ _ _ _ _ _ _ _ Hsp Hwd).
  destruct (Grid.add_new_layer g lay n m cur_dir mx false false) as [g'|]; [|reflexivity].
  cbn [mbind result_bind Py.bind]. now apply IH.
Qed.

(** The constructor on numbers that round is the constructor on what they
    round to. *)
Lemma init_units res lays spaces widths sp_rounds w_rounds bot_dir max_num_tr :
  Forall2 (Layout.rounds res) spaces sp_rounds -> Forall2 (Layout.rounds res) widths w_rounds ->
  Layout.__init__ res lays spaces widths bot_dir max_num_tr
  = Grid.__init__ lays sp_rounds w_rounds bot_dir max_num_tr.
Proof.
  intros Hs Hw. unfold Layout.__init__, Grid.__init__.
  rewrite <- (Forall2_length _ _ _ Hs), <- (Forall2_length _ _ _ Hw).
  destruct (negb _); [reflexivity|]. destruct (negb _); [reflexivity|].
  destruct (match max_num_tr with inl _ => _ | inr _ => _ end) as [mx|]; [|reflexivity].
  cbn [mbind result_bind Py.bind].
  now rewrite (init_loop_units res lays _ _ _ _ _ _ _ Hs Hw).
Qed.

Lemma rounds_all res (l : list Float64.number) :
  (forall x, x ∈ l -> exists n, Layout.half_units res x = Ok n) ->
  exists ns, Forall2 (Layout.rounds res) l ns.
Proof.
  induction l as [|x l IH]; intros H.
  - exists []. constructor.
  - destruct (H x) as [n Hn]; [left|].
    destruct IH as [ns Hns]; [intros y Hy; apply H; now right|].
    exists (n :: ns). now constructor.
Qed.

(** *** The grids of the constructor in layout units *)

Lemma add_new_layer_rounds g res layer_id tr_space tr_width dir max_num_tr share_track
    override g' :
  Layout.add_new_layer g res layer_id tr_space tr_width dir max_num_tr share_track override
    = Ok g' ->
  exists sp_round w_round,
    Layout.rounds res tr_space sp_round /\ Layout.rounds res tr_width w_round.
Proof.
  unfold Layout.add_new_layer, Layout.rounds. intros H.
  apply bind_Ok in H as (lays & _ & H).
  apply bind_Ok in H as (sp_round & Hsp & H).
  apply bind_Ok in H as (w_round & Hw & H). eauto.
Qed.

Lemma init_loop_rounds res lays : forall g spaces widths max_num_tr cur_dir g',
  length spaces = length lays -> length widths = length lays ->
  length max_num_tr = length lays ->
  Layout.init_loop g res lays spaces widths max_num_tr cur_dir = Ok g' ->
  exists sp_rounds w_rounds,
    Forall2 (Layout.rounds res) spaces sp_rounds /\
    Forall2 (Layout.rounds res) widths w_rounds.
Proof.
  induction lays as [|lay lays IH];
    intros g [|sp spaces] [|w widths] [|mx max_num_tr] cur_dir g' Hls Hlw Hlm H;
    try discriminate.
  - exists [], []. split; constructor.
  - cbn [Layout.init_loop] in H. apply bind_Ok in H as (g1 & Hadd & H).
    apply add_new_layer_rounds in Hadd as (n & m & Hn & Hm).
    injection Hls as Hls. injection Hlw as Hlw. injection Hlm as Hlm.
    destruct (IH _ _ _ _ _ _ Hls Hlw Hlm H) as (ns & ms & Hns & Hms).
    exists (n :: ns), (m :: ms). split; now constructor.
Qed.

(** A grid that the constructor returns is the grid of the constructor on
    rounded spaces and widths. *)
Lemma init_Ok_units res lays spaces widths bot_dir max_num_tr g :
  Layout.__init__ res lays spaces widths bot_dir max_num_tr = Ok g ->
  exists sp_rounds w_rounds,
    Forall2 (Layout.rounds res) spaces sp_rounds /\
    Forall2 (Layout.rounds res) widths w_rounds /\
    Grid.__init__ lays sp_rounds w_rounds bot_dir max_num_tr = Ok g.
Proof.
  intros H. pose proof H as H0. unfold Layout.__init__ in H.
  destruct (length spaces =? length lays)%nat eqn:Hls; [|discriminate].
  destruct (length widths =? length lays)%nat eqn:Hlw; [|discriminate].
  apply Nat.eqb_eq in Hls, Hlw. cbn [negb] in H.
  apply bind_Ok in H as (mx & Hmx & H).
  assert (Hlm : length mx = length lays).
  { destruct max_num_tr as [n|l].
    - injection Hmx as <-. apply length_replicate.
    - destruct (length l =? length lays)%nat eqn:Hl; [|discriminate].
      injection Hmx as <-. now apply Nat.eqb_eq. }
  apply bind_Ok in H as (g0 & Hloop & H).
  destruct (init_loop_rounds _ _ _ _ _ _ _ _ Hls Hlw Hlm Hloop) as (ns & ms & Hns & Hms).
  exists ns, ms. split; [assumption|]. split; [assumption|].
  now rewrite <- (init_units _ _ _ _ _ _ _ _ Hns Hms).
Qed.

Lemma init_reachable res lays spaces widths bot_dir max_num_tr g :
  Layout.__init__ res lays spaces widths bot_dir max_num_tr = Ok g -> reachable g.
Proof.
  intros H. apply init_Ok_units in H as (ns & ms & _ & _ & H).
  eapply reach_init, H.
Qed.

Lemma add_new_layer_reachable g res layer_id tr_space tr_width dir max_num_tr share_track
    override g' :
  reachable g ->
  Layout.add_new_layer g res layer_id tr_space tr_width dir max_num_tr share_track override
    = Ok g' ->
  reachable g'.
Proof.
  intros Hg H. pose proof H as H0.
  apply add_new_layer_rounds in H0 as (n & m & Hn & Hm).
  rewrite (add_new_layer_units _ _ _ _ _ _ _ _ _ _ _ Hn Hm) in H.
  eapply reach_add; eassumption.
Qed.

End LayoutInitFacts.

(** X7.  When every given space and width is a number that
    [int(round(x / (2 * resolution)))] makes an integer of, the constructor
    raises a [ValueError] in exactly two cases: the lists of spaces, widths
    or track limits do not have the length of the layer list ('... length
    mismatch'), or they have and a layer is listed twice ('Layer ... already
    on routing grid.'). *)
Theorem init_value_errors
    (res : Float64.float) (lays : list Z) (spaces widths : list Float64.number)
    (bot_dir : Grid.direction) (max_num_tr : Z + list Z) (msg : value_error) :
  (forall x, x ∈ spaces ++ widths -> exists n, Grid.Layout.half_units res x = Ok n) ->
  let lengths_match :=
    length spaces = length lays /\ length widths = length lays /\
    match max_num_tr with inl _ => True | inr l => length l = length lays end in
  Grid.Layout.__init__ res lays spaces widths bot_dir max_num_tr = Raise (ValueError msg) <->
  (~ lengths_match /\ msg = LengthMismatch) \/
  (lengths_match /\ ~ NoDup lays /\ msg = LayerOnGrid).
Proof.
  intros Hround.
  destruct (LayoutInitFacts.rounds_all res spaces) as [sp_rounds Hs].
  { intros x Hx. apply Hround, elem_of_app. now left. }
  destruct (LayoutInitFacts.rounds_all res widths) as [w_rounds Hw].
  { intros x Hx. apply Hround, elem_of_app. now right. }
  rewrite (LayoutInitFacts.init_units _ _ _ _ _ _ _ _ Hs Hw).
  rewrite (Forall2_length _ _ _ Hs), (Forall2_length _ _ _ Hw).
  apply constructor_value_errors_units.
Qed.

Lemma init_value_errors_witness :
  let res := Float64.of_ratio 1 1000 in
  let spaces := [Float64.Float (Float64.of_ratio 1 10); Float64.Int 1] in
  let widths := [Float64.Float (Float64.of_ratio 1 10); Float64.Float (Float64.of_ratio 8 100)] in
  Grid.Layout.__init__ res [1; 1] spaces widths Grid.X (inl 100)
    = Raise (ValueError LayerOnGrid) <->
  (~ (length spaces = 2%nat /\ length widths = 2%nat /\ True) /\ LayerOnGrid = LengthMismatch) \/
  ((length spaces = 2%nat /\ length widths = 2%nat /\ True) /\ ~ NoDup [1; 1] /\
   LayerOnGrid = LayerOnGrid).
Proof.
  intros res spaces widths.
  apply (init_value_errors res [1; 1] spaces widths Grid.X (inl 100) LayerOnGrid).
  intros x Hx. unfold spaces, widths in Hx. cbn [app] in Hx.
  repeat (apply elem_of_cons in Hx as [->|Hx]; [eexists; vm_compute; reflexivity|]).
  inversion Hx.
Defined.

(** Outside of this domain: a space that is not a number gives another
    [ValueError], unless a layer listed twice comes first, and a resolution
    of zero a [ZeroDivisionError]. *)
Example init_nan_space :
  Grid.Layout.__init__ (Float64.of_ratio 1 1000) [1]
    [Float64.Float SpecFloat.S754_nan] [Float64.Float (Float64.of_ratio 1 10)]
    Grid.X (inl 100) = Raise (ValueError FloatNaNToInteger) /\
  Grid.Layout.__init__ (Float64.of_ratio 1 1000) [1; 1]
    [Float64.Int 1; Float64.Float SpecFloat.S754_nan]
    [Float64.Float (Float64.of_ratio 1 10); Float64.Float (Float64.of_ratio 1 10)]
    Grid.X (inl 100) = Raise (ValueError LayerOnGrid) /\
  Grid.Layout.__init__ (SpecFloat.S754_zero false) [1]
    [Float64.Int 1] [Float64.Int 1] Grid.X (inl 100) = Raise ZeroDivisionError.
Proof. repeat split; vm_compute; reflexivity. Qed.

(** X8.  The constructor returns a grid when the lists have the length of
    the layer list, the layers are distinct and no layer has a zero track
    pitch.  The grid holds exactly the given layers, in increasing order;
    the [i]-th given layer has twice the rounded space and width, an offset
    of half its pitch, and directions alternate from [bot_dir] on. *)
Theorem init_returns_grid
    (lays spaces widths : list Z) (bot_dir : Grid.direction) (max_num_tr : Z + list Z) :
  length spaces = length lays -> length widths = length lays ->
  match max_num_tr with inl _ => True | inr l => length l = length lays end ->
  NoDup lays ->
  (forall (i : nat) sp w, spaces !! i = Some sp -> widths !! i = Some w -> sp + w <> 0) ->
  exists g,
    Grid.__init__ lays spaces widths bot_dir max_num_tr = Ok g /\
    Grid.layers g ≡ₚ lays /\ StronglySorted Z.le (Grid.layers g) /\
    forall (i : nat) lay sp w,
      lays !! i = Some lay -> spaces !! i = Some sp -> widths !! i = Some w ->
      Grid.sp_tracks g !! lay = Some (2 * sp) /\ Grid.w_tracks g !! lay = Some (2 * w) /\
      Grid.offset_tracks g !! lay = Some (sp + w) /\
      Grid.dir_tracks g !! lay = Some (Grid.nth_dir bot_dir i).
Proof.
  intros Hls Hlw Hlm Hnd Hnz. unfold Grid.__init__.
  rewrite Hls, Hlw, !Nat.eqb_refl. cbn.
  set (mx := match max_num_tr with inl n => Ok (replicate (length lays) n) | inr l => _ end).
  assert (Hmx : exists l, mx = Ok l /\ length l = length lays).
  { unfold mx. destruct max_num_tr as [n | l].
    - eexists. split; [reflexivity|]. now rewrite length_replicate.
    - rewrite Hlm, Nat.eqb_refl. cbn. eauto. }
  clearbody mx. destruct Hmx as (l & -> & Hl). cbn.
  destruct (InitFacts.init_loop_Ok lays Grid.empty_grid spaces widths l bot_dir)
    as (g0 & -> & Hperm & Hsorted & _ & _ & Htab);
    [assumption.. | intros; apply lookup_empty | constructor |].
  cbn in Hperm. cbn. unfold Grid.update_block_pitch.
  destruct (InitFacts.update_block_pitch_loop_Ok g0) with
    (todo := Grid.layers g0) (done := @nil Z) (pitch_list := @nil Z)
    (blk := Grid.block_pitch g0) as [blk ->]; [| reflexivity | reflexivity | constructor |].
  { intros L HL. rewrite Hperm in HL. apply list_elem_of_lookup in HL as [i Hi].
    destruct (lookup_lt_is_Some_2 spaces i) as [sp Hs];
      [rewrite Hls; eapply lookup_lt_Some, Hi|].
    destruct (lookup_lt_is_Some_2 widths i) as [w Hw];
      [rewrite Hlw; eapply lookup_lt_Some, Hi|].
    destruct (Htab i L sp w Hi Hs Hw) as (Hsp' & Hw' & _ & Hd').
    exists (2 * sp), (2 * w). split; [assumption|]. split; [assumption|].
    split; [eauto|]. specialize (Hnz i sp w Hs Hw). lia. }
  cbn. eexists. split; [reflexivity|]. cbn. auto.
Qed.

Lemma init_returns_grid_witness :
  exists g,
    Grid.__init__ [1; 2; 3] [50; 60; 70] [50; 40; 30] Grid.X (inl 100) = Ok g /\
    Grid.layers g ≡ₚ [1; 2; 3] /\ StronglySorted Z.le (Grid.layers g) /\
    forall (i : nat) lay sp w,
      [1; 2; 3] !! i = Some lay -> [50; 60; 70] !! i = Some sp ->
      [50; 40; 30] !! i = Some w ->
      Grid.sp_tracks g !! lay = Some (2 * sp) /\ Grid.w_tracks g !! lay = Some (2 * w) /\
      Grid.offset_tracks g !! lay = Some (sp + w) /\
      Grid.dir_tracks g !! lay = Some (Grid.nth_dir Grid.X i).
Proof.
  apply (init_returns_grid [1; 2; 3] [50; 60; 70] [50; 40; 30] Grid.X (inl 100)).
  - reflexivity.
  - reflexivity.
  - exact I.
  - apply (bool_decide_unpack _). vm_compute. exact I.
  - intros [|[|[|i]]] sp w Hs Hw; cbn in Hs, Hw; try discriminate;
      injection Hs as Hs; injection Hw as Hw; lia.
Defined.

(** ** Tracks and coordinates *)

Module TrackFacts.
Import Grid.

(** The tables of a layer whose track pitch is known. *)
Lemma track_pitch_tables g L pitch :
  reachable g -> track_pitch g L = Some pitch ->
  exists sp w off hp,
    sp_tracks g !! L = Some sp /\ w_tracks g !! L = Some w /\
    offset_tracks g !! L = Some off /\
    pitch = sp + w /\ pitch = 2 * hp /\ pitch / 2 = hp /\
    Z.even sp = true /\ Z.even w = true /\ (off = hp \/ off = 0).
Proof.
  intros Hreach Hp. unfold track_pitch in Hp.
  destruct (sp_tracks g !! L) as [sp|] eqn:Hsp; [|discriminate].
  assert (HL : L ∈ layers g).
  { apply GridFacts.reachable_inv in Hreach as [_ _ Hl _ _ _]. apply Hl. eauto. }
  destruct (GridMoreFacts.reachable_tables g L Hreach HL)
    as (sp' & w & d & off & Hsp' & Hw & _ & Hoff & Hes & Hew & Ho).
  rewrite Hw in Hp. cbn in Hp. injection Hp as <-.
  assert (sp' = sp) as -> by congruence.
  assert (Heven : Z.even (sp + w) = true) by (rewrite Z.even_add, Hes, Hew; reflexivity).
  apply Zeven_bool_iff, Zeven_ex_iff in Heven as [hp Hhp].
  assert (Hhalf : (sp + w) / 2 = hp) by (rewrite Hhp, Z.mul_comm; apply Z.div_mul; lia).
  exists sp, w, off, hp. rewrite Hhalf in Ho. repeat split; auto.
Qed.



End TrackFacts.









(** ** Track ranges and spacing *)

Module SpaceFacts.

(** [get_num_space_tracks] returns the least number of empty tracks that
    leaves the minimum space. *)
Lemma num_space_tracks_minimal
    (g : Grid.RoutingGrid) (layer_id sp_min_unit pitch : Z) :
  Grid.reachable g ->
  Grid.track_pitch g layer_id = Some pitch -> 0 < pitch ->
  exists n sp,
    Grid.sp_tracks g !! layer_id = Some sp /\
    Grid.get_num_space_tracks g layer_id sp_min_unit = Ok n /\
    sp_min_unit <= n * pitch + sp /\
    (n - 1) * pitch + sp < sp_min_unit.
Proof.
  intros Hreach Hpitch Hpos.
  destruct (TrackFacts.track_pitch_tables g layer_id pitch Hreach Hpitch)
    as (sp & w & off & hp & Hsp & Hw & Hoff & -> & Hhp & Hhalf & _).
  pose proof Hsp as Hsp'. pose proof Hw as Hw'.
  apply GridFacts.getitem_Ok in Hsp', Hw'.
  unfold Grid.get_num_space_tracks. rewrite Hw', Hsp'. cbn.
  rewrite (Z.add_comm w sp), Hhalf.
  rewrite floordiv_Ok by lia. cbn.
  pose proof (Z.div_mod (- (sp_min_unit - sp)) hp ltac:(lia)) as Hdm.
  pose proof (Z.mod_pos_bound (- (sp_min_unit - sp)) hp ltac:(lia)) as Hr.
  set (q := - (sp_min_unit - sp) / hp) in *.
  set (r := (- (sp_min_unit - sp)) mod hp) in *. clearbody q r.
  pose proof (Z.div_mod (- q) 2 ltac:(lia)) as Hdm2.
  pose proof (Z.mod_pos_bound (- q) 2 ltac:(lia)) as Hr2.
  destruct ((- q) mod 2 =? 0) eqn:Hpar.
  - apply Z.eqb_eq in Hpar.
    exists (- q / 2), sp. split; [assumption|]. split; [reflexivity|].
    set (n := - q / 2) in *. clearbody n. nia.
  - apply Z.eqb_neq in Hpar.
    pose proof (Z.div_mod (- q + 1) 2 ltac:(lia)) as Hdm3.
    pose proof (Z.mod_pos_bound (- q + 1) 2 ltac:(lia)) as Hr3.
    exists ((- q + 1) / 2), sp. split; [assumption|]. split; [reflexivity|].
    set (n := (- q + 1) / 2) in *. set (n' := - q / 2) in *.
    set (m := (- q + 1) mod 2) in *. set (m' := (- q) mod 2) in *.
    clearbody n n' m m'. nia.
Qed.

End SpaceFacts.

(** X13.  [get_num_space_tracks] returns the least number [n] of empty
    tracks that leaves the minimum space: with [n] empty tracks between
    them two wires are [n * pitch + sp] apart, which is at least the
    minimum space, and with [n - 1] they are closer than that. *)
Theorem get_num_space_tracks_minimal
    (g : Grid.RoutingGrid) (layer_id sp_min_unit pitch : Z) :
  Grid.reachable g ->
  Grid.track_pitch g layer_id = Some pitch -> 0 < pitch ->
  exists n sp,
    Grid.sp_tracks g !! layer_id = Some sp /\
    Grid.get_num_space_tracks g layer_id sp_min_unit = Ok n /\
    sp_min_unit <= n * pitch + sp /\
    (n - 1) * pitch + sp < sp_min_unit.
Proof. apply SpaceFacts.num_space_tracks_minimal. Qed.

Lemma get_num_space_tracks_minimal_witness :
  exists g, Grid.__init__ [1; 2] [50; 60] [50; 40] Grid.X (inl 100) = Ok g /\
    exists n sp,
      Grid.sp_tracks g !! 1 = Some sp /\
      Grid.get_num_space_tracks g 1 350 = Ok n /\
      350 <= n * 200 + sp /\ (n - 1) * 200 + sp < 350.
Proof.
  eexists. split; [vm_compute; reflexivity|].
  apply get_num_space_tracks_minimal.
  - eapply (Grid.reach_init [1; 2] [50; 60] [50; 40] Grid.X (inl 100)).
    vm_compute. reflexivity.
  - vm_compute. reflexivity.
  - lia.
Defined.





(** X16.  [get_evenly_spaced_tracks] places [num_tracks] wires of
    [track_width] tracks inside the [tot_space] available tracks whenever
    they fit and [num_tracks * tot_space] is at most [2 ^ 50], so that the
    [int64] arithmetic does not wrap and the floats are exact: it returns
    [num_tracks] indices, every wire stays within the tracks
    [0 .. tot_space - 1], and consecutive wires do not overlap (with
    [half_end_space], or when at least one track is left over). *)
Theorem get_evenly_spaced_tracks_fit
    (num_tracks tot_space track_width : Z) (half_end_space : bool) :
  1 <= num_tracks -> 1 <= track_width -> num_tracks * track_width <= tot_space ->
  num_tracks * tot_space <= 2 ^ 50 ->
  exists idx_list,
    Grid.get_evenly_spaced_tracks num_tracks tot_space track_width half_end_space
      = Ok idx_list /\
    length idx_list = Z.to_nat num_tracks /\
    (forall t, In t idx_list ->
       track_width - 1 <= twice t <= 2 * (tot_space - 1) - (track_width - 1)) /\
    (half_end_space = true \/ num_tracks * track_width < tot_space ->
     forall (k : nat) a b,
       idx_list !! k = Some a -> idx_list !! S k = Some b ->
       twice a + 2 * track_width <= twice b).
Proof.
  intros Hn Hw Hfit Hbig. unfold Grid.get_evenly_spaced_tracks.
  change (2 ^ 50) with 1125899906842624 in Hbig.
  set (n := num_tracks) in *. set (N := tot_space) in *. set (W := track_width) in *.
  set (sod := if half_end_space then _ else _).
  assert (Hsod : exists scale offset den,
            sod = (scale, offset, den) /\ 0 < den /\
            den * W <= offset /\
            scale * (n - 1) + offset < den * (2 * N - W + 1) /\
            0 <= scale /\
            (half_end_space = true \/ n * W < N -> 2 * W * den <= scale) /\
            scale * (n - 1) + offset <= 8 * (n * N) /\ 0 <= offset /\ den <= 4 * n /\
            scale <= 8 * N).
  { unfold sod. destruct half_end_space; do 3 eexists; (split; [reflexivity|]);
      (repeat split); try nia; intros [?|?]; try discriminate; nia. }
  destruct Hsod as (scale & offset & den & -> & Hden & Hlo & Hhi & Hsc & Hstep & Hmax
                    & Hoff & Hden4 & Hscale).
  assert (HnN : n <= n * N) by nia.
  assert (Hsmall : forall k, 0 <= k < n ->
            0 <= scale * k /\ scale * k + offset <= 8 * (n * N)) by (intros; nia).
  unfold Np.arange. rewrite (NpFacts.int64_Ok n) by (unfold Np.int64_min, Np.int64_max; lia).
  cbn -[Np.int64 Np.floordiv Np.wrap64 Np.round53].
  rewrite (NpFacts.int64_Ok scale) by (unfold Np.int64_min, Np.int64_max; nia).
  cbn -[Np.int64 Np.floordiv Np.wrap64 Np.round53].
  rewrite (NpFacts.int64_Ok offset)
    by (unfold Np.int64_min, Np.int64_max; specialize (Hsmall 0); lia).
  cbn -[Np.int64 Np.floordiv Np.wrap64 Np.round53].
  rewrite (NpFacts.int64_Ok den) by (unfold Np.int64_min, Np.int64_max; lia).
  cbn -[Np.int64 Np.floordiv Np.wrap64 Np.round53].
  assert (Helem : forall k, 0 <= k < n ->
            Np.round53 (Np.wrap64
              (Np.floordiv (Np.wrap64 (Np.wrap64 (scale * k) + offset)) den - 1))
            = (scale * k + offset) / den - 1).
  { intros k Hk. destruct (Hsmall k Hk) as [H0 H1].
    rewrite (NpFacts.wrap64_id (scale * k))
      by (unfold Np.int64_min, Np.int64_max; lia).
    rewrite (NpFacts.wrap64_id (scale * k + offset))
      by (unfold Np.int64_min, Np.int64_max; lia).
    rewrite NpFacts.floordiv_id
      by (unfold Np.int64_min, Np.int64_max; lia).
    assert (0 <= (scale * k + offset) / den) by (apply Z.div_pos; lia).
    assert ((scale * k + offset) / den <= 8 * (n * N)).
    { apply Z.div_le_upper_bound; nia. }
    rewrite NpFacts.wrap64_id by (unfold Np.int64_min, Np.int64_max; lia).
    apply NpFacts.round53_id. change (2 ^ 53) with 9007199254740992. lia. }
  eexists. split; [reflexivity|].
  rewrite !length_map, length_seqZ. split; [reflexivity|]. split.
  - intros t Hin. apply in_map_iff in Hin as (hidx & <- & Hin).
    apply in_map_iff in Hin as (k & <- & Hin).
    apply list_elem_of_In, elem_of_seqZ in Hin.
    cbn -[Np.floordiv Np.wrap64 Np.round53]. rewrite Helem by lia.
    assert (W <= (scale * k + offset) / den).
    { apply Z.div_le_lower_bound; [assumption | nia]. }
    assert ((scale * k + offset) / den < 2 * N - W + 1).
    { apply Z.div_lt_upper_bound; [assumption | nia]. }
    lia.
  - intros Hcond k a b Ha Hb. specialize (Hstep Hcond).
    rewrite !list_lookup_fmap in Ha, Hb.
    destruct (seqZ 0 n !! k) as [i|] eqn:Hi; [|discriminate].
    destruct (seqZ 0 n !! S k) as [j|] eqn:Hj; [|discriminate].
    apply lookup_seqZ in Hi as [Hi Hik]. apply lookup_seqZ in Hj as [Hj Hjk].
    assert (j = i + 1) as -> by lia. clear Hj.
    cbn -[Np.floordiv Np.wrap64 Np.round53] in Ha, Hb.
    injection Ha as <-. injection Hb as <-.
    cbn -[Np.floordiv Np.wrap64 Np.round53]. rewrite !Helem by lia.
    assert ((scale * i + offset) / den + 2 * W
            <= (scale * (i + 1) + offset) / den); [|lia].
    rewrite <- Z.div_add by lia.
    apply Z.div_le_mono; [assumption | nia].
Qed.

Lemma get_evenly_spaced_tracks_fit_witness :
  exists idx_list,
    Grid.get_evenly_spaced_tracks 3 10 2 false = Ok idx_list /\
    length idx_list = Z.to_nat 3 /\
    (forall t, In t idx_list -> 2 - 1 <= twice t <= 2 * (10 - 1) - (2 - 1)) /\
    (false = true \/ 3 * 2 < 10 ->
     forall (k : nat) a b,
       idx_list !! k = Some a -> idx_list !! S k = Some b ->
       twice a + 2 * 2 <= twice b).
Proof.
  apply (get_evenly_spaced_tracks_fit 3 10 2 false); [lia | lia | lia |].
  vm_compute. discriminate.
Defined.

(** Beyond the bound: with 3 tracks in [2 ^ 60] the last half index wraps
    around and the track is negative, and the first index is rounded by
    the conversion to a float; with [2 ^ 62], [scale] does not fit. *)
Example get_evenly_spaced_tracks_wraps :
  Grid.get_evenly_spaced_tracks 3 (2 ^ 60) 1 true
    = Ok [Half 384307168202282304; Half (2 ^ 60); Half (- 2 ^ 60)] /\
  Grid.get_evenly_spaced_tracks 3 (2 ^ 62) 1 true = Raise OverflowError.
Proof. split; vm_compute; reflexivity. Qed.

(** ** Packing: translation, block lengths and edges *)

Module FillMoreFacts.
Import Fill.

Lemma first_half_translate d n : forall sp b0 b1 kk mm invert fill_on_edge ans marker cs ps,
  first_half n sp b0 b1 kk mm invert fill_on_edge (map (translate d) ans) (marker + d) cs ps
  = (map (translate d) (fst (first_half n sp b0 b1 kk mm invert fill_on_edge ans marker cs ps)),
     snd (first_half n sp b0 b1 kk mm invert fill_on_edge ans marker cs ps) + d).
Proof.
  induction n as [|n IH]; intros; cbn [first_half]; [reflexivity|].
  set (cur_len := if cs <? ps then b1 else b0).
  replace (marker + d + (cur_len + sp)) with (marker + (cur_len + sp) + d) by ring.
  match goal with
  | |- first_half _ _ _ _ _ _ _ _ ?a1 _ _ _ = (map _ (fst (first_half _ _ _ _ _ _ _ _ ?a2 _ _ _)), _) =>
      replace a1 with (map (translate d) a2)
  end.
  - apply IH.
  - destruct invert, fill_on_edge; rewrite map_app; cbn; unfold translate; cbn;
      do 3 f_equal; ring.
Qed.

Lemma second_half_translate d shift ans half_len :
  second_half (shift + d * 2) (map (translate d) ans) half_len
  = map (translate d) (second_half shift ans half_len).
Proof.
  unfold second_half. rewrite firstn_map, <- map_rev, !map_map.
  apply map_ext. intros [a b]. unfold translate. cbn. f_equal; ring.
Qed.

Lemma removelast_map {A B} (f : A -> B) (l : list A) :
  removelast (map f l) = map f (removelast l).
Proof.
  induction l as [|a [|b l] IH]; [reflexivity..|].
  cbn [map removelast] in *. now rewrite IH.
Qed.

(** Moving the offset moves the result of the helper. *)
Lemma helper_translate tot_area num_blk_tot sp offset inc_sp invert fill_on_edge cyclic :
  _fill_symmetric_helper tot_area num_blk_tot sp offset inc_sp invert fill_on_edge cyclic
  = (r ← _fill_symmetric_helper tot_area num_blk_tot sp 0 inc_sp invert fill_on_edge cyclic;
     Ok (map (translate offset) (fst r), snd r)).
Proof.
  unfold _fill_symmetric_helper.
  destruct (_fill_symmetric_info tot_area num_blk_tot sp inc_sp fill_on_edge cyclic)
    as [fi|e]; [cbn -[removelast] | reflexivity].
  set (marker0 := if cyclic then if fill_on_edge then 0 - blk1 fi / 2 else 0 - sp / 2 else 0).
  replace (if cyclic then if fill_on_edge then offset - blk1 fi / 2 else offset - sp / 2
           else offset) with (marker0 + offset)
    by (unfold marker0; destruct cyclic, fill_on_edge; ring).
  change (@nil intv) with (map (translate offset) (@nil intv)) at 1.
  rewrite first_half_translate.
  destruct (first_half (Z.to_nat (m fi)) sp (blk0 fi) (blk1 fi) (k fi) (m fi)
              invert fill_on_edge [] marker0 0 1) as [ans marker]. cbn [fst snd].
  replace (tot_area + offset * 2) with (tot_area + 0 * 2 + offset * 2) by ring.
  destruct (mid_blk_len fi >=? 0), invert, fill_on_edge; cbn -[removelast second_half];
    try match goal with
        | |- context [match map _ ?l with [] => _ | _ :: _ => _ end] =>
            destruct l as [|a0 ans0]; [reflexivity|];
            change (map (translate offset) (a0 :: ans0))
              with (translate offset a0 :: map (translate offset) ans0);
            cbn iota; cbn -[removelast second_half];
            change (translate offset a0 :: map (translate offset) ans0)
              with (map (translate offset) (a0 :: ans0))
        end;
    match goal with
    | |- Ok (?X ++ second_half _ ?X ?hl, _) = Ok (map _ (?Y ++ second_half _ ?Y ?hl'), _) =>
        replace X with (map (translate offset) Y);
        [rewrite ?removelast_map, ?length_map, second_half_translate;
         rewrite (map_app (translate offset) Y (second_half (tot_area + 0 * 2) Y hl'));
         reflexivity|]
    end;
    rewrite ?removelast_map, ?map_app; try reflexivity;
    cbn; unfold translate at 2; cbn; do 3 f_equal; ring.
Qed.

End FillMoreFacts.

(** X17.  The packing functions are translation invariant: a call with an
    offset gives what the call with offset 0 gives (the same error, or the
    same list) with every interval moved by the offset. *)
Theorem fill_symmetric_offset_translates
    (area sp n_min n_max offset : Z) (cyclic : bool) :
  Fill.fill_symmetric_max area n_min n_max sp offset cyclic
  = (l ← Fill.fill_symmetric_max area n_min n_max sp 0 cyclic;
     Ok (map (Fill.translate offset) l)) /\
  Fill.fill_symmetric_const_space area sp n_min n_max offset
  = (l ← Fill.fill_symmetric_const_space area sp n_min n_max 0;
     Ok (map (Fill.translate offset) l)).
Proof.
  assert (Hfst : forall tot num s inc inv foe cyc,
            (r ← Fill._fill_symmetric_helper tot num s offset inc inv foe cyc; Ok (fst r))
            = (l ← (r ← Fill._fill_symmetric_helper tot num s 0 inc inv foe cyc; Ok (fst r));
               Ok (map (Fill.translate offset) l))).
  { intros. rewrite FillMoreFacts.helper_translate.
    destruct (Fill._fill_symmetric_helper tot num s 0 inc inv foe cyc) as [[l b]|e];
      reflexivity. }
  split.
  - unfold Fill.fill_symmetric_max.
    destruct (n_min >=? n_max); [reflexivity|].
    destruct ((n_min <=? area) && (area <=? n_max) && negb cyclic).
    { cbn. unfold Fill.translate. cbn. do 3 f_equal; ring. }
    destruct (Fill.search_blk_len _ area sp cyclic n_max) as [[[blk_len_max num_blk_min] num_sp_min]|e];
      [cbn | reflexivity].
    destruct ((num_blk_min <=? 0) || (num_sp_min <=? 0)); [reflexivity|].
    destruct (_ <=? _); [apply Hfst|].
    destruct (floordiv _ _) as [q|e]; [cbn | reflexivity].
    destruct (q <? n_min); [reflexivity | apply Hfst].
  - unfold Fill.fill_symmetric_const_space.
    destruct (n_min >? n_max); [reflexivity|].
    destruct (floordiv _ _) as [q|e]; [cbn | reflexivity].
    destruct (- q =? 0); [reflexivity|].
    destruct (floordiv _ _) as [q2|e]; [cbn | reflexivity].
    destruct (q2 >=? n_min); [apply Hfst|].
    destruct (divmod _ _) as [[sp_max remainder]|e]; [cbn | reflexivity].
    destruct ((n_max >? n_min) || (remainder =? 0)); [apply Hfst|].
    rewrite (FillMoreFacts.helper_translate area (- q + 1) n_max offset false true true false).
    destruct (Fill._fill_symmetric_helper area (- q + 1) n_max 0 false true true false)
      as [[sol same]|e]; [cbn | reflexivity].
    destruct same; [reflexivity | apply Hfst].
Qed.

Module PackFacts.
Import Fill.

(** What [_fill_symmetric_info] returns for a non-cyclic request of at
    least one block: the two block lengths are [q] and [q + 1], the half
    holds [m] blocks, and there is a middle block exactly when the number
    of blocks is odd. *)
Lemma info_noncyclic tot_area num_blk_tot sp inc_sp fill_on_edge fi :
  1 <= num_blk_tot ->
  _fill_symmetric_info tot_area num_blk_tot sp inc_sp fill_on_edge false = Ok fi ->
  let q := (tot_area - (if fill_on_edge then num_blk_tot - 1 else num_blk_tot + 1) * sp)
           / num_blk_tot in
  1 <= q /\
  ((blk0 fi = q /\ blk1 fi = q + 1) \/ (blk0 fi = q + 1 /\ blk1 fi = q)) /\
  0 <= m fi /\
  ((mid_blk_len fi = -1 /\ 2 * m fi = num_blk_tot) \/
   ((mid_blk_len fi = q \/ mid_blk_len fi = q + 1) /\ 2 * m fi + 1 = num_blk_tot)) /\
  (num_blk_tot = 1 -> mid_blk_len fi = q).
Proof.
  intros Hn H. cbn zeta. unfold _fill_symmetric_info in H. cbn [andb negb] in H.
  set (num_sp_tot := if fill_on_edge then num_blk_tot - 1 else num_blk_tot + 1) in *.
  destruct ((num_sp_tot =? 0) && negb (sp =? 0)); [discriminate|].
  rewrite divmod_Ok in H by lia. cbn in H.
  pose proof (Z.mod_pos_bound (tot_area - num_sp_tot * sp) num_blk_tot ltac:(lia)) as Hr.
  set (q := (tot_area - num_sp_tot * sp) / num_blk_tot) in *.
  set (r := (tot_area - num_sp_tot * sp) mod num_blk_tot) in *.
  clearbody q r.
  destruct (q <=? 0) eqn:Hq; [discriminate|]. apply Z.leb_gt in Hq.
  assert (Hn1 : num_blk_tot = 1 -> r = 0) by lia.
  destruct (num_blk_tot mod 2 =? 0) eqn:Hpar;
    destruct (r mod 2 =? 1) eqn:Hrpar; cbn in H;
    match type of H with
    | (if ?c then _ else _) = _ => destruct c eqn:Hc
    end; injection H as <-; cbn;
    repeat match goal with
           | H : (_ =? _) = true |- _ => apply Z.eqb_eq in H
           | H : (_ =? _) = false |- _ => apply Z.eqb_neq in H
           | H : (_ >=? _) = true |- _ => apply Z.geb_le in H
           | H : (_ >=? _) = false |- _ => clear H
           end;
    destruct inc_sp; Z.div_mod_to_equations; lia.
Qed.

(** The loop of the helper appends one interval per iteration; without
    [invert] each is [blk0] or [blk1] long, and the first one starts at the
    marker (fill on the edge) or one space after it. *)
Lemma first_half_spec n : forall sp b0 b1 kk mm fill_on_edge ans marker cs ps,
  exists new,
    fst (first_half n sp b0 b1 kk mm false fill_on_edge ans marker cs ps) = ans ++ new /\
    length new = n /\
    Forall (fun i : intv => snd i - fst i = b0 \/ snd i - fst i = b1) new /\
    (forall x, head new = Some x -> fst x = if fill_on_edge then marker else marker + sp).
Proof.
  induction n as [|n IH]; intros; cbn [first_half].
  - exists []. rewrite app_nil_r. repeat split; [constructor | discriminate].
  - set (cur_len := if cs <? ps then b1 else b0).
    set (x := if fill_on_edge then (marker, marker + cur_len)
              else (marker + sp, marker + sp + cur_len)).
    destruct (IH sp b0 b1 kk mm fill_on_edge (ans ++ [x]) (marker + (cur_len + sp))
                ((cs + kk) mod mm) cs) as (new & Hnew & Hlen & Hall & _).
    exists (x :: new).
    replace (if fill_on_edge then ans ++ [(marker, marker + cur_len)]
             else ans ++ [(marker + sp, marker + sp + cur_len)]) with (ans ++ [x])
      by (unfold x; destruct fill_on_edge; reflexivity).
    rewrite Hnew, <- app_assoc. split; [reflexivity|]. split; [cbn; lia|]. split.
    + constructor; [|assumption].
      unfold x, cur_len. destruct fill_on_edge, (cs <? ps); cbn; lia.
    + intros y [= <-]. unfold x. destruct fill_on_edge; reflexivity.
Qed.

Lemma Forall_lengths_second_half (P : Z -> Prop) shift ans half_len :
  Forall (fun i : intv => P (snd i - fst i)) ans ->
  Forall (fun i : intv => P (snd i - fst i)) (second_half shift ans half_len).
Proof.
  intros Hall. unfold second_half. apply Forall_forall.
  intros i Hin%list_elem_of_In%in_map_iff. destruct Hin as (j & <- & Hin).
  apply in_rev, list_elem_of_In in Hin.
  rewrite Forall_forall in Hall.
  assert (Hj : j ∈ ans) by (eapply subseteq_take, Hin).
  specialize (Hall j Hj). cbn.
  replace (shift - fst j - (shift - snd j)) with (snd j - fst j) by ring. assumption.
Qed.

(** The result of the helper for a non-cyclic, non-inverted request of at
    least one block, taken apart: the first half, the middle block if the
    number of blocks is odd, and the mirror image of the first half. *)
Lemma helper_noncyclic tot_area num_blk_tot sp offset inc_sp fill_on_edge l same :
  1 <= num_blk_tot ->
  _fill_symmetric_helper tot_area num_blk_tot sp offset inc_sp false fill_on_edge false
  = Ok (l, same) ->
  let q := (tot_area - (if fill_on_edge then num_blk_tot - 1 else num_blk_tot + 1) * sp)
           / num_blk_tot in
  let edge := if fill_on_edge then 0 else sp in
  exists half mid,
    l = half ++ mid ++ second_half (tot_area + offset * 2) (half ++ mid) (length half) /\
    1 <= q /\
    Z.of_nat (length half) * 2 + Z.of_nat (length mid) = num_blk_tot /\
    (length mid <= 1)%nat /\
    Forall (fun i : intv => snd i - fst i = q \/ snd i - fst i = q + 1) (half ++ mid) /\
    (forall x, head (half ++ mid) = Some x -> fst x = offset + edge) /\
    (half = [] -> forall x, mid = [x] -> snd x = offset + tot_area - edge).
Proof.
  intros Hn H. cbn zeta. unfold _fill_symmetric_helper in H.
  apply bind_Ok in H as (fi & Hfi & H).
  destruct (info_noncyclic _ _ _ _ _ _ Hn Hfi) as (Hq & Hblk & Hm & Hmid & Hone).
  set (q := (tot_area - (if fill_on_edge then num_blk_tot - 1 else num_blk_tot + 1) * sp)
            / num_blk_tot) in *.
  destruct (first_half_spec (Z.to_nat (m fi)) sp (blk0 fi) (blk1 fi) (k fi) (m fi)
              fill_on_edge [] offset 0 1) as (half & Hhalf & Hlen & Hall & Hhead).
  destruct (first_half (Z.to_nat (m fi)) sp (blk0 fi) (blk1 fi) (k fi) (m fi)
              false fill_on_edge [] offset 0 1) as [ans marker] eqn:Hfh.
  cbn in Hhalf. subst ans.
  assert (Hall' : Forall (fun i : intv => snd i - fst i = q \/ snd i - fst i = q + 1) half).
  { eapply Forall_impl; [exact Hall|]. cbn. intros i Hi. lia. }
  assert (Hedge : forall x, head half = Some x -> fst x = offset + (if fill_on_edge then 0 else sp)).
  { intros x Hx. rewrite (Hhead x Hx). destruct fill_on_edge; ring. }
  destruct (mid_blk_len fi >=? 0) eqn:Hge; cbn in H.
  - apply Z.geb_le in Hge.
    destruct Hmid as [[Hneg _] | [Hmid Hcount]]; [lia|].
    set (x := if fill_on_edge then (marker, marker + mid_blk_len fi)
              else (marker + sp, marker + sp + mid_blk_len fi)).
    assert (Hl : l = (half ++ [x]) ++ second_half (tot_area + offset * 2) (half ++ [x]) (length half)
                 /\ same = same_sp fi).
    { unfold x. destruct fill_on_edge; cbn in H; injection H as <- <-; auto. }
    destruct Hl as [-> _].
    exists half, [x]. rewrite <- app_assoc. split; [reflexivity|].
    split; [assumption|]. split; [rewrite Hlen; cbn [length]; lia|].
    split; [cbn; lia|]. split; [|split].
    + apply Forall_app. split; [assumption|]. constructor; [|constructor].
      unfold x. clearbody q. destruct fill_on_edge; cbn; lia.
    + intros y Hy. destruct half as [|h half']; [|apply Hedge; exact Hy].
      cbn in Hy. injection Hy as <-.
      cbn in Hfh. assert (m fi = 0) by (cbn in Hlen; lia).
      replace (Z.to_nat (m fi)) with 0%nat in Hfh by lia. cbn in Hfh.
      injection Hfh as <-. unfold x. destruct fill_on_edge; cbn; ring.
    + intros -> y [= <-].
      assert (Hm0 : m fi = 0) by (cbn in Hlen; lia).
      replace (Z.to_nat (m fi)) with 0%nat in Hfh by lia. cbn in Hfh.
      injection Hfh as <-.
      assert (Hn1 : num_blk_tot = 1) by lia.
      pose proof (Hone Hn1) as Hmq. unfold q in Hmq. rewrite Hn1, Z.div_1_r in Hmq.
      unfold x. destruct fill_on_edge; cbn; rewrite Hmq; ring.
  - rewrite Z.geb_leb in Hge. apply Z.leb_gt in Hge.
    destruct Hmid as [[Hneg Hcount] | [Hmid _]]; [|lia].
    injection H as <- <-.
    exists half, []. rewrite !app_nil_r. split; [reflexivity|].
    split; [assumption|]. split; [rewrite Hlen; cbn [length]; lia|].
    split; [cbn; lia|]. split; [assumption|].
    split; [exact Hedge | discriminate].
Qed.

End PackFacts.

(** X18.  For a non-cyclic request of [num_blk_tot >= 1] fill blocks (no
    inversion), what [_fill_symmetric_helper] returns has exactly
    [num_blk_tot] intervals, each of length [q] or [q + 1], where
    [q >= 1] is the fill area divided by the number of blocks; and the
    sequence of the lengths reads the same in both directions. *)
Theorem fill_symmetric_helper_block_lengths
    (tot_area num_blk_tot sp offset : Z) (inc_sp fill_on_edge : bool)
    (l : list intv) (same : bool) :
  1 <= num_blk_tot ->
  Fill._fill_symmetric_helper tot_area num_blk_tot sp offset inc_sp false fill_on_edge false
  = Ok (l, same) ->
  let q := (tot_area - (if fill_on_edge then num_blk_tot - 1 else num_blk_tot + 1) * sp)
           / num_blk_tot in
  Z.of_nat (length l) = num_blk_tot /\
  1 <= q /\
  Forall (fun len => len = q \/ len = q + 1) (Fill.lengths l) /\
  Fill.lengths l = rev (Fill.lengths l).
Proof.
  intros Hn H. cbn zeta.
  destruct (PackFacts.helper_noncyclic _ _ _ _ _ _ _ _ Hn H)
    as (half & mid & -> & Hq & Hcount & Hmid & Hall & _).
  set (q := _ / num_blk_tot) in *. clearbody q.
  assert (Hsecond : Fill.second_half (tot_area + offset * 2) (half ++ mid) (length half)
                    = map (Fill.reflect_intv (tot_area + offset * 2)) (rev half)).
  { unfold Fill.second_half. rewrite take_app_length. reflexivity. }
  split; [|split; [assumption|split]].
  - rewrite Hsecond, !length_app, length_map, length_rev. lia.
  - unfold Fill.lengths. apply Forall_map. rewrite app_assoc.
    apply Forall_app. split; [exact Hall|].
    apply (PackFacts.Forall_lengths_second_half (fun len => len = q \/ len = q + 1)).
    exact Hall.
  - rewrite Hsecond. unfold Fill.lengths.
    rewrite !map_app, !rev_app_distr, map_map.
    assert (Hrefl : map (fun i : intv => snd (Fill.reflect_intv (tot_area + offset * 2) i)
                                          - fst (Fill.reflect_intv (tot_area + offset * 2) i))
                        (rev half)
                    = rev (map (fun i : intv => snd i - fst i) half)).
    { rewrite map_rev. f_equal. apply map_ext. intros [a b]. cbn. ring. }
    rewrite Hrefl, rev_involutive, <- app_assoc. do 2 f_equal.
    destruct mid as [|x [|y mid]]; [reflexivity | reflexivity | cbn in Hmid; lia].
Qed.

Lemma fill_symmetric_helper_block_lengths_witness :
  let q := (20 - (if true then 4 - 1 else 4 + 1) * 2) / 4 in
  Z.of_nat (length [(0, 4); (6, 9); (11, 14); (16, 20)]) = 4 /\
  1 <= q /\
  Forall (fun len => len = q \/ len = q + 1)
         (Fill.lengths [(0, 4); (6, 9); (11, 14); (16, 20)]) /\
  Fill.lengths [(0, 4); (6, 9); (11, 14); (16, 20)]
  = rev (Fill.lengths [(0, 4); (6, 9); (11, 14); (16, 20)]).
Proof.
  apply (fill_symmetric_helper_block_lengths 20 4 2 0 true true _ true); [lia|].
  vm_compute. reflexivity.
Defined.

(** X19.  For a non-cyclic request of [num_blk_tot >= 1] fill blocks (no
    inversion), the blocks that [_fill_symmetric_helper] returns reach both
    ends of the area: with fill on the edge the first block starts at
    [offset] and the last one ends at [offset + tot_area]; with space on
    the edge both are one space [sp] away from the ends. *)
Theorem fill_symmetric_helper_abuts_edges
    (tot_area num_blk_tot sp offset : Z) (inc_sp fill_on_edge : bool)
    (l : list intv) (same : bool) :
  1 <= num_blk_tot ->
  Fill._fill_symmetric_helper tot_area num_blk_tot sp offset inc_sp false fill_on_edge false
  = Ok (l, same) ->
  let edge := if fill_on_edge then 0 else sp in
  exists first_blk last_blk,
    head l = Some first_blk /\ last l = Some last_blk /\
    fst first_blk = offset + edge /\ snd last_blk = offset + tot_area - edge.
Proof.
  intros Hn H. cbn zeta.
  destruct (PackFacts.helper_noncyclic _ _ _ _ _ _ _ _ Hn H)
    as (half & mid & -> & _ & Hcount & Hmid & _ & Hhead & Hsingle).
  destruct half as [|h half].
  - destruct mid as [|x [|y mid]]; [cbn in Hcount; lia | | cbn in Hmid; lia].
    exists x, x. cbn. split; [reflexivity|]. split; [reflexivity|].
    split; [apply Hhead; reflexivity | now apply Hsingle].
  - unfold Fill.second_half. rewrite take_app_length.
    exists h, (Fill.reflect_intv (tot_area + offset * 2) h).
    split; [reflexivity|]. split.
    + rewrite app_assoc. cbn [rev]. rewrite map_app. cbn [map].
      rewrite app_assoc. apply last_snoc.
    + split; [apply Hhead; reflexivity|]. cbn.
      rewrite (Hhead h eq_refl). ring.
Qed.

Lemma fill_symmetric_helper_abuts_edges_witness :
  let edge := if false then 0 else 2 in
  exists first_blk last_blk,
    head [(2, 7); (9, 13); (15, 20)] = Some first_blk /\
    last [(2, 7); (9, 13); (15, 20)] = Some last_blk /\
    fst first_blk = 0 + edge /\ snd last_blk = 0 + 22 - edge.
Proof.
  apply (fill_symmetric_helper_abuts_edges 22 3 2 0 true false _ true); [lia|].
  vm_compute. reflexivity.
Defined.

(** ** Available tracks *)

Module AvailFacts.
Import Grid TrackSet PowerFill TrackSetMoreFacts.

(** The candidate tracks of [get_available_tracks]. *)
Lemma add_candidates_is_Some (lower upper width : Z) (l : list Z) :
  forall (ts : TrackSet track_value) h,
    _min_len ts = upper - lower ->
    (is_Some (_tracks (fold_left (fun ts tidx =>
                 add_track ts (2 * tidx + 1) (lower, upper) width None) l ts) !! h) <->
     is_Some (_tracks ts !! h) \/ exists tidx, tidx ∈ l /\ h = 2 * tidx + 1).
Proof.
  induction l as [|t l IH]; intros ts h Hmin; cbn [fold_left].
  - split; [auto | intros [?|(? & Hin & _)]; [assumption | inv Hin]].
  - rewrite IH by (now rewrite add_track_min_len).
    rewrite add_track_is_Some. cbn. rewrite Hmin. split.
    + intros [[[-> _]|?]|(t' & Hin & ->)]; [right; exists t; split; [left|reflexivity]
                                            | auto | right; exists t'; split; [now right | reflexivity]].
    + intros [?|(t' & Hin & ->)]; [auto|].
      apply elem_of_cons in Hin as [->|Hin]; [left; left; split; [reflexivity | lia]|].
      right. exists t'. auto.
Qed.

Lemma fold_subtract_is_Some (sub_intv : intv) (idxs : list Z) :
  forall (ts : TrackSet track_value) h,
    is_Some (_tracks (fold_left (fun ts sub_idx => subtract ts sub_idx sub_intv) idxs ts) !! h) ->
    is_Some (_tracks ts !! h).
Proof.
  induction idxs as [|a idxs IH]; intros ts h H; cbn in H; [assumption|].
  eapply subtract_is_Some, IH, H.
Qed.

Lemma subtract_used_wire_is_Some g layer_id width margin min_space ts hidx wire ts' h :
  subtract_used_wire g layer_id width margin min_space ts hidx wire = Ok ts' ->
  is_Some (_tracks ts' !! h) -> is_Some (_tracks ts !! h).
Proof.
  unfold subtract_used_wire. destruct wire as [[wstart wstop] [wwidth [[fmargin fill_type]|]]];
    [|discriminate].
  intros H. apply bind_Ok in H as ([cbeg cend] & _ & H).
  apply bind_Ok in H as ([[idx0 idx1]|] & _ & H); [|discriminate].
  injection H as <-. apply fold_subtract_is_Some.
Qed.

Lemma subtract_used_wires_is_Some g layer_id width margin min_space hidx wires :
  forall ts ts' h,
    subtract_used_wires g layer_id width margin min_space ts hidx wires = Ok ts' ->
    is_Some (_tracks ts' !! h) -> is_Some (_tracks ts !! h).
Proof.
  induction wires as [|wire wires IH]; intros ts ts' h H; cbn in H.
  - now injection H as <-.
  - apply bind_Ok in H as (ts1 & Hwire & H). intros Hs.
    eapply subtract_used_wire_is_Some; [exact Hwire|]. eapply IH; eassumption.
Qed.

Lemma subtract_used_tracks_is_Some g layer_id width margin min_space track_items :
  forall ts ts' h,
    subtract_used_tracks g layer_id width margin min_space ts track_items = Ok ts' ->
    is_Some (_tracks ts' !! h) -> is_Some (_tracks ts !! h).
Proof.
  induction track_items as [|[hidx intv_set] track_items IH]; intros ts ts' h H; cbn in H.
  - now injection H as <-.
  - apply bind_Ok in H as (ts1 & Hwires & H). intros Hs.
    eapply subtract_used_wires_is_Some; [exact Hwires|]. eapply IH; eassumption.
Qed.

(** Halving increasing odd half-track indices gives increasing track
    indices. *)
Lemma halve_sorted (keys : list Z) :
  StronglySorted Z.lt keys -> Forall (fun h => exists t, h = 2 * t + 1) keys ->
  StronglySorted Z.lt (map (fun hidx => (hidx - 1) / 2) keys).
Proof.
  induction 1 as [|a keys Hso IH Hall]; intros Hodd; cbn; constructor.
  - apply IH. now inv Hodd.
  - inv Hodd. rewrite Forall_forall in *. 
    intros x (h & -> & Hh)%list_elem_of_fmap.
    destruct H1 as [ta ->]. destruct (H2 h Hh) as [th ->]. specialize (Hall _ Hh).
    replace (2 * ta + 1 - 1) with (ta * 2) by ring.
    replace (2 * th + 1 - 1) with (th * 2) by ring.
    rewrite !Z.div_mul by lia. lia.
Qed.

(** What [get_available_tracks] returns, from the tracks left in the
    set. *)
Lemma available_from_keys (tr_idx_list : list Z) (ts : TrackSet track_value) :
  (forall h, is_Some (_tracks ts !! h) -> exists tidx, tidx ∈ tr_idx_list /\ h = 2 * tidx + 1) ->
  let ans := map (fun hidx => (hidx - 1) / 2) (sorted_keys ts) in
  StronglySorted Z.lt ans /\
  forall t, t ∈ ans <-> is_Some (_tracks ts !! (2 * t + 1)).
Proof.
  intros Hkeys. cbn zeta. destruct (sorted_keys_spec ts) as [Hso Hin].
  split.
  - apply halve_sorted; [assumption|]. apply Forall_forall.
    intros h Hh%Hin. destruct (Hkeys h Hh) as (t & _ & ->). eauto.
  - intros t. rewrite list_elem_of_fmap. split.
    + intros (h & -> & Hh%Hin). destruct (Hkeys h Hh) as (t' & _ & ->).
      replace (2 * t' + 1 - 1) with (t' * 2) by ring. now rewrite Z.div_mul by lia.
    + intros Hs. exists (2 * t + 1). split; [|now apply Hin].
      replace (2 * t + 1 - 1) with (t * 2) by ring. now rewrite Z.div_mul by lia.
Qed.

(** On odd half-track indices within [int64], the halving on the array is
    the halving of integers. *)
Lemma halve_int64 (keys : list Z) :
  Forall (fun h => Np.int64_min <= h <= Np.int64_max) keys ->
  Forall (fun h => exists t, h = 2 * t + 1) keys ->
  map (fun hidx => Np.floordiv (Np.wrap64 (hidx - 1)) 2) keys
  = map (fun hidx => (hidx - 1) / 2) keys.
Proof.
  intros Hr Ho. apply map_ext_in. intros h Hh%list_elem_of_In.
  rewrite Forall_forall in Hr, Ho. specialize (Hr h Hh). destruct (Ho h Hh) as [t ->].
  unfold Np.int64_min, Np.int64_max in Hr.
  rewrite NpFacts.wrap64_id by (unfold Np.int64_min, Np.int64_max; lia).
  apply NpFacts.floordiv_id; [lia|]. unfold Np.int64_min, Np.int64_max; lia.
Qed.

End AvailFacts.

(** X20.  [get_available_tracks] only returns candidate tracks: its
    result is strictly increasing (so without duplicates), and every track
    of it is one of the given track indices. *)
Theorem get_available_tracks_are_candidates
    (g : Grid.RoutingGrid) (layer_id : Z) (tr_idx_list : list Z)
    (lower upper width margin : Z)
    (track_items : list (Z * IntervalSet.t (Z * PowerFill.track_value)))
    (min_space : Z -> Z) (ans : list Z) :
  PowerFill.get_available_tracks g layer_id tr_idx_list lower upper width margin
    track_items min_space = Ok ans ->
  StronglySorted Z.lt ans /\ forall t, t ∈ ans -> t ∈ tr_idx_list.
Proof.
  unfold PowerFill.get_available_tracks. intros H.
  apply bind_Ok in H as (ts & Hsub & H).
  apply bind_Ok in H as (hidx_arr & Harr & H). injection H as <-.
  apply NpFacts.array_inv in Harr as [-> Hrange].
  assert (Hkeys : forall h, is_Some (TrackSet._tracks ts !! h) ->
                    exists tidx, tidx ∈ tr_idx_list /\ h = 2 * tidx + 1).
  { intros h Hs.
    eapply AvailFacts.subtract_used_tracks_is_Some in Hs; [|exact Hsub].
    apply AvailFacts.add_candidates_is_Some in Hs; [|reflexivity].
    destruct Hs as [[? Hs]|?]; [|assumption].
    cbn in Hs. now rewrite lookup_empty in Hs. }
  rewrite AvailFacts.halve_int64; [|assumption|].
  2:{ apply Forall_forall. intros h Hh.
      apply (proj2 (TrackSetMoreFacts.sorted_keys_spec ts)) in Hh.
      destruct (Hkeys h Hh) as (t & _ & ->). eauto. }
  destruct (AvailFacts.available_from_keys tr_idx_list ts Hkeys)
    as [Hso Hin].
  split; [assumption|].
  intros t Ht%Hin. destruct (Hkeys _ Ht) as (t' & Ht' & E).
  assert (t = t') as -> by lia. assumption.
Qed.

(** X21.  With no used track, [get_available_tracks] returns all the
    candidate tracks: the given track indices, each once, in increasing
    order.  The candidates are within [-2 ^ 62 .. 2 ^ 62 - 1], so that
    their half-track indices fit the [int64] array of the result. *)
Theorem get_available_tracks_unused
    (g : Grid.RoutingGrid) (layer_id : Z) (tr_idx_list : list Z)
    (lower upper width margin : Z) (min_space : Z -> Z) :
  (forall t, t ∈ tr_idx_list -> - 2 ^ 62 <= t < 2 ^ 62) ->
  exists ans,
    PowerFill.get_available_tracks g layer_id tr_idx_list lower upper width margin
      [] min_space = Ok ans /\
    StronglySorted Z.lt ans /\ forall t, t ∈ ans <-> t ∈ tr_idx_list.
Proof.
  intros Hbound. change (2 ^ 62) with 4611686018427387904 in Hbound.
  unfold PowerFill.get_available_tracks. cbn [PowerFill.subtract_used_tracks].
  set (ts := fold_left _ tr_idx_list _).
  assert (Hkeys : forall h, is_Some (TrackSet._tracks ts !! h) <->
                    exists tidx, tidx ∈ tr_idx_list /\ h = 2 * tidx + 1).
  { intros h. unfold ts. rewrite AvailFacts.add_candidates_is_Some by reflexivity.
    cbn. rewrite lookup_empty. split; [intros [[? ?]|?]; [discriminate | assumption] | auto]. }
  assert (Hrange : Forall (fun h => Np.int64_min <= h <= Np.int64_max)
                     (TrackSet.sorted_keys ts)).
  { apply Forall_forall. intros h Hh.
    apply (proj2 (TrackSetMoreFacts.sorted_keys_spec ts)) in Hh.
    apply Hkeys in Hh as (t & Ht & ->). specialize (Hbound t Ht).
    unfold Np.int64_min, Np.int64_max. lia. }
  assert (Hodd : Forall (fun h => exists t, h = 2 * t + 1) (TrackSet.sorted_keys ts)).
  { apply Forall_forall. intros h Hh.
    apply (proj2 (TrackSetMoreFacts.sorted_keys_spec ts)) in Hh.
    apply Hkeys in Hh as (t & _ & ->). eauto. }
  pose proof (NpFacts.array_Ok _ Hrange) as Harr.
  pose proof (AvailFacts.halve_int64 _ Hrange Hodd) as Hhalve.
  exists (map (fun hidx => (hidx - 1) / 2) (TrackSet.sorted_keys ts)).
  split.
  { cbn -[Np.array Np.floordiv Np.wrap64 TrackSet.sorted_keys].
    unfold PowerFill.track_value in *. rewrite Harr.
    cbn -[Np.array Np.floordiv Np.wrap64 TrackSet.sorted_keys].
    now rewrite Hhalve. }
  destruct (AvailFacts.available_from_keys tr_idx_list ts) as [Hso Hin].
  { intros h. apply Hkeys. }
  split; [assumption|].
  intros t. rewrite Hin, Hkeys. split.
  - intros (t' & Ht' & E). assert (t = t') as -> by lia. assumption.
  - eauto.
Qed.

Lemma get_available_tracks_unused_witness :
  exists ans,
    PowerFill.get_available_tracks Grid.empty_grid 1 [4; 0; 2; 0] 0 1000 1 0
      [] (fun _ => 100) = Ok ans /\
    StronglySorted Z.lt ans /\ forall t, t ∈ ans <-> t ∈ [4; 0; 2; 0].
Proof.
  apply (get_available_tracks_unused Grid.empty_grid 1 [4; 0; 2; 0] 0 1000 1 0
           (fun _ => 100)).
  intros t Ht. change (2 ^ 62) with 4611686018427387904.
  repeat (apply elem_of_cons in Ht as [->|Ht]; [lia|]).
  inversion Ht.
Defined.

(** Beyond the bound, the half-track index does not fit the array. *)
Example get_available_tracks_overflow :
  PowerFill.get_available_tracks Grid.empty_grid 1 [2 ^ 62] 0 1000 1 0 [] (fun _ => 100)
    = Raise OverflowError.
Proof. vm_compute. reflexivity. Qed.

Lemma get_available_tracks_are_candidates_witness :
  StronglySorted Z.lt [0; 4] /\ forall t, t ∈ [0; 4] -> t ∈ [4; 0; 1; 2; 3; 2].
Proof.
  apply (get_available_tracks_are_candidates
           (Grid.mkRoutingGrid [1] {[1 := 100]} {[1 := 100]} {[1 := 100]}
              {[1 := Grid.X]} {[1 := 100]} {[1 := 200]})
           1 [4; 0; 1; 2; 3; 2] 0 1000 1 0
           [(5, [((0, 400), (1, Some (0, "sig"%string)))])] (fun _ => 100)).
  vm_compute. reflexivity.
Defined.

(** X22.  A [TrackSet] made by the constructor, [add_track] and [subtract]
    keeps its minimum length, stores only intervals that are at least that
    long, and holds a track ([hidx in track_set]) exactly when an interval
    is left on it. *)
Theorem track_set_built_invariants {V : Type} (min_length : Z) (ts : TrackSet.TrackSet V) :
  TrackSet.built min_length ts ->
  TrackSet._min_len ts = min_length /\
  (forall hidx intv_set x,
     TrackSet._tracks ts !! hidx = Some intv_set -> In x intv_set ->
     min_length <= snd (fst x) - fst (fst x)) /\
  (forall hidx,
     TrackSet.contains ts hidx = true <->
     exists intv_set x, TrackSet._tracks ts !! hidx = Some intv_set /\ In x intv_set).
Proof.
  intros Hbuilt.
  assert (H : TrackSet._min_len ts = min_length /\ TrackSet.min_length_ok ts /\
              TrackSet.no_empty_track ts).
  { induction Hbuilt as [| ts hidx i width value _ (Hmin & Hok & Hne)
                          | ts hidx i _ (Hmin & Hok & Hne)].
    - split; [reflexivity|]. split; intros h s; cbn; rewrite lookup_empty; discriminate.
    - split; [now rewrite TrackSetMoreFacts.add_track_min_len|].
      split; [|now apply TrackSetMoreFacts.add_track_no_empty].
      apply (track_set_operations_min_length ts ts hidx i width value Hok).
    - split; [now rewrite TrackSetMoreFacts.subtract_min_len|].
      split; [|now apply TrackSetMoreFacts.subtract_no_empty].
      now apply TrackSetMoreFacts.subtract_min_length_ok. }
  destruct H as (Hmin & Hok & Hne).
  split; [assumption|]. split.
  - rewrite <- Hmin. exact Hok.
  - intros hidx. unfold TrackSet.contains. rewrite bool_decide_eq_true. split.
    + intros [s Hs]. specialize (Hne hidx s Hs).
      destruct s as [|x s]; [contradiction|]. exists (x :: s), x. split; [assumption | now left].
    + intros (s & _ & Hs & _). eauto.
Qed.

Lemma track_set_built_invariants_witness :
  let ts := TrackSet.subtract
              (TrackSet.add_track (TrackSet.__init__ 10 None) 1 (0, 100) 1 tt) 1 (40, 60) in
  TrackSet._min_len ts = 10 /\
  (forall hidx intv_set x,
     TrackSet._tracks ts !! hidx = Some intv_set -> In x intv_set ->
     10 <= snd (fst x) - fst (fst x)) /\
  (forall hidx,
     TrackSet.contains ts hidx = true <->
     exists intv_set x, TrackSet._tracks ts !! hidx = Some intv_set /\ In x intv_set).
Proof.
  apply (track_set_built_invariants 10).
  apply TrackSet.built_subtract, TrackSet.built_add, TrackSet.built_init.
Defined.

Module TransformFacts.
Section WithValue.
Context {V : Type}.


End WithValue.
End TransformFacts.



(** ** Power fill: supply spacing *)

(** X24.  [get_power_fill_tracks] rejects a supply spacing that is too
    small: with a non-negative [sup_spacing] that leaves less than the
    minimum space between two supply wires
    ([sup_spacing * pitch + sp < sp_min_unit]), it raises
    'Power fill spacing less then min spacing = ...'. *)
Theorem power_fill_rejects_small_spacing
    (g : Grid.RoutingGrid) (blk_width blk_height layer_id : Z)
    (track_items : list (Z * IntervalSet.t (Z * PowerFill.track_value)))
    (sup_width fill_margin edge_margin sup_spacing sp_min_unit min_length pitch sp : Z) :
  Grid.reachable g ->
  Grid.track_pitch g layer_id = Some pitch -> 0 < pitch ->
  Grid.sp_tracks g !! layer_id = Some sp ->
  0 <= sup_spacing -> sup_spacing * pitch + sp < sp_min_unit ->
  PowerFill.get_power_fill_tracks g blk_width blk_height layer_id track_items
    sup_width fill_margin edge_margin sup_spacing sp_min_unit min_length
  = Raise (ValueError FillSpacingTooSmall).
Proof.
  intros Hreach Hpitch Hpos Hsp Hnonneg Hsmall.
  destruct (SpaceFacts.num_space_tracks_minimal g layer_id sp_min_unit pitch Hreach Hpitch Hpos)
    as (n & sp' & Hsp' & Hn & Hge & _).
  assert (sp' = sp) as -> by congruence.
  assert (HL : layer_id ∈ Grid.layers g).
  { apply GridFacts.reachable_inv in Hreach as [_ _ Hl _ _ _]. apply Hl. eauto. }
  destruct (GridMoreFacts.reachable_tables g layer_id Hreach HL)
    as (? & ? & d & ? & _ & _ & Hd & _).
  apply GridFacts.getitem_Ok in Hd.
  unfold PowerFill.get_power_fill_tracks, PowerFill.remaining_fill_tracks,
    Grid.get_direction.
  rewrite Hd. cbn.
  assert (Hlt : sup_spacing < n) by nia.
  destruct (decide (d = Grid.X)); rewrite Hn; cbn;
    replace (sup_spacing >=? 0) with true by lia;
    replace (sup_spacing <? n) with true by lia; reflexivity.
Qed.

Lemma power_fill_rejects_small_spacing_witness :
  exists g, Grid.__init__ [1; 2] [50; 60] [50; 40] Grid.X (inl 100) = Ok g /\
    PowerFill.get_power_fill_tracks g 1000 1000 1 [] 1 0 0 1 350 100
    = Raise (ValueError FillSpacingTooSmall).
Proof.
  eexists. split; [vm_compute; reflexivity|].
  eapply (power_fill_rejects_small_spacing _ 1000 1000 1 [] 1 0 0 1 350 100 200 100).
  - eapply (Grid.reach_init [1; 2] [50; 60] [50; 40] Grid.X (inl 100)).
    vm_compute. reflexivity.
  - vm_compute. reflexivity.
  - lia.
  - vm_compute. reflexivity.
  - lia.
  - lia.
Defined.
